(** * Visual identity helpers of the blog listing page

    A shallow embedding of the colour, hashing and text helpers of
    [app/[lang]/(home)/blog/components/visuals] and of the accent picker of
    [app/[lang]/(home)/blog/page.tsx], with the properties the specification
    states about them.

    Modelling conventions.
    - A JavaScript string is its sequence of UTF-16 code units, a [list Z];
      [charCodeAt], [charAt], [slice], [length] and the regular expressions of
      the source all work on code units.
    - A JavaScript [number] that only ever holds an integer is a [Z]; 32-bit
      operators are written with their wrap-around ([toInt32]).  A number of
      the colour arithmetic is the rational it holds ([Q]).  [Math.min],
      [Math.max] and [Math.round] are exact on every number; the [+], [-] and
      [*] of [mixHexColors] are binary64 operations, the exact result rounded
      to the nearest binary64 number, a tie going to the even one ([fadd],
      [fsub], [fmul]), and a decimal literal is the binary64 number nearest
      to it ([binary64]).  The numbers of the luminance formula (which raises
      to the power 2.4) are reals ([R]).  NaN, the infinities and the sign of
      zero are outside the model.
    - [undefined] and [null] are [None]. *)

From Stdlib Require Import Floats.
From Stdlib Require Import ZArith Lia List Bool Ascii String QArith Qround Qminmax Qabs.
From Stdlib Require Import Reals Lra Psatz.
From stdpp Require Import base option list gmap.
From Equations Require Import Equations.
From Equations.Prop Require Import Logic.

Local Open Scope Z_scope.

(* ------------------------------------------------------------------ *)
(** ** JavaScript strings *)

Abbreviation jsstring := (list Z).
Abbreviation HexColor := (list Z).

(** The code units of an ASCII literal. *)
Definition js (s : string) : jsstring :=
  List.map (fun a => Z.of_N (N_of_ascii a)) (list_ascii_of_string s).

(** [if (s)] on a possibly undefined string: only a non-empty string is truthy. *)
Definition truthy (s : option jsstring) : bool :=
  match s with
  | Some (_ :: _) => true
  | _ => false
  end.

(* ------------------------------------------------------------------ *)
(** ** 32-bit integer operators *)

Definition toInt32 (x : Z) : Z := (x + 2 ^ 31) mod 2 ^ 32 - 2 ^ 31.

(** [a << n] *)
Definition shl32 (a n : Z) : Z := toInt32 (Z.shiftl (toInt32 a) (Z.land n 31)).
(** [a >> n] *)
Definition sar32 (a n : Z) : Z := Z.shiftr (toInt32 a) (Z.land n 31).
(** [a | b] *)
Definition or32 (a b : Z) : Z := Z.lor (toInt32 a) (toInt32 b).
(** [a & b] *)
Definition and32 (a b : Z) : Z := Z.land (toInt32 a) (toInt32 b).

(* ------------------------------------------------------------------ *)
(** ** Palette, hex pattern *)

Definition accentPalette : list HexColor :=
  [ js "#f97316"; js "#6366f1"; js "#ec4899"; js "#10b981"; js "#facc15";
    js "#0ea5e9"; js "#c084fc"; js "#fb7185"; js "#14b8a6"; js "#fbbf24" ].

Definition paletteSize : Z := Z.of_nat (List.length accentPalette).

(** [[0-9a-fA-F]] *)
Definition isHexDigit (c : Z) : bool :=
  ((48 <=? c) && (c <=? 57)) || ((97 <=? c) && (c <=? 102)) || ((65 <=? c) && (c <=? 70)).

(** One round of the group [(?:[0-9a-fA-F]{3})]: the rest of the input behind
    three hex digits. *)
Definition hexTriple (s : jsstring) : option jsstring :=
  match s with
  | a :: b :: c :: rest =>
      if isHexDigit a && isHexDigit b && isHexDigit c then Some rest else None
  | _ => None
  end.

(** [hexColorRegex.test], for [/^#(?:[0-9a-fA-F]{3}){1,2}$/]. *)
Definition hexColorRegex_test (s : jsstring) : bool :=
  match s with
  | c :: body =>
      if c =? 35 then
        match hexTriple body with
        | Some [] => true
        | Some rest =>
            match hexTriple rest with
            | Some [] => true
            | _ => false
            end
        | None => false
        end
      else false
  | [] => false
  end.

(** The hex colour pattern as the specification words it: a [#] followed by
    exactly 3 or exactly 6 hex digits, in either case. *)
Definition hexDigitSpec (c : Z) : Prop :=
  48 <= c <= 57 \/ 97 <= c <= 102 \/ 65 <= c <= 70.

Definition matchesHexPattern (s : jsstring) : Prop :=
  exists digits : jsstring,
    s = 35 :: digits
    /\ (List.length digits = 3%nat \/ List.length digits = 6%nat)
    /\ Forall hexDigitSpec digits.

(* ------------------------------------------------------------------ *)
(** ** hashString *)

(** One turn of the loop body:
    [hash = (hash << 5) - hash + value.charCodeAt(index); hash |= 0]. *)
Definition hashStep (hash c : Z) : Z :=
  let hash := shl32 hash 5 - hash + c in
  or32 hash 0.

Definition hashString (value : jsstring) : Z :=
  Z.abs (fold_left hashStep value 0).

(** The hash as the specification words it: [hash = hash*31 + code] with
    signed 32-bit wrap-around, then the absolute value. *)
Definition hashFoldSpec (value : jsstring) : Z :=
  fold_left (fun hash c => toInt32 (hash * 31 + c)) value 0.

(** The characters of a string counted as code points: a high surrogate
    followed by a low surrogate is one character beyond U+FFFF, every other
    code unit is its own code point ([codePointAt], the string iterator). *)
Definition isHighSurrogate (c : Z) : bool := (55296 <=? c) && (c <=? 56319).
Definition isLowSurrogate (c : Z) : bool := (56320 <=? c) && (c <=? 57343).

Fixpoint codePoints (s : jsstring) : list Z :=
  match s with
  | hi :: rest =>
      match rest with
      | lo :: rest' =>
          if isHighSurrogate hi && isLowSurrogate lo
          then (65536 + (hi - 55296) * 1024 + (lo - 56320)) :: codePoints rest'
          else hi :: codePoints rest
      | [] => [hi]
      end
  | [] => []
  end.

(** The same fold over the code points. *)
Definition hashCodePointSpec (value : jsstring) : Z :=
  fold_left (fun hash c => toInt32 (hash * 31 + c)) (codePoints value) 0.

(* ------------------------------------------------------------------ *)
(** ** getAccentColor *)

(** [array[i]] for an integer [i]: [undefined] outside the array. *)
Definition arrayGet {A} (l : list A) (i : Z) : option A :=
  if i <? 0 then None else l !! Z.to_nat i.

(** [position] is the integer the caller passes; [%] is JavaScript's
    remainder, which takes the sign of the dividend ([Z.rem]). *)
Definition getAccentColor (preferred : option jsstring) (key : jsstring)
    (position : Z) : option HexColor :=
  if truthy preferred && hexColorRegex_test (default [] preferred) then preferred
  else
    let hash := hashString key in
    let baseIndex := Z.rem hash paletteSize in
    let paletteIndex := Z.rem (baseIndex + position) paletteSize in
    arrayGet accentPalette paletteIndex.

(* ------------------------------------------------------------------ *)
(** ** pickAccentColor *)

(** The front matter fields the accent picker reads. *)
Record BlogFrontmatterMeta := {
  title : jsstring;
  accentColor : option jsstring
}.

(** [usedAccentColors], the [Set] the page creates once per render and every
    call of [pickAccentColor] reads and extends.  Its elements are the values
    [getAccentColor] returned. *)
Abbreviation UsedColors := (gset (option HexColor)).

(** The condition of the [while]. *)
Definition probeGuard (used : UsedColors) (offset : Z) (accent : option HexColor) : bool :=
  bool_decide (accent ∈ used) && (offset <? paletteSize - 1).

(** The [while] loop of [pickAccentColor], from the state [(offset, accent)]
    it is entered with to the state it leaves; the set is only read.  Each
    turn raises [offset], so [paletteSize - 1 - offset] decreases. *)
Equations? probe (used : UsedColors) (key : jsstring) (offset : Z)
    (accent : option HexColor) : Z * option HexColor
    by wf (Z.to_nat (paletteSize - 1 - offset)) lt :=
  probe used key offset accent with inspect (probeGuard used offset accent) := {
    | exist _ true Hguard =>
        probe used key (offset + 1) (getAccentColor None key (offset + 1))
    | exist _ false Hexit => (offset, accent)
  }.
Proof.
  unfold probeGuard in Hguard.
  apply andb_prop in Hguard as [_ Hlt%Z.ltb_lt]. lia.
Qed.

(** The number of turns the same loop takes (the times [offset += 1] runs). *)
Equations? probeTurns (used : UsedColors) (key : jsstring) (offset : Z)
    (accent : option HexColor) : nat
    by wf (Z.to_nat (paletteSize - 1 - offset)) lt :=
  probeTurns used key offset accent with inspect (probeGuard used offset accent) := {
    | exist _ true Hguard =>
        S (probeTurns used key (offset + 1) (getAccentColor None key (offset + 1)))
    | exist _ false Hexit => O
  }.
Proof.
  unfold probeGuard in Hguard.
  apply andb_prop in Hguard as [_ Hlt%Z.ltb_lt]. lia.
Qed.

(** [pickAccentColor], with the shared set passed in and handed back. *)
Definition pickAccentColor (frontmatter : BlogFrontmatterMeta) (used : UsedColors)
    : option HexColor * UsedColors :=
  let offset := 0 in
  let accent := getAccentColor (accentColor frontmatter) (title frontmatter) offset in
  if truthy (accentColor frontmatter) then
    (accent, {[ accent ]} ∪ used)
  else
    let '(_, accent) := probe used (title frontmatter) offset accent in
    (accent, {[ accent ]} ∪ used).

(** The page calls [pickAccentColor] once per post, in listing order, on the
    one shared set. *)
Fixpoint renderAccents (posts : list BlogFrontmatterMeta) (used : UsedColors)
    : list (option HexColor) * UsedColors :=
  match posts with
  | [] => ([], used)
  | p :: rest =>
      let '(c, used) := pickAccentColor p used in
      let '(cs, used) := renderAccents rest used in
      (c :: cs, used)
  end.

(* ------------------------------------------------------------------ *)
(** ** Numbers of the colour arithmetic *)

Record RGB := mkRGB { r : Q; g : Q; b : Q }.

(** [Math.min(Math.max(value, min), max)] *)
Definition clamp (value min max : Q) : Q := Qmin (Qmax value min) max.

(** [Math.round]: the nearest integer, a tie going up. *)
Definition Math_round (x : Q) : Q := inject_Z (Qfloor (x + (1 # 2))).

(* ------------------------------------------------------------------ *)
(** ** binary64 arithmetic *)

(** [2^e], for an exponent of either sign. *)
Definition pow2 (e : Z) : Q :=
  if 0 <=? e then inject_Z (2 ^ e) else 1 # Z.to_pos (2 ^ (- e)).

(** The binary exponent of a number that is not zero:
    [2^(ilog2 x) <= |x| < 2^(ilog2 x + 1)]. *)
Definition ilog2 (x : Q) : Z :=
  let d := Z.log2 (Z.abs (Qnum x)) - Z.log2 (Z.pos (Qden x)) in
  if Qle_bool (pow2 d) (Qabs x) then d else d - 1.

(** The nearest integer, a tie going to the even one. *)
Definition roundHalfEven (m : Q) : Z :=
  let f := Qfloor m in
  match Qcompare (m - inject_Z f) (1 # 2) with
  | Lt => f
  | Gt => f + 1
  | Eq => if Z.even f then f else f + 1
  end.

(** The exponent of the last place of the binary64 numbers around [x]:
    53 significant bits, and no exponent below that of the subnormal
    numbers. *)
Definition binary64Exponent (x : Q) : Z := Z.max (ilog2 x - 52) (-1074).

(** [x] scaled to its last place, rounded there and scaled back; the scaled
    number is brought to lowest terms before it is rounded. *)
Definition roundToBinary64 (x : Q) : Q :=
  if Qeq_bool x 0 then 0%Q
  else
    let e := binary64Exponent x in
    (inject_Z (roundHalfEven (Qred (x / pow2 e))) * pow2 e)%Q.

(** The binary64 number nearest to [x] (round to nearest, ties to even), as
    a fraction in lowest terms: the value of a decimal literal, and the
    result of an operation whose exact result is [x].  Overflow to Infinity
    (from 2^1024 on) is not modelled. *)
Definition binary64 (x : Q) : Q := Qred (roundToBinary64 (Qred x)).

(** [x + y], [x - y] and [x * y] on binary64 numbers. *)
Definition fadd (x y : Q) : Q := binary64 (x + y).
Definition fsub (x y : Q) : Q := binary64 (x - y).
Definition fmul (x y : Q) : Q := binary64 (x * y).

(** The value of a primitive float, the kernel's own binary64 numbers. *)
Definition floatValue (x : float) : option Q :=
  match Prim2SF x with
  | S754_zero _ => Some 0%Q
  | S754_finite sign m e =>
      let v := (inject_Z (Z.pos m) * pow2 e)%Q in
      Some (Qred (if sign then Qopp v else v))
  | _ => None
  end.

(** The digit of [Number.prototype.toString] for a value below the radix. *)
Definition digitChar (d : Z) : Z := if d <? 10 then 48 + d else 87 + d.

(** [n.toString(16)] for a whole number [n >= 0], most significant digit first. *)
Equations? natToString16 (n : Z) : jsstring by wf (Z.to_nat n) lt :=
  natToString16 n with inspect (n <? 16) := {
    | exist _ true _ => [digitChar n]
    | exist _ false Hbig => natToString16 (n / 16) ++ [digitChar (n mod 16)]
  }.
Proof.
  apply Z.ltb_ge in Hbig.
  assert (n / 16 < n) by (apply Z.div_lt; lia).
  assert (0 <= n / 16) by (apply Z.div_pos; lia). lia.
Qed.

(** [n.toString(10)] for a whole number [n >= 0]. *)
Equations? natToString10 (n : Z) : jsstring by wf (Z.to_nat n) lt :=
  natToString10 n with inspect (n <? 10) := {
    | exist _ true _ => [digitChar n]
    | exist _ false Hbig => natToString10 (n / 10) ++ [digitChar (n mod 10)]
  }.
Proof.
  apply Z.ltb_ge in Hbig.
  assert (n / 10 < n) by (apply Z.div_lt; lia).
  assert (0 <= n / 10) by (apply Z.div_pos; lia). lia.
Qed.

(** A number that holds a whole value, as that integer. *)
Definition wholePart (x : Q) : Z := Qfloor x.
Definition isWhole (x : Q) : bool := Qeq_bool x (inject_Z (Qfloor x)).

(** [x.toString(16)] where the source calls it: on the clamped, rounded
    component, a whole number. *)
Definition toString16 (x : Q) : jsstring :=
  let n := wholePart x in
  if n <? 0 then 45 :: natToString16 (- n) else natToString16 n.

(* ------------------------------------------------------------------ *)
(** ** parseInt *)

(** White space and line terminators: what [trim] strips, what [\s] matches
    and what [parseInt] skips. *)
Definition isWhiteSpace (c : Z) : bool :=
  ((9 <=? c) && (c <=? 13)) || (c =? 32) || (c =? 160) || (c =? 5760)
  || ((8192 <=? c) && (c <=? 8202)) || (c =? 8232) || (c =? 8233)
  || (c =? 8239) || (c =? 8287) || (c =? 12288) || (c =? 65279).

Fixpoint dropWhile (p : Z -> bool) (s : jsstring) : jsstring :=
  match s with
  | c :: rest => if p c then dropWhile p rest else s
  | [] => []
  end.

(** The value of a digit in radix 16, if it is one. *)
Definition hexValue (c : Z) : option Z :=
  if (48 <=? c) && (c <=? 57) then Some (c - 48)
  else if (97 <=? c) && (c <=? 102) then Some (c - 87)
  else if (65 <=? c) && (c <=? 70) then Some (c - 55)
  else None.

(** The longest prefix of radix-16 digits, read as a number; [seen] tells
    whether a digit was read. *)
Fixpoint hexPrefix (s : jsstring) (acc : Z) (seen : bool) : option Z :=
  match s with
  | c :: rest =>
      match hexValue c with
      | Some d => hexPrefix rest (acc * 16 + d) true
      | None => if seen then Some acc else None
      end
  | [] => if seen then Some acc else None
  end.

(** [parseInt(s, 16)]; [None] is [NaN]. *)
Definition parseInt16 (s : jsstring) : option Z :=
  let s := dropWhile isWhiteSpace s in
  let sign :=
    match s with
    | c :: _ => if c =? 45 then -1 else 1
    | [] => 1
    end in
  let s :=
    match s with
    | c :: rest => if (c =? 45) || (c =? 43) then rest else s
    | [] => s
    end in
  let s :=
    match s with
    | c0 :: c1 :: rest =>
        if (c0 =? 48) && ((c1 =? 120) || (c1 =? 88)) then rest else s
    | _ => s
    end in
  option_map (Z.mul sign) (hexPrefix s 0 false).

(** The operand conversion of the 32-bit operators: [NaN] becomes 0. *)
Definition numberToInt32 (n : option Z) : Z := toInt32 (default 0 n).

(* ------------------------------------------------------------------ *)
(** ** hexToRgb, rgbToHex, mixHexColors *)

Definition hexToRgb (hex : HexColor) : option RGB :=
  if negb (hexColorRegex_test hex) then None
  else
    let normalized := List.tl hex in
    let normalized :=
      if (Z.of_nat (List.length normalized) =? 3)
      then List.concat (List.map (fun char => char :: [char]) normalized)
      else normalized in
    let intValue := numberToInt32 (parseInt16 normalized) in
    Some {| r := inject_Z (and32 (sar32 intValue 16) 255);
            g := inject_Z (and32 (sar32 intValue 8) 255);
            b := inject_Z (and32 intValue 255) |}.

Definition componentToHex (component : Q) : jsstring :=
  let clamped := clamp (Math_round component) 0 (inject_Z 255) in
  let hex := toString16 clamped in
  if Z.of_nat (List.length hex) =? 1 then 48 :: hex else hex.

Definition rgbToHex (rgb : RGB) : HexColor :=
  35 :: componentToHex (r rgb) ++ componentToHex (g rgb) ++ componentToHex (b rgb).

(** [weight] is a number: whatever rational the caller names, the function
    receives the binary64 number nearest to it (a binary64 number is left as
    it is).  The channel arithmetic is that of the source, operation by
    operation, in binary64. *)
Definition mixHexColors (color mixWith : HexColor) (weight : Q) : HexColor :=
  let ratio := clamp (binary64 weight) 0 1 in
  match hexToRgb color, hexToRgb mixWith with
  | Some rgbBase, Some rgbMix =>
      rgbToHex {| r := fadd (fmul (r rgbBase) (fsub 1 ratio)) (fmul (r rgbMix) ratio);
                  g := fadd (fmul (g rgbBase) (fsub 1 ratio)) (fmul (g rgbMix) ratio);
                  b := fadd (fmul (b rgbBase) (fsub 1 ratio)) (fmul (b rgbMix) ratio) |}
  | _, _ => color
  end.

(** One channel of the mix, [base * (1 - ratio) + mix * ratio] as the source
    evaluates it. *)
Definition mixChannel (base mix ratio : Q) : Q :=
  fadd (fmul base (fsub 1 ratio)) (fmul mix ratio).

(** The same expression on primitive floats. *)
Definition mixChannelFloat (base mix ratio : float) : float :=
  (base * (1 - ratio) + mix * ratio)%float.

(** The words of the specification for the mix of one channel: the linear
    interpolation, an integer nearest to it, the clamp to a byte, two
    lower-case hex digits. *)
Definition interpolate (a b t : Q) : Q := a * (1 - t) + b * t.

(** Bounds on the rounding error: of one binary64 operation on numbers up to
    512, and of a whole channel of [mixHexColors]. *)
Definition binary64Error : Q := 1 # 2 ^ 44.
Definition mixError : Q := 1 # 10 ^ 9.

Definition nearestInteger (x : Q) (n : Z) : Prop := (Qabs (x - inject_Z n) <= 1 # 2)%Q.

Definition clampByte (n : Z) : Z := Z.min (Z.max n 0) 255.

Definition twoHexDigits (v : Z) : jsstring := [digitChar (v / 16); digitChar (v mod 16)].

(* ------------------------------------------------------------------ *)
(** ** hexToRgba *)

Section NumberToString.
(** [Number::toString] of a value that is not a whole number of magnitude
    below 10^21 (the shortest decimal that reads back as the same binary64
    value); the whole numbers are printed below. *)
Variable fractionToString : Q -> jsstring.

(** The string a template literal puts in place of a number. *)
Definition numberToString (x : Q) : jsstring :=
  if isWhole x && Qle_bool (Qabs x) (inject_Z (10 ^ 21 - 1)) then
    let n := wholePart x in
    if n <? 0 then 45 :: natToString10 (- n) else natToString10 n
  else fractionToString x.

Definition hexToRgba (color : HexColor) (alpha : Q) : jsstring :=
  match hexToRgb color with
  | None => color
  | Some rgb =>
      let clampedAlpha := clamp alpha 0 1 in
      js "rgba(" ++ numberToString (r rgb) ++ js ", " ++ numberToString (g rgb)
        ++ js ", " ++ numberToString (b rgb) ++ js ", "
        ++ numberToString clampedAlpha ++ js ")"
  end.
End NumberToString.

(* ------------------------------------------------------------------ *)
(** ** getLuminance, getReadableTextColor *)

Definition toLinear (channel : R) : R :=
  let normalized := (channel / 255)%R in
  if Rle_dec normalized 0.03928%R
  then (normalized / 12.92)%R
  else Rpower ((normalized + 0.055) / 1.055)%R 2.4%R.

Definition getLuminance (hex : HexColor) : R :=
  match hexToRgb hex with
  | None => 0.5%R
  | Some rgb =>
      let r := toLinear (Q2R (r rgb)) in
      let g := toLinear (Q2R (g rgb)) in
      let b := toLinear (Q2R (b rgb)) in
      (0.2126 * r + 0.7152 * g + 0.0722 * b)%R
  end.

Definition getReadableTextColor (background : HexColor) : HexColor :=
  if Rgt_dec (getLuminance background) 0.5%R then js "#0f172a" else js "#f8fafc".

(** Relative luminance as WCAG defines it, on 8-bit channels. *)
Definition wcagChannel (c8 : Z) : R :=
  let c := (IZR c8 / 255)%R in
  if Rle_dec c 0.03928%R then (c / 12.92)%R
  else Rpower ((c + 0.055) / 1.055)%R 2.4%R.

Definition wcagLuminance (r8 g8 b8 : Z) : R :=
  (0.2126 * wcagChannel r8 + 0.7152 * wcagChannel g8 + 0.0722 * wcagChannel b8)%R.

(* ------------------------------------------------------------------ *)
(** ** Text helpers: trim, split, charAt *)

(** [s.trim()] *)
Definition trim (s : jsstring) : jsstring :=
  List.rev (dropWhile isWhiteSpace (List.rev (dropWhile isWhiteSpace s))).

(** [s.split(/[class]+/)]: the pieces between maximal runs of separator
    code units.  [cur] is the piece being read, last unit first; [inRun]
    tells whether the previous unit was a separator. *)
Fixpoint splitRunsFrom (sep : Z -> bool) (s : jsstring) (cur : jsstring)
    (inRun : bool) : list jsstring :=
  match s with
  | [] => [List.rev cur]
  | c :: rest =>
      if sep c then
        if inRun then splitRunsFrom sep rest [] true
        else List.rev cur :: splitRunsFrom sep rest [] true
      else splitRunsFrom sep rest (c :: cur) false
  end.

Definition splitRuns (sep : Z -> bool) (s : jsstring) : list jsstring :=
  splitRunsFrom sep s [] false.

(** [s.split(/[class]/)]: every separator code unit ends a piece. *)
Fixpoint splitEachFrom (sep : Z -> bool) (s : jsstring) (cur : jsstring)
    : list jsstring :=
  match s with
  | [] => [List.rev cur]
  | c :: rest =>
      if sep c then List.rev cur :: splitEachFrom sep rest []
      else splitEachFrom sep rest (c :: cur)
  end.

Definition splitEach (sep : Z -> bool) (s : jsstring) : list jsstring :=
  splitEachFrom sep s [].

(** [.filter(Boolean)] on strings: the empty string is dropped. *)
Definition nonEmpty (s : jsstring) : bool :=
  match s with [] => false | _ => true end.

(** [trimmed.split(/\s+/).filter(Boolean)] *)
Definition splitWords (trimmed : jsstring) : list jsstring :=
  List.filter nonEmpty (splitRuns isWhiteSpace trimmed).

(** A code unit that is not white space. *)
Definition notSpace (c : Z) : bool := negb (isWhiteSpace c).

(** [s.charAt(i)]: the empty string outside [s]. *)
Definition charAt (s : jsstring) (i : nat) : jsstring :=
  match s !! i with
  | Some c => [c]
  | None => []
  end.

(** [a || b] on strings *)
Definition orElse (a b : jsstring) : jsstring :=
  match a with [] => b | _ => a end.

(* ------------------------------------------------------------------ *)
(** ** toUpperCase *)

(** The upper-case mapping of one code unit of the Latin-1 range. *)
Definition upperLatin1 (c : Z) : jsstring :=
  if (97 <=? c) && (c <=? 122) then [c - 32]
  else if c =? 181 then [924]
  else if c =? 223 then [83; 83]
  else if (224 <=? c) && (c <=? 254) && negb (c =? 247) then [c - 32]
  else if c =? 255 then [376]
  else [c].

Definition isLatin1 (s : jsstring) : bool :=
  forallb (fun c => (0 <=? c) && (c <=? 255)) s.

Section UpperCase.
(** [String.prototype.toUpperCase] on a string with a code unit above
    U+00FF; Unicode's table for those is not reproduced here. *)
Variable upperBeyondLatin1 : jsstring -> jsstring.

Definition toUpperCase (s : jsstring) : jsstring :=
  if isLatin1 s then List.concat (List.map upperLatin1 s)
  else upperBeyondLatin1 s.

(* ---------------------------------------------------------------- *)
(** ** getInitials *)

(** [None] stands for the [TypeError] of a method call on [undefined]. *)
Definition getInitials (value : jsstring) : option jsstring :=
  let trimmed := trim value in
  if negb (nonEmpty trimmed) then Some (js "TEN")
  else
    let words := splitWords trimmed in
    if Z.of_nat (List.length words) =? 1 then
      firstWord ← words !! 0%nat;
      let first := charAt firstWord 0 in
      let second := orElse (charAt firstWord 1) (charAt firstWord 0) in
      Some (toUpperCase (first ++ second))
    else
      w0 ← words !! 0%nat;
      w1 ← words !! 1%nat;
      Some (toUpperCase (charAt w0 0 ++ charAt w1 0)).
End UpperCase.

(* ------------------------------------------------------------------ *)
(** ** parseAccentWords, getPrimaryWords *)

(** [string | string[]] *)
Inductive Override :=
| Single (s : jsstring)
| Many (items : list jsstring).

(** [/[|,\n]+/] *)
Definition isWordSeparator (c : Z) : bool := (c =? 124) || (c =? 44) || (c =? 10).

(** [/[-–—]/]: hyphen-minus, en dash, em dash. *)
Definition isDash (c : Z) : bool := (c =? 45) || (c =? 8211) || (c =? 8212).

Definition parseAccentWords (override : option Override) : list jsstring :=
  match override with
  | None => []
  | Some (Single []) => []
  | Some (Single s) =>
      List.filter (fun item => 0 <? Z.of_nat (List.length item))
        (List.map trim (splitRuns isWordSeparator s))
  | Some (Many items) =>
      List.filter (fun item => 0 <? Z.of_nat (List.length item))
        (List.map trim items)
  end.

(** The two entries of the returned array; [None] is [undefined]. *)
Definition getPrimaryWords (value : jsstring) (override : option Override)
    : option jsstring * option jsstring :=
  let parsedOverride := parseAccentWords override in
  if 0 <? Z.of_nat (List.length parsedOverride) then
    let primary := parsedOverride !! 0%nat in
    let secondary := Some (default [] (parsedOverride !! 1%nat)) in
    (primary, secondary)
  else
    let trimmed := trim value in
    if negb (nonEmpty trimmed) then (Some (js "TEN"), Some (js "Blog"))
    else
      let words := splitWords trimmed in
      if Z.of_nat (List.length words) =? 1 then
        let single := words !! 0%nat in
        let parts := List.filter nonEmpty (splitEach isDash (default [] single)) in
        if 2 <=? Z.of_nat (List.length parts) then (parts !! 0%nat, parts !! 1%nat)
        else (single, Some [])
      else (words !! 0%nat, words !! 1%nat).

(* ------------------------------------------------------------------ *)
(** ** Sample inputs *)

(** A post that names no accent colour. *)
Definition untitled (t : string) : BlogFrontmatterMeta :=
  {| title := js t; accentColor := None |}.

(** Eleven posts of one title: every one starts from the same palette index. *)
Definition collidingPosts : list BlogFrontmatterMeta := repeat (untitled "a") 11.

(** A post whose [accentColor] is a colour name, not a hex colour. *)
Definition namedColorPost : BlogFrontmatterMeta :=
  {| title := js "a"; accentColor := Some (js "teal") |}.

(* ------------------------------------------------------------------ *)
(** ** Reading hex colours digit by digit *)

(** The value of a hex digit, 0 for any other code unit. *)
Definition hexVal (c : Z) : Z := default 0 (hexValue c).

(** The lower-case digit of the same value. *)
Definition lowerHexDigit (c : Z) : Z := digitChar (hexVal c).

(** The six-digit lower-case spelling of a hex colour: a three-digit colour
    has every digit doubled, upper-case digits are lowered. *)
Definition canonicalHex (hex : HexColor) : HexColor :=
  match hex with
  | [] => []
  | hash :: digits =>
      hash :: List.map lowerHexDigit
                (if Z.of_nat (List.length digits) =? 3
                 then List.concat (List.map (fun char => char :: [char]) digits)
                 else digits)
  end.

(** A channel value as [rgbToHex] prints it: rounded to the nearest integer
    (a tie going up) and clamped to [0, 255]. *)
Definition roundedByte (x : Q) : Z := clampByte (Qfloor (x + (1 # 2))).

(** A string that does not start with white space (the empty string too). *)
Definition cleanHead (s : jsstring) : Prop :=
  match s with
  | c :: _ => isWhiteSpace c = false
  | [] => True
  end.

(* ------------------------------------------------------------------ *)
(** ** Gradient angles of CoverArtwork and ModernPaintingBanner *)

(** [120 + ((hashString(title) % 40) - 20)] *)
Definition coverGradientTilt (title : jsstring) : Z :=
  120 + (Z.rem (hashString title) 40 - 20).

(** [45 + ((hashString(`${title}-sweep`) % 35) - 17)] *)
Definition coverSoftSweep (title : jsstring) : Z :=
  45 + (Z.rem (hashString (title ++ js "-sweep")) 35 - 17).

(** [115 + ((hashString(`${accentColor}-banner`) % 42) - 21)] *)
Definition bannerGradientTilt (accentColor : HexColor) : Z :=
  115 + (Z.rem (hashString (accentColor ++ js "-banner")) 42 - 21).

(** [38 + ((hashString(`${accentColor}-sweep`) % 28) - 14)] *)
Definition bannerSweepTilt (accentColor : HexColor) : Z :=
  38 + (Z.rem (hashString (accentColor ++ js "-sweep")) 28 - 14).

(* ------------------------------------------------------------------ *)
(** ** Colours the components derive from the accent colour *)

(** The weights are the decimal literals of the source: [binary64 (35 # 100)]
    is the number the literal [0.35] denotes. *)
Module CoverArtwork.
Definition highlight (accentColor : HexColor) : HexColor :=
  mixHexColors accentColor (js "#ffffff") (binary64 (35 # 100)).
Definition glow (accentColor : HexColor) : HexColor :=
  mixHexColors accentColor (js "#ffffff") (binary64 (55 # 100)).
Definition deep (accentColor : HexColor) : HexColor :=
  mixHexColors accentColor (js "#000000") (binary64 (30 # 100)).
Definition ambient (accentColor : HexColor) : HexColor :=
  mixHexColors accentColor (js "#f8fafc") (binary64 (60 # 100)).
Definition lowlight (accentColor : HexColor) : HexColor :=
  mixHexColors accentColor (js "#0f172a") (binary64 (35 # 100)).
End CoverArtwork.

Module AuthorBadge.
Definition badgeStart (accentColor : HexColor) : HexColor :=
  mixHexColors accentColor (js "#ffffff") (binary64 (25 # 100)).
Definition badgeEnd (accentColor : HexColor) : HexColor :=
  mixHexColors accentColor (js "#000000") (binary64 (30 # 100)).
Definition textColor (accentColor : HexColor) : HexColor :=
  getReadableTextColor (badgeEnd accentColor).
End AuthorBadge.

Module ModernPaintingBanner.
Definition highlight (accentColor : HexColor) : HexColor :=
  mixHexColors accentColor (js "#ffffff") (binary64 (35 # 100)).
Definition glow (accentColor : HexColor) : HexColor :=
  mixHexColors accentColor (js "#ffffff") (binary64 (58 # 100)).
Definition deep (accentColor : HexColor) : HexColor :=
  mixHexColors accentColor (js "#000000") (binary64 (32 # 100)).
Definition ambient (accentColor : HexColor) : HexColor :=
  mixHexColors accentColor (js "#f8fafc") (binary64 (66 # 100)).
Definition lowlight (accentColor : HexColor) : HexColor :=
  mixHexColors accentColor (js "#0f172a") (binary64 (38 # 100)).
Definition backgroundColor (accentColor : HexColor) : HexColor :=
  mixHexColors accentColor (js "#0f172a") (binary64 (12 # 100)).
End ModernPaintingBanner.

(** The mixes the components ask for: the weight, as the literal on primitive
    floats and as the fraction it is written for, and the channels of the
    colour mixed in ([#ffffff], [#000000], [#f8fafc], [#0f172a]). *)
#[warnings="-inexact-float"]
Definition componentMixes : list (float * Q * list Z) :=
  [ (0.35%float, 35 # 100, [255]); (0.55%float, 55 # 100, [255]);
    (0.3%float, 30 # 100, [0]); (0.6%float, 60 # 100, [248; 250; 252]);
    (0.35%float, 35 # 100, [15; 23; 42]);
    (0.25%float, 25 # 100, [255]);
    (0.58%float, 58 # 100, [255]); (0.32%float, 32 # 100, [0]);
    (0.66%float, 66 # 100, [248; 250; 252]); (0.38%float, 38 # 100, [15; 23; 42]);
    (0.12%float, 12 # 100, [15; 23; 42]) ].

(** Whether the channel of the model, for two bytes and a ratio, is the
    value the primitive floats give for the bytes and a weight. *)
Definition channelAgrees (weight : float) (ratio : Q) (base mix : Z) : bool :=
  match floatValue (mixChannelFloat (of_uint63 (Uint63.of_Z base))
                                    (of_uint63 (Uint63.of_Z mix)) weight) with
  | Some q => Qeq_bool q (mixChannel (inject_Z base) (inject_Z mix) ratio)
  | None => false
  end.

(** [a] is no lighter than [b] in any channel. *)
Definition channelsLe (a b : HexColor) : Prop :=
  exists r1 g1 b1 r2 g2 b2 : Z,
    hexToRgb a = Some (mkRGB (inject_Z r1) (inject_Z g1) (inject_Z b1))
    /\ hexToRgb b = Some (mkRGB (inject_Z r2) (inject_Z g2) (inject_Z b2))
    /\ r1 <= r2 /\ g1 <= g2 /\ b1 <= b2.

(* ------------------------------------------------------------------ *)
(** ** The listing page: featured post, standard posts, render order *)

(** A page of the blog collection: its front matter, and the [featured]
    field of the front matter, kept beside the fields the picker reads. *)
Record Page := {
  data : BlogFrontmatterMeta;
  featured : option bool
}.

(** [p.data.featured === true] *)
Definition isFeatured (p : Page) : bool :=
  match featured p with
  | Some true => true
  | _ => false
  end.

(** Where [sortedPosts.find(...) ?? sortedPosts[0]] finds the featured post.
    The pages of the collection are distinct objects, so a post is known by
    its position in [sortedPosts]. *)
Definition featuredIndex (sortedPosts : list Page) : option nat :=
  match list_find (fun p => isFeatured p = true) sortedPosts with
  | Some (i, _) => Some i
  | None =>
      match sortedPosts with
      | [] => None
      | _ :: _ => Some 0%nat
      end
  end.

Definition featuredPost (sortedPosts : list Page) : option Page :=
  i ← featuredIndex sortedPosts; sortedPosts !! i.

(** [sortedPosts.filter((p) => p !== featuredPost)] *)
Definition standardPosts (sortedPosts : list Page) : list Page :=
  match featuredIndex sortedPosts with
  | Some i => delete i sortedPosts
  | None => sortedPosts
  end.

(** The posts in the order the page renders them (the featured card, then
    the grid), and the accent colours [pickAccentColor] gives them on the
    set the page starts empty. *)
Definition renderOrder (sortedPosts : list Page) : list Page :=
  option_list (featuredPost sortedPosts) ++ standardPosts sortedPosts.

Definition pageAccents (sortedPosts : list Page) : list (option HexColor) :=
  (renderAccents (List.map data (renderOrder sortedPosts)) ∅).1.

(* ================================================================== *)
(** * Properties *)

(** ** 32-bit wrap-around *)

Lemma toInt32_range (x : Z) : - 2 ^ 31 <= toInt32 x < 2 ^ 31.
Proof.
  unfold toInt32.
  pose proof (Z.mod_pos_bound (x + 2 ^ 31) (2 ^ 32) ltac:(lia)). lia.
Qed.

Lemma toInt32_small (x : Z) : - 2 ^ 31 <= x < 2 ^ 31 -> toInt32 x = x.
Proof.
  intros Hx. unfold toInt32. rewrite Z.mod_small; lia.
Qed.

Lemma toInt32_congr (x y : Z) :
  x mod 2 ^ 32 = y mod 2 ^ 32 -> toInt32 x = toInt32 y.
Proof.
  intros Hxy. unfold toInt32.
  rewrite (Z.add_mod x), (Z.add_mod y), Hxy by lia. reflexivity.
Qed.

Lemma toInt32_mod (x : Z) : toInt32 x mod 2 ^ 32 = x mod 2 ^ 32.
Proof.
  unfold toInt32.
  rewrite Zminus_mod, Z.mod_mod, <- Zminus_mod by lia.
  f_equal. lia.
Qed.

(** The loop body of [hashString] is [hash*31 + code], wrapped. *)
Lemma hashStep_wrap (hash c : Z) : hashStep hash c = toInt32 (hash * 31 + c).
Proof.
  unfold hashStep, or32, shl32.
  change (toInt32 0) with 0. rewrite Z.lor_0_r.
  change (Z.land 5 31) with 5. rewrite Z.shiftl_mul_pow2 by lia.
  apply toInt32_congr.
  rewrite Z.add_mod, Zminus_mod, toInt32_mod by lia.
  rewrite (Z.mul_mod (toInt32 hash)), toInt32_mod, <- Z.mul_mod by lia.
  rewrite <- Zminus_mod, <- Z.add_mod by lia.
  f_equal. lia.
Qed.

Lemma hashFold_agree (s : jsstring) (h : Z) :
  fold_left hashStep s h = fold_left (fun hash c => toInt32 (hash * 31 + c)) s h.
Proof.
  revert h. induction s as [|c s IH]; intros h; simpl.
  - reflexivity.
  - rewrite hashStep_wrap. apply IH.
Qed.

Lemma hashString_nonneg (s : jsstring) : 0 <= hashString s.
Proof. unfold hashString. apply Z.abs_nonneg. Qed.

Lemma hashFoldSpec_range (s : jsstring) : - 2 ^ 31 <= hashFoldSpec s < 2 ^ 31.
Proof.
  unfold hashFoldSpec.
  induction s as [|c front _] using rev_ind.
  - simpl. lia.
  - rewrite fold_left_app. simpl. apply toInt32_range.
Qed.

Lemma codePoints_units (s : jsstring) :
  Forall (fun c => isHighSurrogate c = false) s -> codePoints s = s.
Proof.
  induction 1 as [|c rest Hc Hrest IH]; [reflexivity|].
  destruct rest as [|lo rest']; [reflexivity|].
  cbn [codePoints]. rewrite Hc. cbn [andb]. f_equal. exact IH.
Qed.

(** C2. [hashString s] is the absolute value of the fold
    [hash := hash*31 + code] over the UTF-16 code units of [s], in the order
    of the string, started at 0 and wrapped to a signed 32-bit integer after
    every step; it is an integer from 0 to 2^31.  On a string without a
    high surrogate the code units are the code points, and the hash is the
    fold over the code points as well. *)
Theorem hashString_code_units :
  forall s : jsstring,
    hashString s = Z.abs (hashFoldSpec s)
    /\ 0 <= hashString s <= 2 ^ 31
    /\ (Forall (fun c => isHighSurrogate c = false) s ->
        hashString s = Z.abs (hashCodePointSpec s)).
Proof.
  intros s.
  assert (Hfold : hashString s = Z.abs (hashFoldSpec s)).
  { unfold hashString, hashFoldSpec. now rewrite hashFold_agree. }
  split; [exact Hfold|]. split.
  - rewrite Hfold. pose proof (hashFoldSpec_range s). lia.
  - intros Hunits. rewrite Hfold. unfold hashCodePointSpec, hashFoldSpec.
    now rewrite codePoints_units.
Qed.

(** The title U+1F600, one character of two code units: the code hashes the
    two surrogates, the fold over its one code point gives another number. *)
Lemma hashString_not_code_points :
  codePoints [55357; 56832] = [128512]
  /\ hashString [55357; 56832] = 1772899
  /\ Z.abs (hashCodePointSpec [55357; 56832]) = 128512
  /\ hashString [55357; 56832] <> Z.abs (hashCodePointSpec [55357; 56832]).
Proof.
  repeat split; try (vm_compute; reflexivity).
  vm_compute. discriminate.
Qed.

(** ** The hex colour pattern *)

Lemma isHexDigit_spec (c : Z) : isHexDigit c = true <-> hexDigitSpec c.
Proof.
  unfold isHexDigit, hexDigitSpec.
  rewrite !orb_true_iff, !andb_true_iff, !Z.leb_le. tauto.
Qed.

Lemma hexTriple_Some (s rest : jsstring) :
  hexTriple s = Some rest <->
  exists a b c, s = a :: b :: c :: rest
                /\ hexDigitSpec a /\ hexDigitSpec b /\ hexDigitSpec c.
Proof.
  split.
  - destruct s as [|a [|b [|c s]]]; simpl; try discriminate.
    destruct (isHexDigit a) eqn:Ha, (isHexDigit b) eqn:Hb, (isHexDigit c) eqn:Hc;
      simpl; try discriminate.
    intros [= ->]. exists a, b, c. rewrite <- !isHexDigit_spec. auto.
  - intros (a & b & c & -> & Ha & Hb & Hc).
    apply isHexDigit_spec in Ha, Hb, Hc. simpl. now rewrite Ha, Hb, Hc.
Qed.

(** The regular expression of the source accepts exactly the strings of the
    pattern. *)
Lemma hexColorRegex_test_spec (s : jsstring) :
  hexColorRegex_test s = true <-> matchesHexPattern s.
Proof.
  unfold matchesHexPattern. split.
  - destruct s as [|c0 body]; simpl; try discriminate.
    destruct (Z.eqb_spec c0 35) as [->|]; try discriminate.
    destruct (hexTriple body) as [rest|] eqn:H1; try discriminate.
    apply hexTriple_Some in H1 as (a & b & c & -> & Ha & Hb & Hc).
    destruct rest as [|d rest].
    + intros _. exists [a; b; c]. repeat split; auto.
    + destruct (hexTriple (d :: rest)) as [[|]|] eqn:H2; try discriminate.
      apply hexTriple_Some in H2 as (d' & e & f & [= -> ->] & Hd & He & Hf).
      intros _. exists [a; b; c; d'; e; f]. repeat split; auto 10.
  - intros (digits & -> & Hlen & Hall). simpl.
    destruct Hlen as [Hlen|Hlen];
      repeat (destruct digits as [|? digits]; try discriminate Hlen);
      repeat match goal with
             | H : Forall _ (_ :: _) |- _ => apply Forall_cons_iff in H as [?%isHexDigit_spec H]
             end;
      simpl; repeat match goal with H : isHexDigit _ = true |- _ => rewrite H; clear H; simpl end;
      reflexivity.
Qed.

Lemma hexColorRegex_test_false (s : jsstring) :
  hexColorRegex_test s = false <-> ~ matchesHexPattern s.
Proof.
  rewrite <- hexColorRegex_test_spec. destruct (hexColorRegex_test s); split; intros; congruence.
Qed.

(** ** getAccentColor *)

Lemma paletteSize_eq : paletteSize = 10.
Proof. reflexivity. Qed.

Lemma arrayGet_palette (i : Z) :
  0 <= i < paletteSize ->
  exists c, arrayGet accentPalette i = Some c
            /\ accentPalette !! Z.to_nat i = Some c /\ c ∈ accentPalette.
Proof.
  intros Hi. unfold arrayGet.
  destruct (Z.ltb_spec i 0) as [|_]; [lia|].
  destruct (accentPalette !! Z.to_nat i) as [c|] eqn:Hc.
  - exists c. repeat split. eapply list_elem_of_lookup_2, Hc.
  - apply lookup_ge_None in Hc. rewrite paletteSize_eq in Hi.
    change (List.length accentPalette) with 10%nat in Hc. lia.
Qed.

(** On a non-negative position JavaScript's remainders are the mathematical
    ones. *)
Lemma paletteIndex_mod (key : jsstring) (position : Z) :
  0 <= position ->
  Z.rem (Z.rem (hashString key) paletteSize + position) paletteSize
  = (hashString key mod paletteSize + position) mod paletteSize.
Proof.
  intros Hpos. pose proof (hashString_nonneg key) as Hh.
  rewrite paletteSize_eq.
  rewrite (Z.rem_mod_nonneg (hashString key)) by lia.
  pose proof (Z.mod_pos_bound (hashString key) 10 ltac:(lia)).
  rewrite Z.rem_mod_nonneg by lia. reflexivity.
Qed.

Lemma getAccentColor_fallback (preferred : option jsstring) (key : jsstring)
    (position : Z) :
  truthy preferred && hexColorRegex_test (default [] preferred) = false ->
  0 <= position ->
  exists c,
    getAccentColor preferred key position = Some c
    /\ accentPalette !! Z.to_nat ((hashString key mod paletteSize + position) mod paletteSize)
       = Some c
    /\ c ∈ accentPalette.
Proof.
  intros Hpref Hpos. unfold getAccentColor. rewrite Hpref.
  cbv zeta. rewrite paletteIndex_mod by assumption.
  apply arrayGet_palette, Z.mod_pos_bound. now rewrite paletteSize_eq.
Qed.

(** C1. With [position >= 0]: a [preferred] string that matches the hex
    pattern is returned as it is, whatever [key] and [position]; any other
    [preferred] (or none) gives the palette entry at index
    [(hashString key mod paletteSize + position) mod paletteSize], one of the
    ten colours of the palette. *)
Theorem getAccentColor_spec :
  forall (preferred key : jsstring) (position : Z),
    0 <= position ->
    List.length accentPalette = 10%nat
    /\ (matchesHexPattern preferred ->
        getAccentColor (Some preferred) key position = Some preferred)
    /\ (~ matchesHexPattern preferred ->
        exists c,
          getAccentColor (Some preferred) key position = Some c
          /\ accentPalette
               !! Z.to_nat ((hashString key mod paletteSize + position) mod paletteSize)
             = Some c
          /\ c ∈ accentPalette)
    /\ (exists c,
          getAccentColor None key position = Some c
          /\ accentPalette
               !! Z.to_nat ((hashString key mod paletteSize + position) mod paletteSize)
             = Some c
          /\ c ∈ accentPalette).
Proof.
  intros preferred key position Hpos. split; [reflexivity|]. split; [|split].
  - intros Hm%hexColorRegex_test_spec. unfold getAccentColor.
    destruct preferred as [|c0 p]; [discriminate Hm|].
    cbn [truthy from_option andb Datatypes.id]. now rewrite Hm.
  - intros Hm%hexColorRegex_test_false.
    apply getAccentColor_fallback; [|assumption].
    cbn [from_option Datatypes.id]. rewrite Hm. apply andb_false_r.
  - now apply getAccentColor_fallback.
Qed.

(** [getAccentColor "#ABC" "post" 4] and [getAccentColor "teal" "post" 4]. *)
Lemma getAccentColor_spec_witness :
  getAccentColor (Some (js "#ABC")) (js "post") 4 = Some (js "#ABC")
  /\ getAccentColor (Some (js "teal")) (js "post") 4 = Some (js "#14b8a6").
Proof.
  destruct (getAccentColor_spec (js "#ABC") (js "post") 4 ltac:(lia))
    as (_ & Hhex & _ & _).
  destruct (getAccentColor_spec (js "teal") (js "post") 4 ltac:(lia))
    as (_ & _ & Hother & _).
  split.
  - apply Hhex. exists (js "ABC"). repeat split; [now left|].
    repeat constructor; unfold hexDigitSpec; simpl; lia.
  - destruct Hother as (c & -> & Hc & _).
    + intros (digits & [= <-] & [Hl|Hl] & _); discriminate Hl.
    + vm_compute in Hc. now inversion Hc.
Defined.

(** ** pickAccentColor *)

Lemma probeGuard_offset used offset accent :
  probeGuard used offset accent = true -> offset < paletteSize - 1.
Proof.
  unfold probeGuard. now intros [_ Hlt%Z.ltb_lt]%andb_prop.
Qed.

(** What the loop leaves behind: an offset no larger than
    [paletteSize - 1], a false loop condition, and either the state it was
    entered with or the colour derived for the final offset. *)
Lemma probe_exit used key offset accent :
  offset <= paletteSize - 1 ->
  offset <= (probe used key offset accent).1 <= paletteSize - 1
  /\ probeGuard used (probe used key offset accent).1 (probe used key offset accent).2 = false
  /\ (probe used key offset accent = (offset, accent)
      \/ (probe used key offset accent).2
         = getAccentColor None key (probe used key offset accent).1).
Proof.
  funelim (probe used key offset accent); intros Hle.
  - clear H0 Heqcall.
    apply probeGuard_offset in Hguard.
    destruct H as (Hr & Hg & Hs); [lia|].
    split; [lia|]. split; [assumption|]. right.
    destruct Hs as [Hs|Hs]; [now rewrite Hs|assumption].
  - simpl. split; [lia|]. split; [assumption|]. now left.
Qed.

Lemma probeTurns_step used key offset accent :
  probeTurns used key offset accent
  = if probeGuard used offset accent
    then S (probeTurns used key (offset + 1) (getAccentColor None key (offset + 1)))
    else O.
Proof.
  funelim (probeTurns used key offset accent).
  - now rewrite Hguard.
  - now rewrite Hexit.
Qed.

(** The final offset is the entry offset plus the number of turns. *)
Lemma probe_turns used key offset accent :
  (probe used key offset accent).1
  = offset + Z.of_nat (probeTurns used key offset accent).
Proof.
  funelim (probe used key offset accent);
    rewrite (probeTurns_step used key offset accent).
  - rewrite Hguard, H. lia.
  - rewrite Hexit. simpl. lia.
Qed.

Lemma getAccentColor_falsy preferred key position :
  truthy preferred = false ->
  getAccentColor preferred key position = getAccentColor None key position.
Proof.
  intros Hf. unfold getAccentColor. now rewrite Hf.
Qed.

Lemma getAccentColor_None_palette key position :
  0 <= position ->
  exists c, getAccentColor None key position = Some c /\ c ∈ accentPalette.
Proof.
  intros Hpos.
  destruct (getAccentColor_fallback None key position eq_refl Hpos) as (c & Hc & _ & Hin).
  eauto.
Qed.

(** A post without an explicit colour: the loop, entered at offset 0, takes
    at most [paletteSize - 1] turns and leaves with the offset equal to their
    number; the picker returns the palette colour derived for that offset and
    adds it to the set.  The colour can be one already used only after the
    full [paletteSize - 1] turns. *)
Lemma pickAccentColor_probing (frontmatter : BlogFrontmatterMeta) (used : UsedColors) :
  truthy (accentColor frontmatter) = false ->
  exists (turns : nat) (c : HexColor),
    turns = probeTurns used (title frontmatter) 0
              (getAccentColor None (title frontmatter) 0)
    /\ probe used (title frontmatter) 0 (getAccentColor None (title frontmatter) 0)
       = (Z.of_nat turns, Some c)
    /\ Z.of_nat turns <= paletteSize - 1
    /\ getAccentColor None (title frontmatter) (Z.of_nat turns) = Some c
    /\ c ∈ accentPalette
    /\ (Some c ∈ used -> Z.of_nat turns = paletteSize - 1)
    /\ pickAccentColor frontmatter used = (Some c, {[ Some c ]} ∪ used).
Proof.
  intros Hf. set (key := title frontmatter).
  set (a0 := getAccentColor None key 0).
  pose proof (probe_exit used key 0 a0 ltac:(rewrite paletteSize_eq; lia)) as (Hr & Hg & Hs).
  pose proof (probe_turns used key 0 a0) as Ht. rewrite Z.add_0_l in Ht.
  assert (Ha : (probe used key 0 a0).2 = getAccentColor None key (probe used key 0 a0).1).
  { destruct Hs as [Hs|Hs]; [now rewrite Hs|assumption]. }
  destruct (getAccentColor_None_palette key (probe used key 0 a0).1 ltac:(lia))
    as (c & Hc & Hin).
  exists (probeTurns used key 0 a0), c. rewrite <- Ht.
  split; [reflexivity|].
  split; [rewrite <- Hc, <- Ha; now destruct (probe used key 0 a0)|].
  split; [lia|]. split; [assumption|]. split; [assumption|].
  split.
  - intros Hused. unfold probeGuard in Hg. rewrite Ha, Hc in Hg.
    rewrite bool_decide_eq_true_2 in Hg by assumption.
    apply Z.ltb_ge in Hg. lia.
  - unfold pickAccentColor. rewrite Hf, getAccentColor_falsy by assumption.
    fold key a0. destruct (probe used key 0 a0) as [o a] eqn:Hp.
    simpl in Ha, Hc. now rewrite Ha, Hc.
Qed.

(** Every post without an explicit colour is given a palette colour, however
    many came before it. *)
Lemma renderAccents_palette (posts : list BlogFrontmatterMeta) (used : UsedColors) :
  Forall (fun p => truthy (accentColor p) = false) posts ->
  List.length (renderAccents posts used).1 = List.length posts
  /\ Forall (fun a => exists c, a = Some c /\ c ∈ accentPalette)
       (renderAccents posts used).1.
Proof.
  revert used. induction posts as [|p posts IH]; intros used Hall; simpl.
  - split; [reflexivity|constructor].
  - apply Forall_cons_iff in Hall as [Hp Hall].
    destruct (pickAccentColor_probing p used Hp) as (turns & c & _ & _ & _ & _ & Hin & _ & ->).
    specialize (IH ({[ Some c ]} ∪ used) Hall).
    destruct (renderAccents posts ({[ Some c ]} ∪ used)) as [cs used'].
    simpl in *. destruct IH as [Hlen Hcs].
    split; [now rewrite Hlen|]. constructor; eauto.
Qed.

(** C3. For a post without an explicit accent colour the probing loop of
    [pickAccentColor], entered at offset 0, ends after at most
    [paletteSize - 1] turns (its final offset is their number), and the picker
    returns a palette colour, which it adds to the used set; that colour is
    one already used only when the loop ran all [paletteSize - 1] turns.  So
    after any ten such posts an eleventh is still given a palette colour;
    with eleven posts of one title the eleventh repeats the colour of the
    tenth. *)
Theorem pickAccentColor_probe_terminates :
  forall (frontmatter : BlogFrontmatterMeta) (used : UsedColors),
    truthy (accentColor frontmatter) = false ->
    (exists (turns : nat) (c : HexColor),
        turns = probeTurns used (title frontmatter) 0
                  (getAccentColor None (title frontmatter) 0)
        /\ probe used (title frontmatter) 0 (getAccentColor None (title frontmatter) 0)
           = (Z.of_nat turns, Some c)
        /\ Z.of_nat turns <= paletteSize - 1
        /\ c ∈ accentPalette
        /\ (Some c ∈ used -> Z.of_nat turns = paletteSize - 1)
        /\ pickAccentColor frontmatter used = (Some c, {[ Some c ]} ∪ used))
    /\ (forall earlier : list BlogFrontmatterMeta,
          List.length earlier = 10%nat ->
          Forall (fun p => truthy (accentColor p) = false) earlier ->
          List.length accentPalette = 10%nat
          /\ Forall (fun a => exists c, a = Some c /\ c ∈ accentPalette)
               (renderAccents earlier used).1
          /\ exists c,
               (pickAccentColor frontmatter (renderAccents earlier used).2).1 = Some c
               /\ c ∈ accentPalette)
    /\ List.length collidingPosts = 11%nat
    /\ (renderAccents collidingPosts ∅).1 !! 10%nat = Some (Some (js "#c084fc"))
    /\ (renderAccents collidingPosts ∅).1 !! 9%nat = Some (Some (js "#c084fc")).
Proof.
  intros frontmatter used Hf. split; [|split].
  - destruct (pickAccentColor_probing frontmatter used Hf)
      as (turns & c & Ht & Hprobe & Hle & _ & Hin & Hdup & Hpick).
    exists turns, c. auto 10.
  - intros earlier _ Hall. split; [reflexivity|]. split.
    + apply renderAccents_palette, Hall.
    + destruct (pickAccentColor_probing frontmatter (renderAccents earlier used).2 Hf)
        as (turns & c & _ & _ & _ & _ & Hin & _ & Hpick).
      exists c. now rewrite Hpick.
  - split; [reflexivity|]. split; vm_compute; reflexivity.
Qed.

(** The eleventh of eleven posts titled "a", after the first ten. *)
Lemma pickAccentColor_probe_terminates_witness :
  truthy (accentColor (untitled "a")) = false
  /\ exists c,
       (pickAccentColor (untitled "a")
          (renderAccents (repeat (untitled "a") 10) ∅).2).1 = Some c
       /\ c ∈ accentPalette.
Proof.
  split; [reflexivity|].
  destruct (pickAccentColor_probe_terminates (untitled "a") ∅ eq_refl)
    as (_ & Heleventh & _).
  destruct (Heleventh (repeat (untitled "a") 10) eq_refl) as (_ & _ & Hc).
  - repeat constructor.
  - exact Hc.
Defined.

(** C10. A post whose [accentColor] is present and non-empty but not a hex
    colour skips the probing loop: whatever the used set holds, the picker
    returns the palette colour derived for offset 0 and adds it to the set. *)
Theorem pickAccentColor_invalid_explicit :
  forall (frontmatter : BlogFrontmatterMeta) (used : UsedColors) (preferred : jsstring),
    accentColor frontmatter = Some preferred ->
    preferred <> [] ->
    ~ matchesHexPattern preferred ->
    exists c : HexColor,
      accentPalette !! Z.to_nat (hashString (title frontmatter) mod paletteSize) = Some c
      /\ getAccentColor None (title frontmatter) 0 = Some c
      /\ pickAccentColor frontmatter used = (Some c, {[ Some c ]} ∪ used).
Proof.
  intros frontmatter used preferred Hacc Hne Hpat.
  apply hexColorRegex_test_false in Hpat.
  assert (Htruthy : truthy (accentColor frontmatter) = true).
  { rewrite Hacc. destruct preferred; [congruence|reflexivity]. }
  assert (Hoff : truthy (Some preferred) && hexColorRegex_test (default [] (Some preferred)) = false).
  { cbn [from_option Datatypes.id]. rewrite Hpat. apply andb_false_r. }
  destruct (getAccentColor_fallback _ (title frontmatter) 0 Hoff ltac:(lia))
    as (c & Hc & Hidx & _).
  destruct (getAccentColor_fallback None (title frontmatter) 0 eq_refl ltac:(lia))
    as (c' & Hc' & Hidx' & _).
  rewrite Z.add_0_r, Z.mod_mod in Hidx, Hidx' by (rewrite paletteSize_eq; lia).
  assert (c' = c) as -> by congruence.
  exists c. split; [assumption|]. split; [assumption|].
  unfold pickAccentColor. now rewrite Htruthy, Hacc, Hc.
Qed.

(** "teal" on a post titled "a", when the colour of offset 0 is already
    taken: it is returned all the same, where a post without [accentColor]
    moves on to the next palette entry. *)
Lemma pickAccentColor_invalid_explicit_witness :
  (pickAccentColor namedColorPost {[ Some (js "#fb7185") ]}).1 = Some (js "#fb7185")
  /\ (pickAccentColor (untitled "a") {[ Some (js "#fb7185") ]}).1 = Some (js "#14b8a6").
Proof.
  split; [|vm_compute; reflexivity].
  destruct (pickAccentColor_invalid_explicit namedColorPost {[ Some (js "#fb7185") ]}
              (js "teal") eq_refl) as (c & Hidx & _ & ->).
  - discriminate.
  - intros (digits & [= <-] & [Hl|Hl] & _); discriminate Hl.
  - vm_compute in Hidx. now inversion Hidx.
Defined.

(** ** Hex formatting and parsing *)

(** The two digits [componentToHex] prints for a byte: checked on each of
    the 256 values. *)
Lemma componentToHex_byte (v : Z) :
  0 <= v <= 255 ->
  componentToHex (inject_Z v) = [digitChar (v / 16); digitChar (v mod 16)].
Proof.
  intros Hv.
  assert (Htable :
    forallb
      (fun n =>
         bool_decide (componentToHex (inject_Z (Z.of_nat n))
                      = [digitChar (Z.of_nat n / 16); digitChar (Z.of_nat n mod 16)]))
      (seq 0 256) = true) by (vm_compute; reflexivity).
  rewrite forallb_forall in Htable.
  pose proof (Htable (Z.to_nat v) ltac:(apply in_seq; lia)) as Hrow.
  apply bool_decide_eq_true in Hrow.
  now rewrite Z2Nat.id in Hrow by lia.
Qed.

Lemma digitChar_hex (d : Z) :
  0 <= d < 16 -> isHexDigit (digitChar d) = true /\ hexValue (digitChar d) = Some d.
Proof.
  intros Hd. unfold isHexDigit, hexValue, digitChar.
  destruct (Z.ltb_spec d 10).
  - replace ((48 <=? 48 + d) && (48 + d <=? 57)) with true by (symmetry; apply andb_true_iff; lia).
    split; [reflexivity|]. f_equal. lia.
  - replace ((48 <=? 87 + d) && (87 + d <=? 57)) with false by (symmetry; apply andb_false_iff; lia).
    replace ((97 <=? 87 + d) && (87 + d <=? 102)) with true by (symmetry; apply andb_true_iff; lia).
    split; [reflexivity|]. f_equal. lia.
Qed.

Lemma isHexDigit_not_space (c : Z) : isHexDigit c = true -> isWhiteSpace c = false.
Proof.
  intros Hc%isHexDigit_spec. unfold hexDigitSpec in Hc. unfold isWhiteSpace.
  repeat (apply orb_false_iff; split); try (apply andb_false_iff); lia.
Qed.

Lemma hexPrefix_digits (ds : list Z) (acc : Z) (seen : bool) :
  Forall (fun d => 0 <= d < 16) ds ->
  hexPrefix (List.map digitChar ds) acc seen
  = if seen || nonEmpty ds
    then Some (fold_left (fun a d => a * 16 + d) ds acc) else None.
Proof.
  intros Hds. revert acc seen.
  induction Hds as [|d ds Hd _ IH]; intros acc seen; simpl.
  - now rewrite orb_false_r.
  - destruct (digitChar_hex d Hd) as [_ ->]. rewrite IH. simpl.
    now rewrite orb_true_r.
Qed.

(** [parseInt] on a non-empty string of digits [digitChar] printed reads the
    number they spell. *)
Lemma parseInt16_digits (ds : list Z) :
  Forall (fun d => 0 <= d < 16) ds -> ds <> [] ->
  parseInt16 (List.map digitChar ds) = Some (fold_left (fun a d => a * 16 + d) ds 0).
Proof.
  intros Hds Hne. unfold parseInt16.
  destruct ds as [|d0 ds]; [congruence|]. clear Hne.
  apply Forall_cons_iff in Hds as [Hd0 Hds].
  destruct (digitChar_hex d0 Hd0) as [Hh0 _].
  pose proof (isHexDigit_not_space _ Hh0) as Hs0.
  apply isHexDigit_spec in Hh0. unfold hexDigitSpec in Hh0.
  cbn [List.map dropWhile]. rewrite Hs0.
  replace (digitChar d0 =? 45) with false by (symmetry; apply Z.eqb_neq; lia).
  replace (digitChar d0 =? 43) with false by (symmetry; apply Z.eqb_neq; lia).
  cbn [orb].
  assert (Hrest :
    match digitChar d0 :: List.map digitChar ds with
    | c0 :: c1 :: rest =>
        if (c0 =? 48) && ((c1 =? 120) || (c1 =? 88)) then rest
        else digitChar d0 :: List.map digitChar ds
    | _ => digitChar d0 :: List.map digitChar ds
    end = List.map digitChar (d0 :: ds)).
  { destruct ds as [|d1 ds']; [reflexivity|].
    apply Forall_cons_iff in Hds as [Hd1 _].
    destruct (digitChar_hex d1 Hd1) as [Hh1%isHexDigit_spec _].
    unfold hexDigitSpec in Hh1. cbn [List.map].
    replace (digitChar d1 =? 120) with false by (symmetry; apply Z.eqb_neq; lia).
    replace (digitChar d1 =? 88) with false by (symmetry; apply Z.eqb_neq; lia).
    now rewrite andb_false_r. }
  rewrite Hrest, hexPrefix_digits by (constructor; assumption).
  simpl. f_equal. now destruct (fold_left _ ds _).
Qed.

Lemma nibbles_range (v : Z) : 0 <= v <= 255 -> 0 <= v / 16 < 16 /\ 0 <= v mod 16 < 16.
Proof.
  intros Hv. split.
  - split; [apply Z.div_pos; lia|apply Z.div_lt_upper_bound; lia].
  - apply Z.mod_pos_bound. lia.
Qed.

(** [(v >> k) & 255] on a non-negative 32-bit integer. *)
Lemma byte_of_int (v k : Z) :
  0 <= v < 2 ^ 31 -> 0 <= k -> Z.land k 31 = k ->
  and32 (sar32 v k) 255 = (v / 2 ^ k) mod 256.
Proof.
  intros Hv Hk Hmask. unfold and32, sar32.
  rewrite Hmask, (toInt32_small v) by lia.
  rewrite Z.shiftr_div_pow2 by assumption.
  assert (Hpow : 0 < 2 ^ k) by (apply Z.pow_pos_nonneg; lia).
  assert (Hlo : 0 <= v / 2 ^ k) by (apply Z.div_pos; lia).
  assert (Hhi : v / 2 ^ k <= v) by (apply Z.div_le_upper_bound; [lia|nia]).
  rewrite toInt32_small by lia.
  change (toInt32 255) with (Z.ones 8).
  now rewrite Z.land_ones by lia.
Qed.

(** C5. For integer channels in [0, 255], parsing the six-digit lower-case
    hex string [rgbToHex] prints gives the same triple back. *)
Theorem hexToRgb_rgbToHex :
  forall r8 g8 b8 : Z,
    0 <= r8 <= 255 -> 0 <= g8 <= 255 -> 0 <= b8 <= 255 ->
    hexToRgb (rgbToHex (mkRGB (inject_Z r8) (inject_Z g8) (inject_Z b8)))
    = Some (mkRGB (inject_Z r8) (inject_Z g8) (inject_Z b8)).
Proof.
  intros r8 g8 b8 Hr Hg Hb.
  unfold rgbToHex. cbn [r g b].
  rewrite !componentToHex_byte by assumption.
  set (ds := [r8 / 16; r8 mod 16; g8 / 16; g8 mod 16; b8 / 16; b8 mod 16]).
  change (35 :: _) with (35 :: List.map digitChar ds).
  assert (Hds : Forall (fun d => 0 <= d < 16) ds).
  { pose proof (nibbles_range r8 Hr). pose proof (nibbles_range g8 Hg).
    pose proof (nibbles_range b8 Hb). subst ds. repeat constructor; tauto. }
  assert (Htest : hexColorRegex_test (35 :: List.map digitChar ds) = true).
  { apply hexColorRegex_test_spec. exists (List.map digitChar ds).
    split; [reflexivity|]. split; [now right|].
    apply Forall_map. eapply Forall_impl; [exact Hds|].
    intros d Hd. simpl. apply isHexDigit_spec, (digitChar_hex d Hd). }
  unfold hexToRgb. rewrite Htest. cbn [negb List.tl].
  change (Z.of_nat (List.length (List.map digitChar ds)) =? 3) with false. cbv iota.
  rewrite parseInt16_digits by (assumption || discriminate).
  unfold numberToInt32. cbn [from_option Datatypes.id].
  assert (Hv : fold_left (fun a d => a * 16 + d) ds 0 = r8 * 65536 + g8 * 256 + b8).
  { subst ds. cbn [fold_left].
    pose proof (Z.div_mod r8 16 ltac:(lia)). pose proof (Z.div_mod g8 16 ltac:(lia)).
    pose proof (Z.div_mod b8 16 ltac:(lia)). lia. }
  rewrite Hv. clear Hv Htest Hds ds.
  set (v := r8 * 65536 + g8 * 256 + b8).
  assert (Hsmall : toInt32 v = v) by (apply toInt32_small; subst v; lia).
  assert (H16 : and32 (sar32 (toInt32 v) 16) 255 = r8).
  { rewrite Hsmall, byte_of_int by (subst v; reflexivity || lia).
    change (2 ^ 16) with 65536.
    replace (v / 65536) with r8
      by (apply (Z.div_unique v 65536 r8 (g8 * 256 + b8)); subst v; lia).
    apply Z.mod_small. lia. }
  assert (H8 : and32 (sar32 (toInt32 v) 8) 255 = g8).
  { rewrite Hsmall, byte_of_int by (subst v; reflexivity || lia).
    change (2 ^ 8) with 256.
    replace (v / 256) with (r8 * 256 + g8)
      by (apply (Z.div_unique v 256 (r8 * 256 + g8) b8); subst v; lia).
    symmetry. apply (Z.mod_unique _ 256 r8 g8); lia. }
  assert (H0 : and32 (toInt32 v) 255 = b8).
  { unfold and32. change (toInt32 255) with (Z.ones 8).
    rewrite !Hsmall, Z.land_ones by lia. symmetry.
    apply (Z.mod_unique _ (2 ^ 8) (r8 * 256 + g8) b8); subst v; lia. }
  now rewrite H16, H8, H0.
Qed.

(** The triple (255, 128, 0), printed as "#ff8000". *)
Lemma hexToRgb_rgbToHex_witness :
  rgbToHex (mkRGB 255 128 0) = js "#ff8000"
  /\ hexToRgb (rgbToHex (mkRGB 255 128 0)) = Some (mkRGB 255 128 0).
Proof.
  split; [vm_compute; reflexivity|].
  apply (hexToRgb_rgbToHex 255 128 0); lia.
Defined.

(** ** Math.round and clamp *)

Lemma clamp_whole (n lo hi : Z) :
  Qfloor (clamp (inject_Z n) (inject_Z lo) (inject_Z hi)) = Z.min (Z.max n lo) hi.
Proof.
  unfold clamp.
  assert (Hmax : (Qmax (inject_Z n) (inject_Z lo) == inject_Z (Z.max n lo))%Q).
  { destruct (Z.max_spec n lo) as [[Hlt ->]|[Hle ->]].
    - apply Q.max_r. rewrite <- Zle_Qle. lia.
    - apply Q.max_l. rewrite <- Zle_Qle. lia. }
  assert (Hmin : (Qmin (Qmax (inject_Z n) (inject_Z lo)) (inject_Z hi)
                  == inject_Z (Z.min (Z.max n lo) hi))%Q).
  { rewrite Hmax.
    destruct (Z.min_spec (Z.max n lo) hi) as [[Hlt ->]|[Hle ->]].
    - apply Q.min_l. rewrite <- Zle_Qle. lia.
    - apply Q.min_r. rewrite <- Zle_Qle. lia. }
  rewrite Hmin. apply Qfloor_Z.
Qed.

Lemma componentToHex_round (x : Q) :
  componentToHex x = twoHexDigits (clampByte (Qfloor (x + (1 # 2)))).
Proof.
  unfold componentToHex, Math_round, toString16, wholePart.
  change 0%Q with (inject_Z 0). rewrite clamp_whole. fold (clampByte (Qfloor (x + (1 # 2)))).
  set (v := clampByte (Qfloor (x + (1 # 2)))).
  assert (Hv : 0 <= v <= 255) by (subst v; unfold clampByte; lia).
  clearbody v.
  pose proof (componentToHex_byte v Hv) as Hbyte.
  unfold componentToHex, Math_round, toString16, wholePart in Hbyte.
  change 0%Q with (inject_Z 0) in Hbyte. rewrite clamp_whole in Hbyte.
  replace (Qfloor (inject_Z v + (1 # 2))) with v in Hbyte.
  - replace (Z.min (Z.max v 0) 255) with v in Hbyte by lia. exact Hbyte.
  - unfold Qfloor, Qplus, inject_Z. cbn [Qnum Qden].
    apply (Z.div_unique _ _ v 1); lia.
Qed.

Lemma round_nearest (x : Q) : nearestInteger x (Qfloor (x + (1 # 2))).
Proof.
  unfold nearestInteger. apply Qabs_Qle_condition.
  pose proof (Qfloor_le (x + (1 # 2))) as Hlo.
  pose proof (Qlt_floor (x + (1 # 2))) as Hhi.
  rewrite inject_Z_plus in Hhi.
  set (n := inject_Z (Qfloor (x + (1 # 2)))) in *. clearbody n.
  split.
  - apply Qplus_le_l with (z := (n + (1 # 2))%Q). ring_simplify. exact Hlo.
  - apply Qlt_le_weak, Qplus_lt_l with (z := (n + (1 # 2))%Q).
    ring_simplify. ring_simplify in Hhi. 
    eapply Qlt_le_trans; [exact Hhi|]. ring_simplify. apply Qle_refl.
Qed.

Lemma clamp_unit (weight : Q) :
  (0 <= clamp weight 0 1 <= 1)%Q
  /\ ((0 <= weight <= 1)%Q -> (clamp weight 0 1 == weight)%Q)
  /\ ((weight < 0)%Q -> (clamp weight 0 1 == 0)%Q)
  /\ ((1 < weight)%Q -> (clamp weight 0 1 == 1)%Q).
Proof.
  unfold clamp. repeat split.
  - apply Q.min_glb; [apply Q.le_max_r|discriminate].
  - apply Q.le_min_r.
  - intros [H0 H1]. rewrite Q.max_l by assumption. now apply Q.min_l.
  - intros Hneg. rewrite Q.max_r by now apply Qlt_le_weak. now apply Q.min_l.
  - intros Hbig. rewrite Q.max_l.
    + apply Q.min_r. now apply Qlt_le_weak.
    + apply Qlt_le_weak. eapply Qlt_trans; [|exact Hbig]. reflexivity.
Qed.

(** ** binary64 rounding *)

Lemma pow2_pos (e : Z) : (0 < pow2 e)%Q.
Proof.
  unfold pow2. destruct (Z.leb_spec 0 e) as [He|He].
  - change 0%Q with (inject_Z 0). rewrite <- Zlt_Qlt. apply Z.pow_pos_nonneg; lia.
  - reflexivity.
Qed.

Lemma pow2_le (a b : Z) : a <= b -> (pow2 a <= pow2 b)%Q.
Proof.
  intros Hab. unfold pow2.
  destruct (Z.leb_spec 0 a) as [Ha|Ha], (Z.leb_spec 0 b) as [Hb|Hb]; try lia.
  - rewrite <- Zle_Qle. apply Z.pow_le_mono_r; lia.
  - unfold Qle, inject_Z. cbn [Qnum Qden].
    pose proof (Z.pow_pos_nonneg 2 b ltac:(lia) Hb). nia.
  - unfold Qle. cbn [Qnum Qden].
    rewrite !Z2Pos.id by (apply Z.pow_pos_nonneg; lia).
    rewrite !Z.mul_1_l. apply Z.pow_le_mono_r; lia.
Qed.

Lemma pow2_inv (e : Z) : e <= 0 -> (pow2 e * inject_Z (2 ^ (- e)) == 1)%Q.
Proof.
  intros He. unfold pow2. destruct (Z.leb_spec 0 e) as [H0|H0].
  - replace e with 0 by lia. reflexivity.
  - unfold Qeq, Qmult, inject_Z. cbn [Qnum Qden].
    pose proof (Z.pow_pos_nonneg 2 (- e) ltac:(lia) ltac:(lia)).
    rewrite Pos.mul_1_r, Z2Pos.id by assumption. lia.
Qed.

Lemma ilog2_lower (x : Q) : ~ (x == 0)%Q -> (pow2 (ilog2 x) <= Qabs x)%Q.
Proof.
  intros Hx. unfold ilog2.
  set (d := Z.log2 (Z.abs (Qnum x)) - Z.log2 (Z.pos (Qden x))).
  destruct (Qle_bool (pow2 d) (Qabs x)) eqn:Hle.
  - now apply Qle_bool_iff.
  - destruct x as [p q]. unfold Qeq in Hx. cbn [Qnum Qden] in *.
    assert (Hp : 0 < Z.abs p) by lia.
    pose proof (Z.log2_spec (Z.abs p) Hp) as [Hp1 _].
    pose proof (Z.log2_spec (Z.pos q) ltac:(lia)) as [_ Hq2].
    pose proof (Z.log2_nonneg (Z.abs p)) as Hlp.
    pose proof (Z.log2_nonneg (Z.pos q)) as Hlq.
    set (lp := Z.log2 (Z.abs p)) in *. set (lq := Z.log2 (Z.pos q)) in *.
    replace (Z.succ lq) with (lq + 1) in Hq2 by lia.
    unfold pow2, Qabs, Qle. cbn [Qnum Qden].
    destruct (Z.leb_spec 0 (d - 1)) as [Hd|Hd]; cbn [Qnum Qden inject_Z].
    + (* 2^(d-1) * q <= |p| *)
      assert (2 ^ (d - 1) * 2 ^ (lq + 1) = 2 ^ lp).
      { rewrite <- Z.pow_add_r by lia. f_equal. lia. }
      assert (0 < 2 ^ (d - 1)) by (apply Z.pow_pos_nonneg; lia).
      nia.
    + rewrite Z2Pos.id by (apply Z.pow_pos_nonneg; lia).
      assert (2 ^ lp * 2 ^ (- (d - 1)) = 2 ^ (lq + 1)).
      { rewrite <- Z.pow_add_r by lia. f_equal. lia. }
      assert (0 < 2 ^ (- (d - 1))) by (apply Z.pow_pos_nonneg; lia).
      nia.
Qed.

Lemma roundHalfEven_near (m : Q) :
  (inject_Z (roundHalfEven m) - (1 # 2) <= m <= inject_Z (roundHalfEven m) + (1 # 2))%Q.
Proof.
  unfold roundHalfEven.
  pose proof (Qfloor_le m) as Hlo. pose proof (Qlt_floor m) as Hhi.
  rewrite inject_Z_plus in Hhi. change (inject_Z 1) with 1%Q in Hhi.
  destruct (Qcompare (m - inject_Z (Qfloor m)) (1 # 2)) eqn:Hcmp.
  - apply Qeq_alt in Hcmp.
    destruct (Z.even (Qfloor m)); [|rewrite inject_Z_plus; change (inject_Z 1) with 1%Q]; lra.
  - apply Qlt_alt in Hcmp. lra.
  - apply Qgt_alt in Hcmp. rewrite inject_Z_plus. change (inject_Z 1) with 1%Q. lra.
Qed.

Lemma roundHalfEven_ge (m : Q) (k : Z) : (inject_Z k <= m)%Q -> k <= roundHalfEven m.
Proof.
  intros Hk. assert (k <= Qfloor m) by now apply Qfloor_resp_le in Hk; rewrite Qfloor_Z in Hk.
  unfold roundHalfEven.
  destruct (Qcompare _ _); [destruct (Z.even _)| |]; lia.
Qed.

Lemma roundHalfEven_nonpos (m : Q) : (m <= 0)%Q -> roundHalfEven m <= 0.
Proof.
  intros Hm. pose proof (Qfloor_le m) as Hlo.
  assert (Hf : Qfloor m <= 0).
  { apply Qfloor_resp_le in Hm. now change (Qfloor 0) with 0 in Hm. }
  unfold roundHalfEven.
  destruct (Qcompare (m - inject_Z (Qfloor m)) (1 # 2)) eqn:Hcmp.
  - destruct (Z.even (Qfloor m)) eqn:Heven; [lia|].
    assert (Qfloor m <> 0) by (intros H0; rewrite H0 in Heven; discriminate). lia.
  - lia.
  - apply Qgt_alt in Hcmp.
    assert (Qfloor m <> 0); [|lia].
    intros H0. rewrite H0 in Hcmp. change (inject_Z 0) with 0%Q in Hcmp. lra.
Qed.

Lemma roundHalfEven_Qeq (x y : Q) : (x == y)%Q -> roundHalfEven x = roundHalfEven y.
Proof.
  intros Hxy. unfold roundHalfEven. cbv zeta.
  rewrite <- (Qfloor_comp x y Hxy).
  replace (Qcompare (y - inject_Z (Qfloor x)) (1 # 2))
    with (Qcompare (x - inject_Z (Qfloor x)) (1 # 2)); [reflexivity|].
  apply Qcompare_comp; [|apply Qeq_refl].
  unfold Qminus. apply Qplus_comp; [exact Hxy|apply Qeq_refl].
Qed.

Lemma roundToBinary64_scaled (x : Q) :
  ~ (x == 0)%Q ->
  (roundToBinary64 x
   == inject_Z (roundHalfEven (x / pow2 (binary64Exponent x))) * pow2 (binary64Exponent x))%Q.
Proof.
  intros Hx. unfold roundToBinary64.
  destruct (Qeq_bool x 0) eqn:Hzero.
  - now apply Qeq_bool_iff in Hzero.
  - cbv zeta. now rewrite (roundHalfEven_Qeq _ _ (Qred_correct _)).
Qed.

(** The rounding error is at most half a unit in the last place. *)
Lemma roundToBinary64_error (x : Q) :
  ~ (x == 0)%Q ->
  (Qabs (roundToBinary64 x - x) <= (1 # 2) * pow2 (binary64Exponent x))%Q.
Proof.
  intros Hx. rewrite (roundToBinary64_scaled x Hx).
  set (P := pow2 (binary64Exponent x)).
  assert (HP : (0 < P)%Q) by apply pow2_pos.
  pose proof (roundHalfEven_near (x / P)) as [Hlo Hhi].
  set (n := inject_Z (roundHalfEven (x / P))) in *. clearbody n.
  assert (Hm : (x == (x / P) * P)%Q) by (field; lra).
  set (m := (x / P)%Q) in *. clearbody m.
  apply Qabs_Qle_condition. rewrite Hm. split; nra.
Qed.

Lemma binary64Exponent_small (x : Q) :
  ~ (x == 0)%Q -> (Qabs x <= 512)%Q -> binary64Exponent x <= -43.
Proof.
  intros Hx Hsmall. pose proof (ilog2_lower x Hx) as Hlow.
  unfold binary64Exponent.
  destruct (Z_le_gt_dec (ilog2 x) 9) as [Hle|Hgt]; [lia|exfalso].
  pose proof (pow2_le 10 (ilog2 x) ltac:(lia)) as Hmono.
  change (pow2 10) with 1024%Q in Hmono. lra.
Qed.

Lemma binary64_error (x : Q) :
  (Qabs x <= 512)%Q -> (Qabs (binary64 x - x) <= binary64Error)%Q.
Proof.
  intros Hsmall. unfold binary64. rewrite Qred_correct.
  assert (Hx : (Qred x == x)%Q) by apply Qred_correct.
  destruct (Qeq_dec (Qred x) 0) as [Hzero|Hnz].
  - unfold roundToBinary64. apply Qeq_bool_iff in Hzero as Hb. rewrite Hb.
    rewrite <- Hx, Hzero. discriminate.
  - rewrite <- Hx in Hsmall |- * at 2.
    pose proof (roundToBinary64_error _ Hnz) as Herr.
    pose proof (pow2_le _ _ (binary64Exponent_small _ Hnz Hsmall)) as Hulp.
    change (pow2 (-43)) with (1 # 2 ^ 43)%Q in Hulp.
    eapply Qle_trans; [exact Herr|]. unfold binary64Error.
    set (P := pow2 _) in *. clearbody P.
    assert (H44 : ((1 # 2 ^ 44) == (1 # 2) * (1 # 2 ^ 43))%Q) by reflexivity.
    rewrite H44. lra.
Qed.

Lemma binary64_Qeq (x y : Q) : (x == y)%Q -> binary64 x = binary64 y.
Proof.
  intros Hxy. unfold binary64. now rewrite (Qred_complete _ _ Hxy).
Qed.

Lemma binary64_nonpos (x : Q) : (x <= 0)%Q -> (binary64 x <= 0)%Q.
Proof.
  intros Hneg. unfold binary64. rewrite Qred_correct.
  assert (Hx : (Qred x <= 0)%Q) by now rewrite Qred_correct.
  destruct (Qeq_dec (Qred x) 0) as [Hzero|Hnz].
  - unfold roundToBinary64. apply Qeq_bool_iff in Hzero. rewrite Hzero. discriminate.
  - rewrite (roundToBinary64_scaled _ Hnz).
    set (P := pow2 _). assert (HP : (0 < P)%Q) by apply pow2_pos.
    assert (Hm : (Qred x / P <= 0)%Q).
    { unfold Qdiv. assert (0 < / P)%Q by now apply Qinv_lt_0_compat. nra. }
    pose proof (roundHalfEven_nonpos _ Hm) as Hn.
    rewrite Zle_Qle in Hn. change (inject_Z 0) with 0%Q in Hn. nra.
Qed.

Lemma binary64_ge_1 (x : Q) : (1 <= x)%Q -> (1 <= binary64 x)%Q.
Proof.
  intros Hbig. unfold binary64. rewrite Qred_correct.
  assert (Hx : (1 <= Qred x)%Q) by now rewrite Qred_correct.
  set (y := Qred x) in *. clearbody y.
  assert (Hnz : ~ (y == 0)%Q) by lra.
  rewrite (roundToBinary64_scaled _ Hnz).
  pose proof (ilog2_lower y Hnz) as Hlow.
  rewrite Qabs_pos in Hlow by lra.
  set (e := binary64Exponent y) in *.
  assert (HP : (0 < pow2 e)%Q) by apply pow2_pos.
  destruct (Z_le_gt_dec e 0) as [He|He].
  - pose proof (pow2_inv e He) as Hinv.
    set (k := 2 ^ (- e)) in *.
    assert (Hk : (inject_Z k <= y / pow2 e)%Q).
    { assert (Hdiv : (y / pow2 e == y * inject_Z k)%Q).
      { apply Qmult_inj_r with (z := pow2 e); [lra|].
        rewrite Qmult_comm, Qmult_div_r by lra.
        rewrite <- Qmult_assoc, (Qmult_comm (inject_Z k)), Hinv. ring. }
      rewrite Hdiv.
      assert (0 <= inject_Z k)%Q.
      { change 0%Q with (inject_Z 0). rewrite <- Zle_Qle. subst k. apply Z.pow_nonneg. lia. }
      nra. }
    apply roundHalfEven_ge in Hk. rewrite Zle_Qle in Hk.
    set (n := inject_Z (roundHalfEven (y / pow2 e))) in *. clearbody n.
    nra.
  - assert (Hexp : e = ilog2 y - 52) by (subst e; unfold binary64Exponent in *; lia).
    pose proof (pow2_le e (ilog2 y) ltac:(lia)) as Hmono.
    pose proof (pow2_le 0 e ltac:(lia)) as Hone. change (pow2 0) with 1%Q in Hone.
    assert (Hk : (inject_Z 1 <= y / pow2 e)%Q).
    { change (inject_Z 1) with 1%Q. apply Qle_shift_div_l; [assumption|]. lra. }
    apply roundHalfEven_ge in Hk. rewrite Zle_Qle in Hk.
    change (inject_Z 1) with 1%Q in Hk.
    set (n := inject_Z (roundHalfEven (y / pow2 e))) in *. clearbody n.
    nra.
Qed.

(** A channel as the code computes it is within [mixError] of the exact
    interpolation. *)
Lemma mix_channel_error (a b : Z) (t : Q) :
  0 <= a <= 255 -> 0 <= b <= 255 -> (0 <= t <= 1)%Q ->
  (Qabs (mixChannel (inject_Z a) (inject_Z b) t
         - interpolate (inject_Z a) (inject_Z b) t) <= mixError)%Q.
Proof.
  intros Ha Hb [Ht0 Ht1].
  assert (HA : (0 <= inject_Z a <= 255)%Q).
  { change 0%Q with (inject_Z 0). change 255%Q with (inject_Z 255).
    rewrite <- !Zle_Qle. lia. }
  assert (HB : (0 <= inject_Z b <= 255)%Q).
  { change 0%Q with (inject_Z 0). change 255%Q with (inject_Z 255).
    rewrite <- !Zle_Qle. lia. }
  set (A := inject_Z a) in *. set (B := inject_Z b) in *. clearbody A B.
  unfold mixChannel, fadd, fmul, fsub, interpolate.
  assert (Heps : (0 <= binary64Error <= 1 # 1000000000000)%Q)
    by (split; vm_compute; discriminate).
  pose proof (binary64_error (1 - t)) as Hu.
  pose proof (binary64_error (A * binary64 (1 - t))) as Hp.
  pose proof (binary64_error (B * t)) as Hq.
  pose proof (binary64_error (binary64 (A * binary64 (1 - t)) + binary64 (B * t))) as Hs.
  set (eps := binary64Error) in *. clearbody eps.
  set (u := binary64 (1 - t)) in *. clearbody u.
  set (p := binary64 (A * u)) in *. clearbody p.
  set (q := binary64 (B * t)) in *. clearbody q.
  set (s := binary64 (p + q)) in *. clearbody s.
  rewrite !Qabs_Qle_condition in *.
  specialize (Hu ltac:(lra)).
  assert (Hu1 : (-1 <= u <= 2)%Q) by lra.
  assert (Hau : (-1 <= A * u <= 256)%Q) by (split; nra).
  assert (Hbt : (0 <= B * t <= 255)%Q) by (split; nra).
  assert (Hat : (A * u - A * (1 - t) <= 255 * eps
                 /\ A * (1 - t) - A * u <= 255 * eps)%Q) by (split; nra).
  set (au := (A * u)%Q) in *. set (bt := (B * t)%Q) in *.
  set (at' := (A * (1 - t))%Q) in *. clearbody au bt at'.
  assert (Hp1 : (- (512) <= au <= 512)%Q) by lra. apply Hp in Hp1.
  assert (Hq1 : (- (512) <= bt <= 512)%Q) by lra. apply Hq in Hq1.
  assert (Hs1 : (- (512) <= p + q <= 512)%Q) by lra. apply Hs in Hs1.
  assert (H9 : (mixError == 1 # 1000000000)%Q) by reflexivity.
  rewrite H9. lra.
Qed.

(** The ratio [mixHexColors] works with. *)
Lemma mix_ratio (weight : Q) :
  (0 <= clamp (binary64 weight) 0 1 <= 1)%Q
  /\ ((0 <= binary64 weight <= 1)%Q -> (clamp (binary64 weight) 0 1 == binary64 weight)%Q)
  /\ ((weight <= 0)%Q -> (clamp (binary64 weight) 0 1 == 0)%Q)
  /\ ((1 <= weight)%Q -> (clamp (binary64 weight) 0 1 == 1)%Q).
Proof.
  destruct (clamp_unit (binary64 weight)) as (Hrange & Hin & Hlow & Hhigh).
  split; [exact Hrange|]. split; [exact Hin|]. split.
  - intros Hw%binary64_nonpos.
    destruct (Qlt_le_dec (binary64 weight) 0) as [Hlt|Hge]; [now apply Hlow|].
    rewrite Hin by (split; [assumption|lra]). lra.
  - intros Hw%binary64_ge_1.
    destruct (Qlt_le_dec 1 (binary64 weight)) as [Hlt|Hge]; [now apply Hhigh|].
    rewrite Hin by (split; [lra|assumption]). lra.
Qed.

(** On every byte and every mix the components ask for, the channel of the
    model is the value that the binary64 arithmetic of the primitive floats
    gives for the expression of the source; the weight is the value of the
    literal. *)
Lemma mixChannel_agrees_with_floats :
  forall (weight : float) (fraction : Q) (channels : list Z) (base mix : Z),
    In (weight, fraction, channels) componentMixes ->
    0 <= base <= 255 -> In mix channels ->
    (exists q, floatValue weight = Some q /\ (q == binary64 fraction)%Q)
    /\ channelAgrees weight (clamp (binary64 (binary64 fraction)) 0 1) base mix = true.
Proof.
  assert (Htable :
    forallb (fun m : float * Q * list Z =>
      match floatValue m.1.1 with
      | Some q => Qeq_bool q (binary64 m.1.2)
      | None => false
      end
      && (let ratio := clamp (binary64 (binary64 m.1.2)) 0 1 in
          forallb (fun base => forallb (channelAgrees m.1.1 ratio base) m.2)
            (List.map Z.of_nat (seq 0 256)))) componentMixes = true)
    by (vm_compute; reflexivity).
  intros weight fraction channels base mix Hw Hb Hm.
  rewrite forallb_forall in Htable. specialize (Htable _ Hw).
  cbn [fst snd] in Htable. cbv zeta in Htable.
  apply andb_prop in Htable as [Hweight Hchannels]. split.
  - destruct (floatValue weight) as [q|]; [|discriminate].
    exists q. split; [reflexivity|]. now apply Qeq_bool_iff.
  - rewrite forallb_forall in Hchannels. specialize (Hchannels base).
    rewrite forallb_forall in Hchannels. apply Hchannels; [|exact Hm].
    apply in_map_iff. exists (Z.to_nat base). split; [lia|].
    apply in_seq. lia.
Qed.

(** ** hexToRgb and hexToRgba on any string *)

Lemma hexToRgb_None (hex : HexColor) : ~ matchesHexPattern hex -> hexToRgb hex = None.
Proof.
  intros Hpat%hexColorRegex_test_false. unfold hexToRgb. now rewrite Hpat.
Qed.

(** A parsed colour has whole channels in [0, 255]. *)
Lemma hexToRgb_Some (hex : HexColor) :
  matchesHexPattern hex ->
  exists r8 g8 b8 : Z,
    0 <= r8 <= 255 /\ 0 <= g8 <= 255 /\ 0 <= b8 <= 255
    /\ hexToRgb hex = Some (mkRGB (inject_Z r8) (inject_Z g8) (inject_Z b8)).
Proof.
  intros Hpat%hexColorRegex_test_spec. unfold hexToRgb. rewrite Hpat. cbn [negb].
  assert (Hbyte : forall x, 0 <= and32 x 255 <= 255).
  { intros x. unfold and32. change (toInt32 255) with (Z.ones 8).
    rewrite Z.land_ones by lia.
    pose proof (Z.mod_pos_bound (toInt32 x) (2 ^ 8) ltac:(lia)). lia. }
  eexists _, _, _. repeat split; try apply Hbyte.
Qed.

Lemma hexToRgb_bytes (hex : HexColor) (rgb : RGB) :
  hexToRgb hex = Some rgb ->
  exists r8 g8 b8 : Z,
    0 <= r8 <= 255 /\ 0 <= g8 <= 255 /\ 0 <= b8 <= 255
    /\ rgb = mkRGB (inject_Z r8) (inject_Z g8) (inject_Z b8).
Proof.
  intros Hparse.
  assert (Hpat : matchesHexPattern hex).
  { apply hexColorRegex_test_spec. unfold hexToRgb in Hparse.
    now destruct (hexColorRegex_test hex). }
  destruct (hexToRgb_Some hex Hpat) as (r8 & g8 & b8 & Hr & Hg & Hb & Hsome).
  exists r8, g8, b8. repeat split; try lia. congruence.
Qed.

(** ** mixHexColors, channel by channel *)

(** C6. When both colours parse, every channel of the mix is
    [base * (1 - t) + mix * t] with [t = clamp weight 0 1], evaluated in
    binary64 arithmetic (the difference, the two products and the sum each
    rounded to the nearest binary64 number); that value, which is within
    [mixError] of the exact interpolation, is replaced by the integer nearest
    to it (a tie going up), clamped to [0, 255] and printed as two lower-case
    hex digits behind a [#].  Mixing black and white half and half gives
    "#808080", not "#7f7f7f". *)
Theorem mixHexColors_binary64 :
  forall (color mixWith : HexColor) (weight : Q) (rgbBase rgbMix : RGB),
    hexToRgb color = Some rgbBase ->
    hexToRgb mixWith = Some rgbMix ->
    (exists (t : Q) (nr ng nb : Z),
        t = clamp (binary64 weight) 0 1
        /\ (0 <= t <= 1)%Q
        /\ ((0 <= binary64 weight <= 1)%Q -> (t == binary64 weight)%Q)
        /\ ((weight <= 0)%Q -> (t == 0)%Q)
        /\ ((1 <= weight)%Q -> (t == 1)%Q)
        /\ nr = Qfloor (mixChannel (r rgbBase) (r rgbMix) t + (1 # 2))
        /\ ng = Qfloor (mixChannel (g rgbBase) (g rgbMix) t + (1 # 2))
        /\ nb = Qfloor (mixChannel (b rgbBase) (b rgbMix) t + (1 # 2))
        /\ nearestInteger (mixChannel (r rgbBase) (r rgbMix) t) nr
        /\ nearestInteger (mixChannel (g rgbBase) (g rgbMix) t) ng
        /\ nearestInteger (mixChannel (b rgbBase) (b rgbMix) t) nb
        /\ (Qabs (mixChannel (r rgbBase) (r rgbMix) t
                  - interpolate (r rgbBase) (r rgbMix) t) <= mixError)%Q
        /\ (Qabs (mixChannel (g rgbBase) (g rgbMix) t
                  - interpolate (g rgbBase) (g rgbMix) t) <= mixError)%Q
        /\ (Qabs (mixChannel (b rgbBase) (b rgbMix) t
                  - interpolate (b rgbBase) (b rgbMix) t) <= mixError)%Q
        /\ mixHexColors color mixWith weight
           = 35 :: twoHexDigits (clampByte nr) ++ twoHexDigits (clampByte ng)
                ++ twoHexDigits (clampByte nb))
    /\ mixHexColors (js "#000000") (js "#ffffff") (1 # 2) = js "#808080"
    /\ mixHexColors (js "#000000") (js "#ffffff") (1 # 2) <> js "#7f7f7f".
Proof.
  intros color mixWith weight rgbBase rgbMix Hbase Hmix. split.
  - destruct (mix_ratio weight) as (Hrange & Hin & Hlow & Hhigh).
    destruct (hexToRgb_bytes _ _ Hbase) as (r1 & g1 & b1 & Hr1 & Hg1 & Hb1 & Erb).
    destruct (hexToRgb_bytes _ _ Hmix) as (r2 & g2 & b2 & Hr2 & Hg2 & Hb2 & Erm).
    exists (clamp (binary64 weight) 0 1). eexists _, _, _.
    split; [reflexivity|]. split; [exact Hrange|]. split; [exact Hin|].
    split; [exact Hlow|]. split; [exact Hhigh|].
    split; [reflexivity|]. split; [reflexivity|]. split; [reflexivity|].
    split; [apply round_nearest|]. split; [apply round_nearest|].
    split; [apply round_nearest|].
    subst rgbBase rgbMix. cbn [r g b].
    split; [now apply mix_channel_error|]. split; [now apply mix_channel_error|].
    split; [now apply mix_channel_error|].
    unfold mixHexColors. rewrite Hbase, Hmix.
    unfold rgbToHex. cbn [r g b]. now rewrite !componentToHex_round.
  - split; [vm_compute; reflexivity|vm_compute; discriminate].
Qed.

(** Orange mixed with white at weight 0.35, as the cover art does. *)
Lemma mixHexColors_binary64_witness :
  hexToRgb (js "#f97316") = Some (mkRGB 249 115 22)
  /\ hexToRgb (js "#ffffff") = Some (mkRGB 255 255 255)
  /\ mixHexColors (js "#f97316") (js "#ffffff") (35 # 100) = js "#fba468"
  /\ exists nr ng nb : Z,
       nearestInteger (mixChannel 249 255 (clamp (binary64 (35 # 100)) 0 1)) nr
       /\ nearestInteger (mixChannel 115 255 (clamp (binary64 (35 # 100)) 0 1)) ng
       /\ nearestInteger (mixChannel 22 255 (clamp (binary64 (35 # 100)) 0 1)) nb
       /\ mixHexColors (js "#f97316") (js "#ffffff") (35 # 100)
          = 35 :: twoHexDigits (clampByte nr) ++ twoHexDigits (clampByte ng)
               ++ twoHexDigits (clampByte nb).
Proof.
  assert (Ha : hexToRgb (js "#f97316") = Some (mkRGB 249 115 22)) by (vm_compute; reflexivity).
  assert (Hb : hexToRgb (js "#ffffff") = Some (mkRGB 255 255 255)) by (vm_compute; reflexivity).
  split; [exact Ha|]. split; [exact Hb|]. split; [vm_compute; reflexivity|].
  destruct (mixHexColors_binary64 _ _ (35 # 100) _ _ Ha Hb)
    as [(t & nr & ng & nb & -> & _ & _ & _ & _ & _ & _ & _ & Hr & Hg & Hb' & _ & _ & _ & Hmix) _].
  exists nr, ng, nb. auto.
Defined.

(** The deep tone of the cover art for the palette colour "#0ea5e9": the
    green channel 165 at the weight 0.3.  The exact interpolation is a little
    above 115.5 and its nearest integer is 116; the binary64 product is a
    little below 115.5 and the code prints 115. *)
Lemma mixHexColors_not_nearest :
  hexToRgb (js "#0ea5e9") = Some (mkRGB 14 165 233)
  /\ hexToRgb (js "#000000") = Some (mkRGB 0 0 0)
  /\ mixHexColors (js "#0ea5e9") (js "#000000") (30 # 100) = js "#0a73a3"
  /\ js "#0a73a3" = 35 :: twoHexDigits 10 ++ twoHexDigits 115 ++ twoHexDigits 163
  /\ mixChannel 165 0 (clamp (binary64 (30 # 100)) 0 1)
     = 8127589952520191 # 70368744177664
  /\ nearestInteger (interpolate 165 0 (clamp (binary64 (30 # 100)) 0 1)) 116
  /\ ~ nearestInteger (interpolate 165 0 (clamp (binary64 (30 # 100)) 0 1)) 115.
Proof.
  repeat (split; [vm_compute; reflexivity|]).
  split.
  - unfold nearestInteger. apply Qle_bool_iff. vm_compute. reflexivity.
  - unfold nearestInteger. intros H%Qle_bool_iff. vm_compute in H. discriminate H.
Qed.

Section HexToRgbaProperties.
Variable fractionToString : Q -> jsstring.

Lemma numberToString_byte (v : Z) :
  0 <= v <= 255 -> numberToString fractionToString (inject_Z v) = natToString10 v.
Proof.
  intros Hv. unfold numberToString, isWhole, wholePart.
  rewrite Qfloor_Z.
  replace (Qeq_bool (inject_Z v) (inject_Z v)) with true
    by (symmetry; apply Qeq_bool_iff; reflexivity).
  replace (Qle_bool (Qabs (inject_Z v)) (inject_Z (10 ^ 21 - 1))) with true.
  - cbn [andb]. destruct (Z.ltb_spec v 0); [lia|reflexivity].
  - symmetry. apply Qle_bool_iff.
    rewrite Qabs_pos by (change 0%Q with (inject_Z 0); rewrite <- Zle_Qle; lia).
    rewrite <- Zle_Qle. lia.
Qed.

(** C7. Parsing a colour string has no failing path: [hexToRgb] returns
    [null] for every string outside the hex pattern, and [hexToRgba]
    then returns the string it was given; for a string of the pattern
    [hexToRgba] prints [rgba(r, g, b, alpha)] with the three channels in
    decimal and [alpha] clamped to [0, 1]. *)
Theorem hex_parsing_degrades :
  forall (color : HexColor) (alpha : Q),
    (~ matchesHexPattern color ->
     hexToRgb color = None /\ hexToRgba fractionToString color alpha = color)
    /\ (matchesHexPattern color ->
        exists r8 g8 b8 : Z,
          0 <= r8 <= 255 /\ 0 <= g8 <= 255 /\ 0 <= b8 <= 255
          /\ hexToRgb color = Some (mkRGB (inject_Z r8) (inject_Z g8) (inject_Z b8))
          /\ (0 <= clamp alpha 0 1 <= 1)%Q
          /\ hexToRgba fractionToString color alpha
             = js "rgba(" ++ natToString10 r8 ++ js ", " ++ natToString10 g8
                 ++ js ", " ++ natToString10 b8 ++ js ", "
                 ++ numberToString fractionToString (clamp alpha 0 1) ++ js ")")
    /\ hexToRgb (js "not-a-color") = None
    /\ hexToRgba fractionToString (js "not-a-color") alpha = js "not-a-color"
    /\ hexToRgba fractionToString (js "#0ea5e9") 2 = js "rgba(14, 165, 233, 1)".
Proof.
  intros color alpha. split; [|split; [|split; [|split]]].
  - intros Hpat. pose proof (hexToRgb_None color Hpat) as Hnone.
    split; [assumption|]. unfold hexToRgba. now rewrite Hnone.
  - intros Hpat.
    destruct (hexToRgb_Some color Hpat) as (r8 & g8 & b8 & Hr & Hg & Hb & Hrgb).
    exists r8, g8, b8. repeat (split; [assumption|]).
    split; [apply clamp_unit|].
    unfold hexToRgba. rewrite Hrgb. cbn [r g b].
    now rewrite !numberToString_byte by assumption.
  - vm_compute. reflexivity.
  - vm_compute. reflexivity.
  - vm_compute. reflexivity.
Qed.
End HexToRgbaProperties.

(** ** getLuminance, getReadableTextColor *)

Lemma Q2R_inject_Z (z : Z) : Q2R (inject_Z z) = IZR z.
Proof.
  unfold Q2R, inject_Z. cbn [Qnum Qden]. rewrite Rinv_1. apply Rmult_1_r.
Qed.

Lemma toLinear_wcag (c8 : Z) : toLinear (Q2R (inject_Z c8)) = wcagChannel c8.
Proof.
  unfold toLinear, wcagChannel. now rewrite Q2R_inject_Z.
Qed.

Lemma wcagChannel_0 : wcagChannel 0 = 0%R.
Proof.
  unfold wcagChannel. cbv zeta.
  destruct (Rle_dec (0 / 255) 0.03928) as [_|Hn]; lra.
Qed.

Lemma wcagChannel_255 : wcagChannel 255 = 1%R.
Proof.
  unfold wcagChannel. cbv zeta.
  destruct (Rle_dec (255 / 255) 0.03928) as [Hle|_]; [lra|].
  replace ((255 / 255 + 0.055) / 1.055)%R with 1%R by lra.
  unfold Rpower. rewrite ln_1, Rmult_0_r. apply exp_0.
Qed.

(** C4. On a colour that parses, [getLuminance] is the WCAG relative
    luminance of its channels, and [getReadableTextColor] is the near-black
    "#0f172a" when that luminance exceeds 0.5 and the near-white "#f8fafc"
    when it does not; a string that does not parse gets the near-white.
    Black gets "#f8fafc", white gets "#0f172a". *)
Theorem getReadableTextColor_threshold :
  forall background : HexColor,
    match hexToRgb background with
    | Some rgb =>
        exists r8 g8 b8 : Z,
          rgb = mkRGB (inject_Z r8) (inject_Z g8) (inject_Z b8)
          /\ getLuminance background = wcagLuminance r8 g8 b8
          /\ ((wcagLuminance r8 g8 b8 > 0.5)%R ->
              getReadableTextColor background = js "#0f172a")
          /\ (~ (wcagLuminance r8 g8 b8 > 0.5)%R ->
              getReadableTextColor background = js "#f8fafc")
    | None => getReadableTextColor background = js "#f8fafc"
    end
    /\ getReadableTextColor (js "#000000") = js "#f8fafc"
    /\ getReadableTextColor (js "#ffffff") = js "#0f172a".
Proof.
  assert (Hparsed : forall bg r8 g8 b8,
             hexToRgb bg = Some (mkRGB (inject_Z r8) (inject_Z g8) (inject_Z b8)) ->
             getLuminance bg = wcagLuminance r8 g8 b8).
  { intros bg r8 g8 b8 Hrgb. unfold getLuminance, wcagLuminance. rewrite Hrgb.
    cbn [r g b]. cbv zeta. now rewrite !toLinear_wcag. }
  intros background. split; [|split].
  - destruct (hexToRgb background) as [rgb|] eqn:Hrgb.
    + destruct (hexColorRegex_test background) eqn:Htest;
        [|unfold hexToRgb in Hrgb; rewrite Htest in Hrgb; discriminate].
      apply hexColorRegex_test_spec, hexToRgb_Some in Htest
        as (r8 & g8 & b8 & _ & _ & _ & Hsame).
      rewrite Hrgb in Hsame. injection Hsame as ->.
      exists r8, g8, b8. split; [reflexivity|].
      pose proof (Hparsed background r8 g8 b8 Hrgb) as Hlum.
      split; [assumption|].
      unfold getReadableTextColor. rewrite Hlum.
      destruct (Rgt_dec (wcagLuminance r8 g8 b8) 0.5); split; intros; try reflexivity; contradiction.
    + unfold getReadableTextColor, getLuminance. rewrite Hrgb.
      destruct (Rgt_dec 0.5 0.5) as [Hgt|_]; [lra|reflexivity].
  - unfold getReadableTextColor.
    rewrite (Hparsed (js "#000000") 0 0 0) by (vm_compute; reflexivity).
    unfold wcagLuminance. rewrite wcagChannel_0.
    destruct (Rgt_dec _ 0.5) as [Hgt|_]; [lra|reflexivity].
  - unfold getReadableTextColor.
    rewrite (Hparsed (js "#ffffff") 255 255 255) by (vm_compute; reflexivity).
    unfold wcagLuminance. rewrite wcagChannel_255.
    destruct (Rgt_dec _ 0.5) as [_|Hn]; [reflexivity|lra].
Qed.

(** ** trim and split *)

Lemma dropWhile_nil (p : Z -> bool) (s : jsstring) :
  dropWhile p s = [] <-> forallb p s = true.
Proof.
  induction s as [|c s IH]; simpl; [tauto|].
  destruct (p c); simpl; [exact IH|]. split; discriminate.
Qed.

Lemma dropWhile_head (p : Z -> bool) (s : jsstring) (c : Z) (rest : jsstring) :
  dropWhile p s = c :: rest -> p c = false.
Proof.
  induction s as [|d s IH]; simpl; [discriminate|].
  destruct (p d) eqn:Hd; [exact IH|]. now intros [= <- _].
Qed.

(** The trimmed string is empty exactly for an empty or whitespace-only one. *)
Lemma trim_nil (s : jsstring) : trim s = [] <-> forallb isWhiteSpace s = true.
Proof.
  unfold trim. split.
  - intros Hnil. apply (f_equal (@List.rev Z)) in Hnil.
    rewrite List.rev_involutive in Hnil. cbn [List.rev] in Hnil.
    apply dropWhile_nil in Hnil. rewrite forallb_forall in Hnil.
    destruct (dropWhile isWhiteSpace s) as [|c rest] eqn:Hdrop.
    + now apply dropWhile_nil.
    + apply dropWhile_head in Hdrop.
      rewrite Hnil in Hdrop; [discriminate|]. apply -> in_rev. now left.
  - intros Hall. apply dropWhile_nil in Hall. now rewrite Hall.
Qed.

Lemma trim_nonspace (s : jsstring) :
  trim s <> [] -> exists c, In c (trim s) /\ isWhiteSpace c = false.
Proof.
  unfold trim. intros Hne.
  destruct (dropWhile isWhiteSpace (List.rev (dropWhile isWhiteSpace s)))
    as [|c rest] eqn:Hdrop; [now destruct Hne|].
  exists c. split.
  - apply -> in_rev. now left.
  - eapply dropWhile_head, Hdrop.
Qed.

(** Splitting a string that holds a unit outside the separator class leaves
    at least one non-empty piece. *)
Lemma splitRunsFrom_some_word (sep : Z -> bool) (s cur : jsstring) (inRun : bool) :
  (inRun = true -> cur = []) ->
  cur <> [] \/ (exists c, In c s /\ sep c = false) ->
  List.filter nonEmpty (splitRunsFrom sep s cur inRun) <> [].
Proof.
  revert cur inRun. induction s as [|d s IH]; intros cur inRun Hrun Hsome.
  - destruct Hsome as [Hcur|(c & [] & _)]. simpl.
    destruct (List.rev cur) eqn:Hrev; [|discriminate].
    apply (f_equal (@List.rev Z)) in Hrev. rewrite List.rev_involutive in Hrev.
    contradiction.
  - cbn [splitRunsFrom]. destruct (sep d) eqn:Hd.
    + assert (Hrest : cur = [] -> exists c, In c s /\ sep c = false).
      { intros ->. destruct Hsome as [|(c & [<-|Hin] & Hc)]; [congruence|congruence|eauto]. }
      destruct inRun.
      * apply IH; [reflexivity|]. right. auto.
      * destruct cur as [|c0 cur'].
        -- simpl. apply IH; [reflexivity|]. right. auto.
        -- cbn [List.filter]. destruct (List.rev (c0 :: cur')) eqn:Hrev; [|discriminate].
           apply (f_equal (@List.length Z)) in Hrev.
           rewrite List.length_rev in Hrev. discriminate.
    + apply IH; [discriminate|]. left. discriminate.
Qed.

Lemma splitWords_nonempty (s : jsstring) : trim s <> [] -> splitWords (trim s) <> [].
Proof.
  intros Hne. apply trim_nonspace in Hne as (c & Hin & Hc).
  unfold splitWords, splitRuns.
  apply splitRunsFrom_some_word; [discriminate|]. right. eauto.
Qed.

(** Every piece [split(/[class]+/)] returns is free of separators. *)
Lemma splitRunsFrom_clean (sep : Z -> bool) (s cur : jsstring) (inRun : bool) :
  Forall (fun c => sep c = false) cur ->
  Forall (Forall (fun c => sep c = false)) (splitRunsFrom sep s cur inRun).
Proof.
  revert cur inRun. induction s as [|d s IH]; intros cur inRun Hcur; cbn [splitRunsFrom].
  - constructor; [|constructor]. now apply Forall_rev.
  - destruct (sep d) eqn:Hd.
    + destruct inRun; [now apply IH|].
      constructor; [now apply Forall_rev|now apply IH].
    + apply IH. now constructor.
Qed.

(** The words of a title: none is empty, none holds white space. *)
Lemma splitWords_words (s : jsstring) :
  Forall (fun w => w <> [] /\ Forall (fun c => isWhiteSpace c = false) w) (splitWords s).
Proof.
  unfold splitWords, splitRuns.
  pose proof (splitRunsFrom_clean isWhiteSpace s [] false ltac:(constructor)) as Hclean.
  induction Hclean as [|w ws Hw _ IH]; simpl; [constructor|].
  destruct w as [|c w]; simpl; [exact IH|].
  constructor; [|exact IH]. split; [discriminate|exact Hw].
Qed.

Lemma splitRunsFrom_content (sep : Z -> bool) (s cur : jsstring) (inRun : bool) :
  (inRun = true -> cur = []) ->
  List.concat (splitRunsFrom sep s cur inRun)
  = List.rev cur ++ List.filter (fun c => negb (sep c)) s.
Proof.
  revert cur inRun. induction s as [|d s IH]; intros cur inRun Hrun; cbn [splitRunsFrom].
  - simpl. now rewrite !app_nil_r.
  - cbn [List.filter]. destruct (sep d) eqn:Hd; cbn [negb].
    + destruct inRun.
      * rewrite IH by reflexivity. now rewrite Hrun.
      * cbn [List.concat]. now rewrite IH.
    + rewrite IH by discriminate. cbn [List.rev]. now rewrite <- app_assoc.
Qed.

Lemma concat_filter_nonEmpty (l : list jsstring) :
  List.concat (List.filter nonEmpty l) = List.concat l.
Proof.
  induction l as [|w l IH]; [reflexivity|].
  destruct w; simpl; [exact IH|]. now rewrite IH.
Qed.

Lemma filter_dropWhile (s : jsstring) :
  List.filter notSpace (dropWhile isWhiteSpace s) = List.filter notSpace s.
Proof.
  induction s as [|c s IH]; [reflexivity|]. simpl. unfold notSpace at 2.
  destruct (isWhiteSpace c) eqn:Hc; [exact IH|]. simpl.
  unfold notSpace at 1. now rewrite Hc.
Qed.

(** The words of a title, put together again, are the title without its
    white space. *)
Lemma splitWords_content (s : jsstring) :
  List.concat (splitWords (trim s)) = List.filter notSpace s.
Proof.
  unfold splitWords, splitRuns.
  rewrite concat_filter_nonEmpty, splitRunsFrom_content by discriminate.
  cbn [List.rev app]. fold notSpace. unfold trim.
  rewrite List.filter_rev, filter_dropWhile, List.filter_rev, List.rev_involutive.
  apply filter_dropWhile.
Qed.

Lemma nonEmpty_trim (s : jsstring) :
  nonEmpty (trim s) = negb (forallb isWhiteSpace s).
Proof.
  destruct (forallb isWhiteSpace s) eqn:Hall.
  - apply trim_nil in Hall. now rewrite Hall.
  - destruct (trim s) eqn:Htrim; [|reflexivity].
    apply trim_nil in Htrim. congruence.
Qed.

Lemma trim_nonempty (s : jsstring) : forallb isWhiteSpace s = false -> trim s <> [].
Proof.
  intros Hall Hnil%trim_nil. congruence.
Qed.

(** ** getPrimaryWords *)

(** C9. A non-empty list of accent words gives its first entry and its
    second (or the empty string).  Without one: an empty or whitespace-only
    title gives ["TEN", "Blog"]; a title of one word gives the first two
    non-empty pieces between its dashes when there are two, else the word
    and the empty string; a title of several words gives its first two. *)
Theorem getPrimaryWords_spec :
  forall (value : jsstring) (override : option Override),
    (forall w0 rest,
        parseAccentWords override = w0 :: rest ->
        getPrimaryWords value override = (Some w0, Some (default [] (head rest))))
    /\ (parseAccentWords override = [] ->
        (forallb isWhiteSpace value = true ->
         getPrimaryWords value override = (Some (js "TEN"), Some (js "Blog")))
        /\ (forallb isWhiteSpace value = false ->
            splitWords (trim value) <> []
            /\ Forall (fun w => w <> [] /\ Forall (fun c => isWhiteSpace c = false) w)
                 (splitWords (trim value))
            /\ List.concat (splitWords (trim value)) = List.filter notSpace value
            /\ (forall single,
                   splitWords (trim value) = [single] ->
                   (forall p0 p1 more,
                       List.filter nonEmpty (splitEach isDash single) = p0 :: p1 :: more ->
                       getPrimaryWords value override = (Some p0, Some p1))
                   /\ ((List.length (List.filter nonEmpty (splitEach isDash single)) < 2)%nat ->
                       getPrimaryWords value override = (Some single, Some [])))
            /\ (forall w0 w1 more,
                   splitWords (trim value) = w0 :: w1 :: more ->
                   getPrimaryWords value override = (Some w0, Some w1))))
    /\ getPrimaryWords (js "Self-Driving") None = (Some (js "Self"), Some (js "Driving"))
    /\ getPrimaryWords (js "") None = (Some (js "TEN"), Some (js "Blog")).
Proof.
  intros value override. split; [|split; [|split]].
  - intros w0 rest Hparsed. unfold getPrimaryWords. rewrite Hparsed.
    now destruct rest.
  - intros Hparsed. unfold getPrimaryWords. rewrite Hparsed.
    change (0 <? Z.of_nat (List.length (@nil jsstring))) with false. cbv iota.
    rewrite nonEmpty_trim. split.
    + now intros ->.
    + intros Hall. rewrite Hall. cbn [negb].
      split; [apply splitWords_nonempty, trim_nonempty, Hall|].
      split; [apply splitWords_words|]. split; [apply splitWords_content|]. split.
      * intros single ->.
        change (Z.of_nat (List.length [single]) =? 1) with true. cbv iota.
        change ([single] !! 0%nat) with (Some single).
        cbn [from_option Datatypes.id]. split.
        -- intros p0 p1 more ->.
           destruct (Z.leb_spec 2 (Z.of_nat (List.length (p0 :: p1 :: more)))) as [_|Hlt];
             [reflexivity|simpl in Hlt; lia].
        -- intros Hshort.
           destruct (Z.leb_spec 2
                       (Z.of_nat (List.length (List.filter nonEmpty (splitEach isDash single)))));
             [lia|reflexivity].
      * intros w0 w1 more ->.
        destruct (Z.eqb_spec (Z.of_nat (List.length (w0 :: w1 :: more))) 1) as [Hone|_];
          [simpl in Hone; lia|reflexivity].
  - vm_compute. reflexivity.
  - vm_compute. reflexivity.
Qed.

(** ** getInitials *)

Lemma upperLatin1_single (c : Z) : c <> 223 -> exists u, upperLatin1 c = [u].
Proof.
  intros Hc. unfold upperLatin1.
  destruct (Z.eqb_spec c 223); [contradiction|].
  repeat match goal with
         | |- context [if ?b then _ else _] => destruct b
         end; eauto.
Qed.

Section GetInitialsProperties.
Variable upperBeyondLatin1 : jsstring -> jsstring.

Lemma toUpperCase_pair (c0 c1 : Z) :
  0 <= c0 <= 255 -> 0 <= c1 <= 255 -> c0 <> 223 -> c1 <> 223 ->
  List.length (toUpperCase upperBeyondLatin1 [c0; c1]) = 2%nat.
Proof.
  intros H0 H1 Hs0 Hs1. unfold toUpperCase, isLatin1. cbn [forallb].
  replace ((0 <=? c0) && (c0 <=? 255)) with true by (symmetry; apply andb_true_iff; lia).
  replace ((0 <=? c1) && (c1 <=? 255)) with true by (symmetry; apply andb_true_iff; lia).
  cbn [andb List.map List.concat].
  destruct (upperLatin1_single c0 Hs0) as [u0 ->].
  destruct (upperLatin1_single c1 Hs1) as [u1 ->]. reflexivity.
Qed.

(** C8, as amended.  [getInitials] never fails.  An empty or
    whitespace-only name gives "TEN"; a name of one word gives the upper
    case of its first two code units (of the first one twice when it has
    no second); a name of several words gives the upper case of the first
    units of its first two words.  That upper-cased pair has two units when
    both units are in the Latin-1 range and neither is U+00DF. *)
Theorem getInitials_spec :
  forall name : jsstring,
    (forallb isWhiteSpace name = true ->
     getInitials upperBeyondLatin1 name = Some (js "TEN"))
    /\ (forallb isWhiteSpace name = false ->
        splitWords (trim name) <> []
        /\ Forall (fun w => w <> [] /\ Forall (fun c => isWhiteSpace c = false) w)
             (splitWords (trim name))
        /\ List.concat (splitWords (trim name)) = List.filter notSpace name
        /\ (forall w,
               splitWords (trim name) = [w] ->
               exists c0 rest,
                 w = c0 :: rest
                 /\ getInitials upperBeyondLatin1 name
                    = Some (toUpperCase upperBeyondLatin1 [c0; default c0 (head rest)]))
        /\ (forall w0 w1 more,
               splitWords (trim name) = w0 :: w1 :: more ->
               exists c0 r0 c1 r1,
                 w0 = c0 :: r0 /\ w1 = c1 :: r1
                 /\ getInitials upperBeyondLatin1 name
                    = Some (toUpperCase upperBeyondLatin1 [c0; c1])))
    /\ (forall c0 c1,
           0 <= c0 <= 255 -> 0 <= c1 <= 255 -> c0 <> 223 -> c1 <> 223 ->
           List.length (toUpperCase upperBeyondLatin1 [c0; c1]) = 2%nat)
    /\ getInitials upperBeyondLatin1 (js "") = Some (js "TEN")
    /\ getInitials upperBeyondLatin1 (js "A") = Some (js "AA")
    /\ getInitials upperBeyondLatin1 (js "Jane Doe") = Some (js "JD").
Proof.
  intros name. split; [|split; [|split; [|split; [|split]]]].
  - intros Hall. unfold getInitials. now rewrite nonEmpty_trim, Hall.
  - intros Hall. split; [apply splitWords_nonempty, trim_nonempty, Hall|].
    split; [apply splitWords_words|]. split; [apply splitWords_content|].
    pose proof (splitWords_words (trim name)) as Hwords.
    unfold getInitials. rewrite nonEmpty_trim, Hall. cbn [negb].
    split.
    + intros w Hw. rewrite Hw in Hwords |- *.
      apply Forall_cons_iff in Hwords as [[Hne _] _].
      destruct w as [|c0 rest]; [contradiction|].
      exists c0, rest. split; [reflexivity|].
      destruct rest; reflexivity.
    + intros w0 w1 more Hw. rewrite Hw in Hwords |- *.
      apply Forall_cons_iff in Hwords as [[Hne0 _] Hwords].
      apply Forall_cons_iff in Hwords as [[Hne1 _] _].
      destruct w0 as [|c0 r0]; [contradiction|].
      destruct w1 as [|c1 r1]; [contradiction|].
      exists c0, r0, c1, r1. repeat split.
      destruct (Z.eqb_spec (Z.of_nat (List.length ((c0 :: r0) :: (c1 :: r1) :: more))) 1)
        as [Hone|_]; [simpl in Hone; lia|reflexivity].
  - apply toUpperCase_pair.
  - vm_compute. reflexivity.
  - vm_compute. reflexivity.
  - vm_compute. reflexivity.
Qed.
End GetInitialsProperties.

(** The name of the single code unit U+00DF (sharp s) is one word; its
    initials are the four units "SSSS", not two. *)
Lemma getInitials_not_two_characters :
  forallb isWhiteSpace [223] = false
  /\ splitWords (trim [223]) = [[223]]
  /\ (forall upperBeyondLatin1 : jsstring -> jsstring,
        getInitials upperBeyondLatin1 [223] = Some (js "SSSS"))
  /\ List.length (js "SSSS") = 4%nat.
Proof.
  split; [reflexivity|]. split; [vm_compute; reflexivity|].
  split; [|reflexivity].
  intros upperBeyondLatin1. vm_compute. reflexivity.
Qed.

(* ================================================================== *)
(** * Further properties of the helpers *)

(** ** hexToRgb, digit by digit *)

Lemma hexValue_hex (c : Z) : isHexDigit c = true -> hexValue c = Some (hexVal c).
Proof.
  intros Hc. unfold hexVal. destruct (hexValue c) eqn:Hv; [reflexivity|].
  unfold hexValue, isHexDigit in *.
  destruct ((48 <=? c) && (c <=? 57)); [discriminate|].
  destruct ((97 <=? c) && (c <=? 102)); [discriminate|].
  destruct ((65 <=? c) && (c <=? 70)); discriminate.
Qed.

Lemma hexVal_range (c : Z) : 0 <= hexVal c < 16.
Proof.
  unfold hexVal, hexValue.
  destruct ((48 <=? c) && (c <=? 57)) eqn:H1;
    [apply andb_true_iff in H1; cbn; lia|].
  destruct ((97 <=? c) && (c <=? 102)) eqn:H2;
    [apply andb_true_iff in H2; cbn; lia|].
  destruct ((65 <=? c) && (c <=? 70)) eqn:H3;
    [apply andb_true_iff in H3; cbn; lia|].
  cbn. lia.
Qed.

Lemma hexPrefix_hex (cs : jsstring) (acc : Z) (seen : bool) :
  Forall (fun c => isHexDigit c = true) cs ->
  hexPrefix cs acc seen
  = if seen || nonEmpty cs
    then Some (fold_left (fun a c => a * 16 + hexVal c) cs acc) else None.
Proof.
  intros Hcs. revert acc seen.
  induction Hcs as [|c cs Hc _ IH]; intros acc seen; simpl.
  - now rewrite orb_false_r.
  - rewrite (hexValue_hex c Hc), IH. simpl. now rewrite orb_true_r.
Qed.

(** [parseInt(s, 16)] on a non-empty string of hex digits, of either case,
    reads all of it. *)
Lemma parseInt16_hex (cs : jsstring) :
  Forall (fun c => isHexDigit c = true) cs -> cs <> [] ->
  parseInt16 cs = Some (fold_left (fun a c => a * 16 + hexVal c) cs 0).
Proof.
  intros Hcs Hne. unfold parseInt16.
  destruct cs as [|c0 cs]; [congruence|]. clear Hne.
  pose proof Hcs as Hall.
  apply Forall_cons_iff in Hcs as [Hh0 Hcs].
  pose proof (isHexDigit_not_space _ Hh0) as Hs0.
  pose proof Hh0 as Hd0. apply isHexDigit_spec in Hd0. unfold hexDigitSpec in Hd0.
  cbn [dropWhile]. rewrite Hs0.
  replace (c0 =? 45) with false by (symmetry; apply Z.eqb_neq; lia).
  replace (c0 =? 43) with false by (symmetry; apply Z.eqb_neq; lia).
  cbn [orb].
  assert (Hrest :
    match c0 :: cs with
    | d0 :: d1 :: rest =>
        if (d0 =? 48) && ((d1 =? 120) || (d1 =? 88)) then rest else c0 :: cs
    | _ => c0 :: cs
    end = c0 :: cs).
  { destruct cs as [|c1 cs']; [reflexivity|].
    apply Forall_cons_iff in Hcs as [Hh1%isHexDigit_spec _].
    unfold hexDigitSpec in Hh1.
    replace (c1 =? 120) with false by (symmetry; apply Z.eqb_neq; lia).
    replace (c1 =? 88) with false by (symmetry; apply Z.eqb_neq; lia).
    now rewrite andb_false_r. }
  rewrite Hrest, hexPrefix_hex by assumption.
  simpl. f_equal. now destruct (fold_left _ cs _).
Qed.

(** The three bytes of [r8*65536 + g8*256 + b8], by shift and mask. *)
Lemma bytes_of_packed (r8 g8 b8 : Z) :
  0 <= r8 <= 255 -> 0 <= g8 <= 255 -> 0 <= b8 <= 255 ->
  let v := numberToInt32 (Some (r8 * 65536 + g8 * 256 + b8)) in
  and32 (sar32 v 16) 255 = r8 /\ and32 (sar32 v 8) 255 = g8 /\ and32 v 255 = b8.
Proof.
  intros Hr Hg Hb. unfold numberToInt32. cbn [from_option Datatypes.id].
  set (v := r8 * 65536 + g8 * 256 + b8).
  assert (Hsmall : toInt32 v = v) by (apply toInt32_small; subst v; lia).
  cbv zeta. rewrite Hsmall. split; [|split].
  - rewrite byte_of_int by (subst v; reflexivity || lia).
    change (2 ^ 16) with 65536.
    replace (v / 65536) with r8
      by (apply (Z.div_unique v 65536 r8 (g8 * 256 + b8)); subst v; lia).
    apply Z.mod_small. lia.
  - rewrite byte_of_int by (subst v; reflexivity || lia).
    change (2 ^ 8) with 256.
    replace (v / 256) with (r8 * 256 + g8)
      by (apply (Z.div_unique v 256 (r8 * 256 + g8) b8); subst v; lia).
    symmetry. apply (Z.mod_unique _ 256 r8 g8); lia.
  - unfold and32. change (toInt32 255) with (Z.ones 8).
    rewrite !Hsmall, Z.land_ones by lia. symmetry.
    apply (Z.mod_unique _ (2 ^ 8) (r8 * 256 + g8) b8); subst v; lia.
Qed.

Lemma hexToRgb_six (a b c d e f : Z) :
  Forall (fun x => isHexDigit x = true) [a; b; c; d; e; f] ->
  hexToRgb [35; a; b; c; d; e; f]
  = Some (mkRGB (inject_Z (16 * hexVal a + hexVal b))
                (inject_Z (16 * hexVal c + hexVal d))
                (inject_Z (16 * hexVal e + hexVal f))).
Proof.
  intros Hall.
  assert (Htest : hexColorRegex_test [35; a; b; c; d; e; f] = true).
  { apply hexColorRegex_test_spec. exists [a; b; c; d; e; f].
    split; [reflexivity|]. split; [now right|].
    eapply Forall_impl; [exact Hall|]. intros x Hx. now apply isHexDigit_spec. }
  unfold hexToRgb. rewrite Htest. cbn [negb List.tl].
  change (Z.of_nat (List.length [a; b; c; d; e; f]) =? 3) with false. cbv iota.
  rewrite parseInt16_hex by (assumption || discriminate).
  cbn [fold_left].
  pose proof (hexVal_range a). pose proof (hexVal_range b). pose proof (hexVal_range c).
  pose proof (hexVal_range d). pose proof (hexVal_range e). pose proof (hexVal_range f).
  replace ((((((0 * 16 + hexVal a) * 16 + hexVal b) * 16 + hexVal c) * 16 + hexVal d) * 16
           + hexVal e) * 16 + hexVal f)
    with ((16 * hexVal a + hexVal b) * 65536 + (16 * hexVal c + hexVal d) * 256
          + (16 * hexVal e + hexVal f)) by lia.
  destruct (bytes_of_packed (16 * hexVal a + hexVal b) (16 * hexVal c + hexVal d)
              (16 * hexVal e + hexVal f)) as (Hr & Hg & Hb); try lia.
  cbv zeta in Hr, Hg, Hb. now rewrite Hr, Hg, Hb.
Qed.

(** X1. [hexToRgb] reads a six-digit colour two digits per channel, high
    digit first, and a three-digit colour as if every digit were doubled (so
    each channel is 17 times its digit); upper-case and lower-case digits
    count the same. *)
Theorem hexToRgb_channels :
  forall a b c d e f : Z,
    hexDigitSpec a -> hexDigitSpec b -> hexDigitSpec c ->
    hexDigitSpec d -> hexDigitSpec e -> hexDigitSpec f ->
    hexToRgb [35; a; b; c; d; e; f]
    = Some (mkRGB (inject_Z (16 * hexVal a + hexVal b))
                  (inject_Z (16 * hexVal c + hexVal d))
                  (inject_Z (16 * hexVal e + hexVal f)))
    /\ hexToRgb [35; a; b; c]
       = Some (mkRGB (inject_Z (17 * hexVal a)) (inject_Z (17 * hexVal b))
                     (inject_Z (17 * hexVal c)))
    /\ hexToRgb [35; a; b; c] = hexToRgb [35; a; a; b; b; c; c]
    /\ (0 <= hexVal a < 16 /\ hexVal (lowerHexDigit a) = hexVal a).
Proof.
  intros a b c d e f Ha Hb Hc Hd He Hf.
  apply isHexDigit_spec in Ha, Hb, Hc, Hd, He, Hf.
  assert (H3 : hexToRgb [35; a; b; c] = hexToRgb [35; a; a; b; b; c; c]).
  { unfold hexToRgb.
    replace (hexColorRegex_test [35; a; b; c]) with true.
    - replace (hexColorRegex_test [35; a; a; b; b; c; c]) with true; [reflexivity|].
      symmetry. apply hexColorRegex_test_spec. exists [a; a; b; b; c; c].
      split; [reflexivity|]. split; [now right|].
      repeat (apply List.Forall_cons; [now apply isHexDigit_spec|]). apply List.Forall_nil.
    - symmetry. apply hexColorRegex_test_spec. exists [a; b; c].
      split; [reflexivity|]. split; [now left|].
      repeat (apply List.Forall_cons; [now apply isHexDigit_spec|]). apply List.Forall_nil. }
  split; [apply hexToRgb_six; repeat constructor; assumption|].
  split; [|split; [exact H3 | ] ].
  - rewrite H3, hexToRgb_six by (repeat constructor; assumption).
    repeat f_equal; lia.
  - split; [apply hexVal_range|].
    unfold lowerHexDigit. pose proof (digitChar_hex _ (hexVal_range a)) as [_ Hv].
    unfold hexVal at 1. now rewrite Hv.
Qed.

(** "#0a1B2c" and "#0a1". *)
Lemma hexToRgb_channels_witness :
  hexToRgb (js "#0a1B2c") = Some (mkRGB 10 27 44)
  /\ hexToRgb (js "#0a1") = Some (mkRGB 0 170 17).
Proof.
  assert (Hd : forall x, In x (js "0a1B2c") -> hexDigitSpec x).
  { intros x Hx. apply isHexDigit_spec.
    repeat (destruct Hx as [<-|Hx]; [reflexivity|]). destruct Hx. }
  destruct (hexToRgb_channels 48 97 49 66 50 99) as (H6 & H3 & _);
    try (apply Hd; simpl; tauto).
  split; [exact H6|exact H3].
Defined.

(** ** rgbToHex on any triple *)

Lemma clampByte_range (n : Z) : 0 <= clampByte n <= 255.
Proof. unfold clampByte. lia. Qed.

Lemma twoHexDigits_nibbles (v : Z) :
  0 <= v <= 255 ->
  twoHexDigits v = [digitChar (v / 16); digitChar (v mod 16)]
  /\ isHexDigit (digitChar (v / 16)) = true /\ isHexDigit (digitChar (v mod 16)) = true
  /\ 16 * hexVal (digitChar (v / 16)) + hexVal (digitChar (v mod 16)) = v.
Proof.
  intros Hv. destruct (nibbles_range v Hv) as [Hhi Hlo].
  destruct (digitChar_hex _ Hhi) as [Hh1 Hv1].
  destruct (digitChar_hex _ Hlo) as [Hh2 Hv2].
  repeat split; try assumption.
  unfold hexVal. rewrite Hv1, Hv2. cbn [from_option Datatypes.id].
  pose proof (Z.div_mod v 16 ltac:(lia)). lia.
Qed.

Lemma rgbToHex_bytes (rgb : RGB) :
  rgbToHex rgb
  = 35 :: twoHexDigits (roundedByte (r rgb)) ++ twoHexDigits (roundedByte (g rgb))
       ++ twoHexDigits (roundedByte (b rgb)).
Proof.
  unfold rgbToHex, roundedByte. now rewrite !componentToHex_round.
Qed.

Lemma rgbToHex_parses (rgb : RGB) :
  hexToRgb (rgbToHex rgb)
  = Some (mkRGB (inject_Z (roundedByte (r rgb))) (inject_Z (roundedByte (g rgb)))
                (inject_Z (roundedByte (b rgb))))
  /\ List.length (rgbToHex rgb) = 7%nat
  /\ matchesHexPattern (rgbToHex rgb).
Proof.
  pose proof (clampByte_range (Qfloor (r rgb + (1 # 2)))) as Hr.
  pose proof (clampByte_range (Qfloor (g rgb + (1 # 2)))) as Hg.
  pose proof (clampByte_range (Qfloor (b rgb + (1 # 2)))) as Hb.
  fold (roundedByte (r rgb)) in Hr. fold (roundedByte (g rgb)) in Hg.
  fold (roundedByte (b rgb)) in Hb.
  destruct (twoHexDigits_nibbles _ Hr) as (Er & Hr1 & Hr2 & Vr).
  destruct (twoHexDigits_nibbles _ Hg) as (Eg & Hg1 & Hg2 & Vg).
  destruct (twoHexDigits_nibbles _ Hb) as (Eb & Hb1 & Hb2 & Vb).
  assert (Hsix : hexToRgb (rgbToHex rgb)
                 = Some (mkRGB (inject_Z (roundedByte (r rgb)))
                               (inject_Z (roundedByte (g rgb)))
                               (inject_Z (roundedByte (b rgb))))).
  { rewrite rgbToHex_bytes, Er, Eg, Eb. cbn [app].
    rewrite hexToRgb_six by (repeat (apply List.Forall_cons; [assumption|]); apply List.Forall_nil).
    now rewrite Vr, Vg, Vb. }
  split; [exact Hsix|]. split.
  - now rewrite rgbToHex_bytes, Er, Eg, Eb.
  - apply hexColorRegex_test_spec.
    destruct (hexColorRegex_test (rgbToHex rgb)) eqn:Htest; [reflexivity|].
    unfold hexToRgb in Hsix. rewrite Htest in Hsix. discriminate.
Qed.

Lemma roundedByte_byte (v : Z) : 0 <= v <= 255 -> roundedByte (inject_Z v) = v.
Proof.
  intros Hv. unfold roundedByte, clampByte.
  replace (Qfloor (inject_Z v + (1 # 2))) with v; [lia|].
  unfold Qfloor, Qplus, inject_Z. cbn [Qnum Qden].
  apply (Z.div_unique _ _ v 1); lia.
Qed.

(** X2. Whatever the channels are (fractions, negatives, values above 255),
    [rgbToHex] prints a colour of the hex pattern, seven units long, and
    [hexToRgb] reads back each channel rounded to the nearest integer (a tie
    going up) and clamped to [0, 255]. *)
Theorem hexToRgb_rgbToHex_rounds :
  forall rgb : RGB,
    matchesHexPattern (rgbToHex rgb)
    /\ List.length (rgbToHex rgb) = 7%nat
    /\ hexToRgb (rgbToHex rgb)
       = Some (mkRGB (inject_Z (roundedByte (r rgb))) (inject_Z (roundedByte (g rgb)))
                     (inject_Z (roundedByte (b rgb))))
    /\ (forall x : Q,
           0 <= roundedByte x <= 255
           /\ ((x < 0)%Q -> roundedByte x = 0)
           /\ ((255 <= x)%Q -> roundedByte x = 255)
           /\ ((0 <= x <= 255)%Q -> nearestInteger x (roundedByte x))).
Proof.
  intros rgb. destruct (rgbToHex_parses rgb) as (Hback & Hlen & Hvalid).
  repeat (split; [assumption|]).
  intros x. unfold roundedByte.
  pose proof (Qfloor_le (x + (1 # 2))) as Hlo.
  pose proof (Qlt_floor (x + (1 # 2))) as Hhi.
  split; [apply clampByte_range|]. split; [|split].
  - intros Hneg. unfold clampByte.
    assert (Qfloor (x + (1 # 2)) < 1); [|lia].
    rewrite Zlt_Qlt. eapply Qle_lt_trans; [exact Hlo|].
    change (inject_Z 1) with 1%Q. lra.
  - intros Hbig. unfold clampByte.
    assert (255 <= Qfloor (x + (1 # 2))); [|lia].
    apply Z.lt_succ_r. rewrite Zlt_Qlt.
    eapply Qle_lt_trans; [|exact Hhi]. change (inject_Z 255) with 255%Q. lra.
  - intros [H0 H255]. unfold clampByte.
    assert (0 <= Qfloor (x + (1 # 2)) <= 255).
    { split.
      - apply Z.lt_succ_r. rewrite Zlt_Qlt.
        eapply Qle_lt_trans; [|exact Hhi]. change (inject_Z 0) with 0%Q. lra.
      - apply Z.lt_succ_r. rewrite Zlt_Qlt.
        eapply Qle_lt_trans; [exact Hlo|]. change (inject_Z (Z.succ 255)) with 256%Q. lra. }
    replace (Z.min (Z.max (Qfloor (x + (1 # 2))) 0) 255) with (Qfloor (x + (1 # 2))) by lia.
    apply round_nearest.
Qed.

Lemma canonicalHex_six (a b c d e f : Z) :
  canonicalHex [35; a; b; c; d; e; f]
  = [35; lowerHexDigit a; lowerHexDigit b; lowerHexDigit c;
     lowerHexDigit d; lowerHexDigit e; lowerHexDigit f].
Proof. reflexivity. Qed.

Lemma canonicalHex_three (a b c : Z) :
  canonicalHex [35; a; b; c] = canonicalHex [35; a; a; b; b; c; c].
Proof. reflexivity. Qed.

Lemma rgbToHex_packed (x1 y1 x2 y2 x3 y3 : Z) :
  0 <= x1 < 16 -> 0 <= y1 < 16 -> 0 <= x2 < 16 -> 0 <= y2 < 16 ->
  0 <= x3 < 16 -> 0 <= y3 < 16 ->
  rgbToHex (mkRGB (inject_Z (16 * x1 + y1)) (inject_Z (16 * x2 + y2))
                  (inject_Z (16 * x3 + y3)))
  = [35; digitChar x1; digitChar y1; digitChar x2; digitChar y2; digitChar x3; digitChar y3].
Proof.
  intros. unfold rgbToHex. cbn [r g b].
  rewrite !componentToHex_byte by lia.
  replace ((16 * x1 + y1) / 16) with x1 by (apply (Z.div_unique _ 16 x1 y1); lia).
  replace ((16 * x2 + y2) / 16) with x2 by (apply (Z.div_unique _ 16 x2 y2); lia).
  replace ((16 * x3 + y3) / 16) with x3 by (apply (Z.div_unique _ 16 x3 y3); lia).
  replace ((16 * x1 + y1) mod 16) with y1 by (apply (Z.mod_unique _ 16 x1 y1); lia).
  replace ((16 * x2 + y2) mod 16) with y2 by (apply (Z.mod_unique _ 16 x2 y2); lia).
  replace ((16 * x3 + y3) mod 16) with y3 by (apply (Z.mod_unique _ 16 x3 y3); lia).
  reflexivity.
Qed.

(** A colour of the pattern parses to whole channels in [0, 255], and
    printing them gives its canonical spelling. *)
Lemma hexToRgb_canonical (hex : HexColor) :
  matchesHexPattern hex ->
  exists r8 g8 b8 : Z,
    0 <= r8 <= 255 /\ 0 <= g8 <= 255 /\ 0 <= b8 <= 255
    /\ hexToRgb hex = Some (mkRGB (inject_Z r8) (inject_Z g8) (inject_Z b8))
    /\ rgbToHex (mkRGB (inject_Z r8) (inject_Z g8) (inject_Z b8)) = canonicalHex hex.
Proof.
  intros (digits & -> & Hlen & Hall).
  assert (Hsix : forall a b c d e f,
             Forall hexDigitSpec [a; b; c; d; e; f] ->
             exists r8 g8 b8 : Z,
               0 <= r8 <= 255 /\ 0 <= g8 <= 255 /\ 0 <= b8 <= 255
               /\ hexToRgb [35; a; b; c; d; e; f]
                  = Some (mkRGB (inject_Z r8) (inject_Z g8) (inject_Z b8))
               /\ rgbToHex (mkRGB (inject_Z r8) (inject_Z g8) (inject_Z b8))
                  = canonicalHex [35; a; b; c; d; e; f]).
  { intros a b c d e f Hd.
    assert (Hd' : Forall (fun x => isHexDigit x = true) [a; b; c; d; e; f]).
    { eapply Forall_impl; [exact Hd|]. intros x Hx. now apply isHexDigit_spec. }
    pose proof (hexVal_range a). pose proof (hexVal_range b). pose proof (hexVal_range c).
    pose proof (hexVal_range d). pose proof (hexVal_range e). pose proof (hexVal_range f).
    exists (16 * hexVal a + hexVal b), (16 * hexVal c + hexVal d), (16 * hexVal e + hexVal f).
    repeat (split; [lia|]). split; [now apply hexToRgb_six|].
    rewrite rgbToHex_packed by assumption. now rewrite canonicalHex_six. }
  destruct Hlen as [Hlen|Hlen];
    repeat (destruct digits as [|? digits]; try discriminate Hlen).
  - assert (Hd6 : Forall hexDigitSpec [z; z; z0; z0; z1; z1]).
    { apply Forall_cons_iff in Hall as [H0 Hall].
      apply Forall_cons_iff in Hall as [H1 Hall].
      apply Forall_cons_iff in Hall as [H2 _].
      repeat (apply List.Forall_cons; [assumption|]). apply List.Forall_nil. }
    destruct (Hsix _ _ _ _ _ _ Hd6) as (r8 & g8 & b8 & Hr & Hg & Hb & Hparse & Hprint).
    exists r8, g8, b8. repeat (split; [assumption|]). split.
    + rewrite <- Hparse. unfold hexToRgb.
      replace (hexColorRegex_test [35; z; z0; z1]) with true.
      * replace (hexColorRegex_test [35; z; z; z0; z0; z1; z1]) with true; [reflexivity|].
        symmetry. apply hexColorRegex_test_spec. exists [z; z; z0; z0; z1; z1].
        split; [reflexivity|]. split; [now right|assumption].
      * symmetry. apply hexColorRegex_test_spec. exists [z; z0; z1].
        split; [reflexivity|]. split; [now left|assumption].
    + now rewrite canonicalHex_three.
  - now apply Hsix.
Qed.

(** X3. Parsing a hex colour and printing it again gives its canonical
    spelling: six lower-case digits of the same values, a three-digit colour
    with every digit doubled.  The canonical spelling parses to the same
    channels and is its own canonical spelling. *)
Theorem rgbToHex_hexToRgb_canonical :
  forall hex : HexColor,
    matchesHexPattern hex ->
    exists rgb : RGB,
      hexToRgb hex = Some rgb
      /\ rgbToHex rgb = canonicalHex hex
      /\ hexToRgb (canonicalHex hex) = Some rgb
      /\ canonicalHex (canonicalHex hex) = canonicalHex hex
      /\ List.length (canonicalHex hex) = 7%nat.
Proof.
  intros hex Hpat.
  destruct (hexToRgb_canonical hex Hpat) as (r8 & g8 & b8 & Hr & Hg & Hb & Hparse & Hprint).
  exists (mkRGB (inject_Z r8) (inject_Z g8) (inject_Z b8)).
  split; [assumption|]. split; [assumption|].
  destruct (rgbToHex_parses (mkRGB (inject_Z r8) (inject_Z g8) (inject_Z b8)))
    as (Hback & Hlen & Hvalid).
  cbn [r g b] in Hback. rewrite !roundedByte_byte in Hback by assumption.
  rewrite Hprint in Hback, Hlen, Hvalid.
  split; [assumption|]. split; [|assumption].
  destruct (hexToRgb_canonical _ Hvalid) as (r' & g' & b' & _ & _ & _ & Hparse' & Hprint').
  rewrite Hback in Hparse'. unfold inject_Z in Hparse', Hprint'.
  injection Hparse' as -> -> ->.
  now rewrite <- Hprint'.
Qed.

(** "#FA3" is "#ffaa33". *)
Lemma rgbToHex_hexToRgb_canonical_witness :
  canonicalHex (js "#FA3") = js "#ffaa33"
  /\ exists rgb, hexToRgb (js "#FA3") = Some rgb /\ rgbToHex rgb = js "#ffaa33".
Proof.
  split; [vm_compute; reflexivity|].
  destruct (rgbToHex_hexToRgb_canonical (js "#FA3")) as (rgb & Hparse & Hprint & _).
  - exists (js "FA3"). split; [reflexivity|]. split; [now left|].
    repeat (apply List.Forall_cons; [unfold hexDigitSpec; simpl; lia|]). apply List.Forall_nil.
  - exists rgb. split; [exact Hparse|]. rewrite Hprint. vm_compute. reflexivity.
Defined.

(** ** mixHexColors: closure, end points, bounds *)

Lemma mixHexColors_parsed (color mixWith : HexColor) (weight : Q) (rgbBase rgbMix : RGB) :
  hexToRgb color = Some rgbBase -> hexToRgb mixWith = Some rgbMix ->
  mixHexColors color mixWith weight
  = rgbToHex (mkRGB (mixChannel (r rgbBase) (r rgbMix) (clamp (binary64 weight) 0 1))
                    (mixChannel (g rgbBase) (g rgbMix) (clamp (binary64 weight) 0 1))
                    (mixChannel (b rgbBase) (b rgbMix) (clamp (binary64 weight) 0 1))).
Proof.
  intros Hbase Hmix. unfold mixHexColors. now rewrite Hbase, Hmix.
Qed.

Lemma round_between (x : Q) (lo hi : Z) :
  (inject_Z lo <= x <= inject_Z hi)%Q -> lo <= Qfloor (x + (1 # 2)) <= hi.
Proof.
  intros [Hlo Hhi].
  pose proof (Qfloor_le (x + (1 # 2))) as Hfl.
  pose proof (Qlt_floor (x + (1 # 2))) as Hfu.
  split; apply Z.lt_succ_r; rewrite Zlt_Qlt.
  - eapply Qle_lt_trans; [|exact Hfu]. lra.
  - eapply Qle_lt_trans; [exact Hfl|].
    unfold Z.succ. rewrite inject_Z_plus. change (inject_Z 1) with 1%Q. lra.
Qed.

Lemma interpolate_between (a b : Z) (t : Q) :
  (0 <= t <= 1)%Q ->
  (inject_Z (Z.min a b) <= interpolate (inject_Z a) (inject_Z b) t
   <= inject_Z (Z.max a b))%Q.
Proof.
  intros [Ht0 Ht1]. unfold interpolate.
  destruct (Z.le_gt_cases a b) as [Hab|Hab].
  - rewrite Z.min_l, Z.max_r by lia.
    assert (Hq : (inject_Z a <= inject_Z b)%Q) by now rewrite <- Zle_Qle.
    split; nra.
  - rewrite Z.min_r, Z.max_l by lia.
    assert (Hq : (inject_Z b <= inject_Z a)%Q) by (rewrite <- Zle_Qle; lia).
    split; nra.
Qed.

(** A value within [mixError] of a number between two bytes rounds to a
    byte between them. *)
Lemma roundedByte_near (x E : Q) (lo hi : Z) :
  0 <= lo -> hi <= 255 ->
  (Qabs (x - E) <= mixError)%Q -> (inject_Z lo <= E <= inject_Z hi)%Q ->
  lo <= roundedByte x <= hi.
Proof.
  intros Hlo Hhi Hnear [HE1 HE2].
  apply Qabs_Qle_condition in Hnear.
  assert (H9 : (mixError == 1 # 1000000000)%Q) by reflexivity.
  rewrite H9 in Hnear.
  pose proof (Qfloor_le (x + (1 # 2))) as Hfl.
  pose proof (Qlt_floor (x + (1 # 2))) as Hfu.
  assert (Hround : lo <= Qfloor (x + (1 # 2)) <= hi).
  { split; apply Z.lt_succ_r; rewrite Zlt_Qlt.
    - eapply Qle_lt_trans; [|exact Hfu]. lra.
    - eapply Qle_lt_trans; [exact Hfl|].
      unfold Z.succ. rewrite inject_Z_plus. change (inject_Z 1) with 1%Q. lra. }
  unfold roundedByte, clampByte. lia.
Qed.

Lemma mixedByte_between (a b : Z) (t : Q) :
  0 <= a <= 255 -> 0 <= b <= 255 -> (0 <= t <= 1)%Q ->
  Z.min a b <= roundedByte (mixChannel (inject_Z a) (inject_Z b) t) <= Z.max a b.
Proof.
  intros Ha Hb Ht.
  apply (roundedByte_near _ (interpolate (inject_Z a) (inject_Z b) t)); try lia.
  - now apply mix_channel_error.
  - now apply interpolate_between.
Qed.

Lemma mixedByte_exact (a b k : Z) (t : Q) :
  0 <= a <= 255 -> 0 <= b <= 255 -> (0 <= t <= 1)%Q -> 0 <= k <= 255 ->
  (interpolate (inject_Z a) (inject_Z b) t == inject_Z k)%Q ->
  roundedByte (mixChannel (inject_Z a) (inject_Z b) t) = k.
Proof.
  intros Ha Hb Ht Hk Hexact.
  assert (k <= roundedByte (mixChannel (inject_Z a) (inject_Z b) t) <= k); [|lia].
  apply (roundedByte_near _ (interpolate (inject_Z a) (inject_Z b) t)); try lia.
  - now apply mix_channel_error.
  - rewrite Hexact. split; apply Qle_refl.
Qed.

Lemma rgbToHex_rounded (x : RGB) (r8 g8 b8 : Z) :
  0 <= r8 <= 255 -> 0 <= g8 <= 255 -> 0 <= b8 <= 255 ->
  roundedByte (r x) = r8 -> roundedByte (g x) = g8 -> roundedByte (b x) = b8 ->
  rgbToHex x = rgbToHex (mkRGB (inject_Z r8) (inject_Z g8) (inject_Z b8)).
Proof.
  intros Hr Hg Hb Er Eg Eb. rewrite !rgbToHex_bytes. cbn [r g b].
  now rewrite !roundedByte_byte, Er, Eg, Eb by assumption.
Qed.

Lemma roundedByte_Qeq (x y : Q) : (x == y)%Q -> roundedByte x = roundedByte y.
Proof.
  intros Hxy. unfold roundedByte. now rewrite Hxy.
Qed.

Lemma rgbToHex_Qeq (x y : RGB) :
  (r x == r y)%Q -> (g x == g y)%Q -> (b x == b y)%Q -> rgbToHex x = rgbToHex y.
Proof.
  intros Hr Hg Hb. rewrite !rgbToHex_bytes.
  now rewrite (roundedByte_Qeq _ _ Hr), (roundedByte_Qeq _ _ Hg), (roundedByte_Qeq _ _ Hb).
Qed.

Lemma matchesHexPattern_dec (s : jsstring) : matchesHexPattern s \/ ~ matchesHexPattern s.
Proof.
  destruct (hexColorRegex_test s) eqn:Htest.
  - left. now apply hexColorRegex_test_spec.
  - right. now apply hexColorRegex_test_false.
Qed.

(** X4. [mixHexColors] never leaves the hex colours: when the base colour is
    of the hex pattern so is the result (seven units long when the other
    colour parses too); when either colour is not of the pattern the base
    colour comes back unchanged. *)
Theorem mixHexColors_closed :
  forall (color mixWith : HexColor) (weight : Q),
    (matchesHexPattern color -> matchesHexPattern (mixHexColors color mixWith weight))
    /\ (matchesHexPattern color -> matchesHexPattern mixWith ->
        List.length (mixHexColors color mixWith weight) = 7%nat)
    /\ (~ matchesHexPattern color \/ ~ matchesHexPattern mixWith ->
        mixHexColors color mixWith weight = color).
Proof.
  intros color mixWith weight.
  assert (Hfail : ~ matchesHexPattern color \/ ~ matchesHexPattern mixWith ->
                  mixHexColors color mixWith weight = color).
  { intros [Hc|Hm]; unfold mixHexColors.
    - now rewrite (hexToRgb_None color Hc).
    - rewrite (hexToRgb_None mixWith Hm). now destruct (hexToRgb color). }
  assert (Hboth : matchesHexPattern color -> matchesHexPattern mixWith ->
                  matchesHexPattern (mixHexColors color mixWith weight)
                  /\ List.length (mixHexColors color mixWith weight) = 7%nat).
  { intros Hc Hm.
    destruct (hexToRgb_Some color Hc) as (r1 & g1 & b1 & _ & _ & _ & Hbase).
    destruct (hexToRgb_Some mixWith Hm) as (r2 & g2 & b2 & _ & _ & _ & Hmix).
    rewrite (mixHexColors_parsed _ _ weight _ _ Hbase Hmix).
    destruct (rgbToHex_parses
                (mkRGB (mixChannel (inject_Z r1) (inject_Z r2) (clamp (binary64 weight) 0 1))
                       (mixChannel (inject_Z g1) (inject_Z g2) (clamp (binary64 weight) 0 1))
                       (mixChannel (inject_Z b1) (inject_Z b2) (clamp (binary64 weight) 0 1))))
      as (_ & Hlen & Hvalid).
    now split. }
  split; [|split; [|exact Hfail] ].
  - intros Hc. destruct (matchesHexPattern_dec mixWith) as [Hm|Hm].
    + now apply Hboth.
    + rewrite Hfail by now right. exact Hc.
  - intros Hc Hm. now apply Hboth.
Qed.

(** X5. With both colours of the hex pattern: a weight of 0 or less gives the
    base colour and a weight of 1 or more gives the other colour, each in its
    canonical six-digit lower-case spelling; mixing a colour with itself
    gives that colour at every weight. *)
Theorem mixHexColors_endpoints :
  forall (color mixWith : HexColor) (weight : Q),
    matchesHexPattern color ->
    matchesHexPattern mixWith ->
    ((weight <= 0)%Q -> mixHexColors color mixWith weight = canonicalHex color)
    /\ ((1 <= weight)%Q -> mixHexColors color mixWith weight = canonicalHex mixWith)
    /\ mixHexColors color color weight = canonicalHex color.
Proof.
  intros color mixWith weight Hc Hm.
  destruct (hexToRgb_canonical color Hc) as (r1 & g1 & b1 & Hr1 & Hg1 & Hb1 & Hbase & Hprint1).
  destruct (hexToRgb_canonical mixWith Hm) as (r2 & g2 & b2 & Hr2 & Hg2 & Hb2 & Hmix & Hprint2).
  destruct (mix_ratio weight) as (Hrange & _ & Hlow & Hhigh).
  split; [|split].
  - intros Hw. rewrite (mixHexColors_parsed _ _ weight _ _ Hbase Hmix), <- Hprint1.
    specialize (Hlow Hw).
    apply rgbToHex_rounded; try assumption; cbn [r g b];
      apply mixedByte_exact; try assumption; unfold interpolate; rewrite Hlow; ring.
  - intros Hw. rewrite (mixHexColors_parsed _ _ weight _ _ Hbase Hmix), <- Hprint2.
    specialize (Hhigh Hw).
    apply rgbToHex_rounded; try assumption; cbn [r g b];
      apply mixedByte_exact; try assumption; unfold interpolate; rewrite Hhigh; ring.
  - rewrite (mixHexColors_parsed _ _ weight _ _ Hbase Hbase), <- Hprint1.
    apply rgbToHex_rounded; try assumption; cbn [r g b];
      apply mixedByte_exact; try assumption; unfold interpolate; ring.
Qed.

(** "#ABC" mixed with white at weight 0 and at weight 3. *)
Lemma mixHexColors_endpoints_witness :
  mixHexColors (js "#ABC") (js "#ffffff") 0 = js "#aabbcc"
  /\ mixHexColors (js "#ABC") (js "#ffffff") 3 = js "#ffffff".
Proof.
  assert (Hc : matchesHexPattern (js "#ABC")).
  { exists (js "ABC"). split; [reflexivity|]. split; [now left|].
    repeat (apply List.Forall_cons; [unfold hexDigitSpec; simpl; lia|]). apply List.Forall_nil. }
  assert (Hm : matchesHexPattern (js "#ffffff")).
  { exists (js "ffffff"). split; [reflexivity|]. split; [now right|].
    repeat (apply List.Forall_cons; [unfold hexDigitSpec; simpl; lia|]). apply List.Forall_nil. }
  destruct (mixHexColors_endpoints (js "#ABC") (js "#ffffff") 0 Hc Hm) as (H0 & _ & _).
  destruct (mixHexColors_endpoints (js "#ABC") (js "#ffffff") 3 Hc Hm) as (_ & H1 & _).
  split.
  - rewrite H0 by discriminate. vm_compute. reflexivity.
  - rewrite H1 by discriminate. vm_compute. reflexivity.
Defined.

(** X6. Every channel of a mix lies between the same channel of the two
    colours mixed, whatever the weight: mixing never leaves the range the two
    colours span. *)
Theorem mixHexColors_between :
  forall (color mixWith : HexColor) (weight : Q),
    matchesHexPattern color ->
    matchesHexPattern mixWith ->
    exists r1 g1 b1 r2 g2 b2 r3 g3 b3 : Z,
      hexToRgb color = Some (mkRGB (inject_Z r1) (inject_Z g1) (inject_Z b1))
      /\ hexToRgb mixWith = Some (mkRGB (inject_Z r2) (inject_Z g2) (inject_Z b2))
      /\ hexToRgb (mixHexColors color mixWith weight)
         = Some (mkRGB (inject_Z r3) (inject_Z g3) (inject_Z b3))
      /\ Z.min r1 r2 <= r3 <= Z.max r1 r2
      /\ Z.min g1 g2 <= g3 <= Z.max g1 g2
      /\ Z.min b1 b2 <= b3 <= Z.max b1 b2.
Proof.
  intros color mixWith weight Hc Hm.
  destruct (hexToRgb_Some color Hc) as (r1 & g1 & b1 & Hr1 & Hg1 & Hb1 & Hbase).
  destruct (hexToRgb_Some mixWith Hm) as (r2 & g2 & b2 & Hr2 & Hg2 & Hb2 & Hmix).
  destruct (mix_ratio weight) as (Hrange & _).
  exists r1, g1, b1, r2, g2, b2. eexists _, _, _.
  split; [exact Hbase|]. split; [exact Hmix|].
  rewrite (mixHexColors_parsed _ _ weight _ _ Hbase Hmix).
  split; [apply rgbToHex_parses|]. cbn [r g b].
  repeat split; apply mixedByte_between; assumption.
Qed.

(** The palette orange lightened with white: no channel leaves the range
    between the orange and 255. *)
Lemma mixHexColors_between_witness :
  hexToRgb (mixHexColors (js "#f97316") (js "#ffffff") (35 # 100))
  = Some (mkRGB 251 164 104)
  /\ exists r1 g1 b1 r3 g3 b3 : Z,
       hexToRgb (js "#f97316") = Some (mkRGB (inject_Z r1) (inject_Z g1) (inject_Z b1))
       /\ hexToRgb (mixHexColors (js "#f97316") (js "#ffffff") (35 # 100))
          = Some (mkRGB (inject_Z r3) (inject_Z g3) (inject_Z b3))
       /\ r1 <= r3 <= 255 /\ g1 <= g3 <= 255 /\ b1 <= b3 <= 255.
Proof.
  split; [vm_compute; reflexivity|].
  assert (Hc : matchesHexPattern (js "#f97316")).
  { apply hexColorRegex_test_spec. vm_compute. reflexivity. }
  assert (Hm : matchesHexPattern (js "#ffffff")).
  { apply hexColorRegex_test_spec. vm_compute. reflexivity. }
  destruct (mixHexColors_between (js "#f97316") (js "#ffffff") (35 # 100) Hc Hm)
    as (r1 & g1 & b1 & r2 & g2 & b2 & r3 & g3 & b3 & H1 & H2 & H3 & Hr & Hg & Hb).
  exists r1, g1, b1, r3, g3, b3. split; [exact H1|]. split; [exact H3|].
  assert (Hw : hexToRgb (js "#ffffff") = Some (mkRGB 255 255 255)) by (vm_compute; reflexivity).
  rewrite Hw in H2. unfold inject_Z in H2. injection H2 as <- <- <-.
  assert (Ho : hexToRgb (js "#f97316") = Some (mkRGB 249 115 22)) by (vm_compute; reflexivity).
  rewrite Ho in H1. unfold inject_Z in H1. injection H1 as <- <- <-.
  lia.
Defined.

(** ** pickAccentColor: what it returns and what it avoids *)

Lemma accentPalette_valid (c : HexColor) : c ∈ accentPalette -> matchesHexPattern c.
Proof.
  intros Hin. apply hexColorRegex_test_spec.
  assert (Hall : forallb hexColorRegex_test accentPalette = true) by (vm_compute; reflexivity).
  rewrite forallb_forall in Hall. apply Hall. now apply list_elem_of_In.
Qed.

Lemma probe_step used key offset accent :
  probe used key offset accent
  = if probeGuard used offset accent
    then probe used key (offset + 1) (getAccentColor None key (offset + 1))
    else (offset, accent).
Proof.
  funelim (probe used key offset accent).
  - now rewrite Hguard.
  - now rewrite Hexit.
Qed.

(** Every offset the loop passed over had its colour in the used set. *)
Lemma probe_skipped used key offset accent :
  accent = getAccentColor None key offset ->
  forall k, offset <= k < (probe used key offset accent).1 ->
            getAccentColor None key k ∈ used.
Proof.
  funelim (probe used key offset accent); intros Hacc k Hk.
  - clear H0 Heqcall. unfold probeGuard in Hguard.
    apply andb_prop in Hguard as [Hin%bool_decide_eq_true _].
    destruct (Z.eq_dec k offset) as [->|Hne].
    + now rewrite <- Hacc.
    + apply H; [reflexivity|lia].
  - simpl in Hk. lia.
Qed.

(** The ten offsets reach every palette entry. *)
Lemma palette_reached (key : jsstring) (p : HexColor) :
  p ∈ accentPalette ->
  exists k, 0 <= k <= paletteSize - 1 /\ getAccentColor None key k = Some p.
Proof.
  intros Hin. apply list_elem_of_lookup in Hin as [i Hi].
  pose proof (lookup_lt_Some _ _ _ Hi) as Hlt.
  change (List.length accentPalette) with 10%nat in Hlt.
  set (base := hashString key mod paletteSize).
  exists ((Z.of_nat i - base) mod 10).
  pose proof (Z.mod_pos_bound (Z.of_nat i - base) 10 ltac:(lia)) as Hk.
  split; [rewrite paletteSize_eq; lia|].
  destruct (getAccentColor_fallback None key ((Z.of_nat i - base) mod 10) eq_refl ltac:(lia))
    as (c & Hc & Hidx & _).
  rewrite Hc. f_equal. fold base in Hidx. rewrite paletteSize_eq in Hidx.
  rewrite Z.add_mod_idemp_r in Hidx by lia.
  replace (base + (Z.of_nat i - base)) with (Z.of_nat i) in Hidx by lia.
  rewrite Z.mod_small, Nat2Z.id in Hidx by lia. congruence.
Qed.

(** A post without an explicit colour never repeats a used colour while a
    palette colour is still free. *)
Lemma pickAccentColor_fresh (frontmatter : BlogFrontmatterMeta) (used : UsedColors)
    (free : HexColor) :
  truthy (accentColor frontmatter) = false ->
  free ∈ accentPalette -> Some free ∉ used ->
  (pickAccentColor frontmatter used).1 ∉ used.
Proof.
  intros Hf Hfree Hunused.
  destruct (pickAccentColor_probing frontmatter used Hf)
    as (turns & c & _ & Hprobe & Hle & Hc & _ & Hfull & ->).
  cbn [fst]. intros Hused. specialize (Hfull Hused).
  destruct (palette_reached (title frontmatter) free Hfree) as (k & Hk & Hreach).
  apply Hunused. rewrite <- Hreach.
  destruct (Z.eq_dec k (Z.of_nat turns)) as [->|Hne].
  - now rewrite Hc.
  - apply (probe_skipped used (title frontmatter) 0 _ eq_refl).
    rewrite Hprobe. cbn [fst]. lia.
Qed.

(** X7. Whatever the front matter and the used set, [pickAccentColor]
    returns a colour of the hex pattern, and the set it hands on is the old
    set with that colour added.  The colour is the explicit [accentColor]
    when that is of the hex pattern, and a palette colour when the front
    matter names no colour or one that is not of the pattern. *)
Theorem pickAccentColor_valid_hex :
  forall (frontmatter : BlogFrontmatterMeta) (used : UsedColors),
    exists c : HexColor,
      pickAccentColor frontmatter used = (Some c, {[ Some c ]} ∪ used)
      /\ matchesHexPattern c
      /\ (forall preferred : HexColor,
             accentColor frontmatter = Some preferred ->
             matchesHexPattern preferred -> c = preferred)
      /\ ((accentColor frontmatter = None
           \/ exists preferred : HexColor,
                accentColor frontmatter = Some preferred /\ ~ matchesHexPattern preferred) ->
          c ∈ accentPalette)
      /\ Forall matchesHexPattern accentPalette.
Proof.
  intros frontmatter used.
  assert (Hpal : Forall matchesHexPattern accentPalette)
    by (apply Forall_forall; intros c Hc; now apply accentPalette_valid).
  destruct (truthy (accentColor frontmatter)) eqn:Htruthy.
  - unfold pickAccentColor. rewrite Htruthy. cbv zeta.
    unfold getAccentColor at 1 2. rewrite Htruthy. cbn [andb].
    destruct (accentColor frontmatter) as [preferred|] eqn:Hacc; [|discriminate].
    cbn [from_option Datatypes.id].
    destruct (hexColorRegex_test preferred) eqn:Htest.
    + exists preferred. split; [reflexivity|].
      split; [now apply hexColorRegex_test_spec|]. split; [|split; [|assumption] ].
      * intros preferred' [= <-] _. reflexivity.
      * intros [Hnone|(preferred' & [= <-] & Hbad)]; [discriminate|].
        exfalso. apply Hbad. now apply hexColorRegex_test_spec.
    + destruct (getAccentColor_None_palette (title frontmatter) 0 ltac:(lia))
        as (c & Hc & Hin).
      unfold getAccentColor in Hc. cbn [truthy andb] in Hc. cbv zeta in Hc.
      rewrite Hc. exists c. split; [reflexivity|].
      split; [now apply accentPalette_valid|]. split; [|split; [|assumption] ].
      * intros preferred' [= <-] Hgood%hexColorRegex_test_spec. congruence.
      * intros _. exact Hin.
  - destruct (pickAccentColor_probing frontmatter used Htruthy)
      as (turns & c & _ & _ & _ & _ & Hin & _ & Hpick).
    exists c. split; [assumption|].
    split; [now apply accentPalette_valid|]. split; [|split; [|assumption] ].
    + intros preferred Hacc (digits & -> & _). rewrite Hacc in Htruthy. discriminate.
    + intros _. exact Hin.
Qed.

(** X8. Collision avoidance works while it can: for a post without an
    explicit colour, if some palette colour is not yet in the used set, the
    colour picked is not in the used set either. *)
Theorem pickAccentColor_avoids_used :
  forall (frontmatter : BlogFrontmatterMeta) (used : UsedColors) (free : HexColor),
    truthy (accentColor frontmatter) = false ->
    free ∈ accentPalette ->
    Some free ∉ used ->
    ((pickAccentColor frontmatter used).1 ∉ used)
    /\ ((pickAccentColor frontmatter used).1 ∈ (pickAccentColor frontmatter used).2).
Proof.
  intros frontmatter used free Hf Hfree Hunused.
  split; [now apply (pickAccentColor_fresh frontmatter used free)|].
  destruct (pickAccentColor_probing frontmatter used Hf)
    as (turns & c & _ & _ & _ & _ & _ & _ & ->).
  cbn [fst snd]. apply elem_of_union_l. now apply elem_of_singleton.
Qed.

(** A post titled "a" when the colours of offsets 0 and 1 are taken. *)
Lemma pickAccentColor_avoids_used_witness :
  (pickAccentColor (untitled "a") {[ Some (js "#fb7185"); Some (js "#14b8a6") ]}).1
  = Some (js "#fbbf24")
  /\ (pickAccentColor (untitled "a") {[ Some (js "#fb7185"); Some (js "#14b8a6") ]}).1
     ∉ ({[ Some (js "#fb7185"); Some (js "#14b8a6") ]} : UsedColors).
Proof.
  split; [vm_compute; reflexivity|].
  apply (pickAccentColor_avoids_used (untitled "a") _ (js "#f97316")).
  - reflexivity.
  - apply list_elem_of_In. simpl. tauto.
  - vm_compute. intros H. discriminate H.
Defined.

Lemma accentPalette_NoDup : NoDup accentPalette.
Proof.
  apply NoDup_ListNoDup.
  repeat (apply List.NoDup_cons; [simpl; intros Hin; repeat destruct Hin as [Hin|Hin]; discriminate Hin || exact Hin|]).
  apply List.NoDup_nil.
Qed.

(** While the used set holds fewer than ten colours, a palette colour is free. *)
Lemma palette_free (used : UsedColors) :
  (size used < 10)%nat -> exists p, p ∈ accentPalette /\ Some p ∉ used.
Proof.
  intros Hsize.
  destruct (decide (Forall (fun p => Some p ∈ used) accentPalette)) as [Hall|Hsome].
  - exfalso.
    assert (Hsub : (list_to_set (Some <$> accentPalette) : UsedColors) ⊆ used).
    { intros x Hx. apply elem_of_list_to_set, list_elem_of_fmap in Hx as (p & -> & Hp).
      rewrite Forall_forall in Hall. now apply Hall. }
    apply subseteq_size in Hsub.
    rewrite size_list_to_set in Hsub
      by (apply NoDup_fmap; [intros ? ? [= ->]; reflexivity|apply accentPalette_NoDup]).
    rewrite length_fmap in Hsub. change (List.length accentPalette) with 10%nat in Hsub. lia.
  - apply not_Forall_Exists in Hsome; [|intros p; apply _].
    apply Exists_exists in Hsome as (p & Hp & Hfree). eauto.
Qed.

(** Posts without explicit colours, rendered onto a set with room for all of
    them, get colours that are new to the set and different from each other. *)
Lemma renderAccents_fresh (posts : list BlogFrontmatterMeta) (used : UsedColors) :
  Forall (fun p => truthy (accentColor p) = false) posts ->
  (size used + List.length posts <= 10)%nat ->
  NoDup (renderAccents posts used).1
  /\ Forall (fun a => a ∉ used) (renderAccents posts used).1.
Proof.
  revert used. induction posts as [|p posts IH]; intros used Hall Hroom.
  - split; constructor.
  - apply Forall_cons_iff in Hall as [Hp Hall]. cbn [List.length] in Hroom.
    destruct (palette_free used ltac:(lia)) as (free & Hfree & Hunused).
    pose proof (pickAccentColor_fresh p used free Hp Hfree Hunused) as Hnew.
    destruct (pickAccentColor_probing p used Hp) as (_ & c & _ & _ & _ & _ & _ & _ & Hpick).
    cbn [renderAccents]. rewrite Hpick in Hnew |- *. cbn [fst] in Hnew.
    assert (Hsize : size ({[ Some c ]} ∪ used : UsedColors) = S (size used)).
    { rewrite size_union by (apply disjoint_singleton_l; exact Hnew).
      now rewrite size_singleton. }
    destruct (IH ({[ Some c ]} ∪ used) Hall ltac:(lia)) as [Hnodup Hfresh].
    destruct (renderAccents posts ({[ Some c ]} ∪ used)) as [cs used'].
    cbn [fst] in *. rewrite Forall_forall in Hfresh. split.
    + apply NoDup_cons. split; [|exact Hnodup].
      intros Hin. apply (Hfresh _ Hin). apply elem_of_union_l. now apply elem_of_singleton.
    + apply Forall_cons. split; [exact Hnew|].
      apply Forall_forall. intros a Ha Hused. apply (Hfresh _ Ha).
      now apply elem_of_union_r.
Qed.

(** X9. Up to ten posts without explicit colours, rendered from an empty
    used set, all get different palette colours, whatever their titles. *)
Theorem renderAccents_distinct :
  forall posts : list BlogFrontmatterMeta,
    Forall (fun p => truthy (accentColor p) = false) posts ->
    (List.length posts <= 10)%nat ->
    NoDup (renderAccents posts ∅).1
    /\ List.length (renderAccents posts ∅).1 = List.length posts
    /\ Forall (fun a => exists c, a = Some c /\ c ∈ accentPalette) (renderAccents posts ∅).1.
Proof.
  intros posts Hall Hlen.
  destruct (renderAccents_fresh posts ∅ Hall) as [Hnodup _].
  { rewrite size_empty. lia. }
  destruct (renderAccents_palette posts ∅ Hall) as [Hlength Hpal].
  auto.
Qed.

(** Ten posts of one title use up the whole palette. *)
Lemma renderAccents_distinct_witness :
  NoDup (renderAccents (repeat (untitled "a") 10) ∅).1
  /\ List.length (renderAccents (repeat (untitled "a") 10) ∅).1 = 10%nat.
Proof.
  destruct (renderAccents_distinct (repeat (untitled "a") 10)) as (Hnodup & Hlen & _).
  - repeat (apply List.Forall_cons; [reflexivity|]). apply List.Forall_nil.
  - simpl. lia.
  - split; [exact Hnodup|exact Hlen].
Defined.

(** X10. A post keeps the colour its title hashes to unless that colour is
    taken: with an explicit [accentColor], or when the colour of offset 0 is
    not in the used set (always so for the first post rendered, on the empty
    set), [pickAccentColor] returns [getAccentColor] at offset 0. *)
Theorem pickAccentColor_first_choice :
  forall (frontmatter : BlogFrontmatterMeta) (used : UsedColors),
    (truthy (accentColor frontmatter) = true
     \/ getAccentColor None (title frontmatter) 0 ∉ used) ->
    (pickAccentColor frontmatter used).1
    = getAccentColor (accentColor frontmatter) (title frontmatter) 0
    /\ (pickAccentColor frontmatter ∅).1
       = getAccentColor (accentColor frontmatter) (title frontmatter) 0.
Proof.
  assert (Hgen : forall frontmatter used,
             truthy (accentColor frontmatter) = true
             \/ getAccentColor None (title frontmatter) 0 ∉ used ->
             (pickAccentColor frontmatter used).1
             = getAccentColor (accentColor frontmatter) (title frontmatter) 0).
  { intros frontmatter used Hcase. unfold pickAccentColor.
    destruct (truthy (accentColor frontmatter)) eqn:Htruthy; [reflexivity|].
    destruct Hcase as [Hcase|Hfree]; [discriminate|].
    cbv zeta. rewrite getAccentColor_falsy by assumption.
    rewrite probe_step. unfold probeGuard.
    rewrite bool_decide_eq_false_2 by assumption. reflexivity. }
  intros frontmatter used Hcase. split; [now apply Hgen|].
  apply Hgen.
  destruct (truthy (accentColor frontmatter)); [now left|right].
  apply not_elem_of_empty.
Qed.

(** A post titled "a" on a set that holds another palette colour. *)
Lemma pickAccentColor_first_choice_witness :
  (pickAccentColor (untitled "a") {[ Some (js "#f97316") ]}).1 = Some (js "#fb7185").
Proof.
  destruct (pickAccentColor_first_choice (untitled "a") {[ Some (js "#f97316") ]})
    as [Hfirst _].
  - right. vm_compute. intros H. discriminate H.
  - rewrite Hfirst. vm_compute. reflexivity.
Defined.

(** ** Gradient angles *)

(** X11. The gradient angles derived from a title or an accent colour stay in
    fixed ranges of whole degrees: the cover tilt in [100, 139], the cover
    sweep in [28, 62], the banner tilt in [94, 135], the banner sweep in
    [24, 51]. *)
Theorem gradient_angles_bounded :
  forall (title accentColor : jsstring),
    100 <= coverGradientTilt title <= 139
    /\ 28 <= coverSoftSweep title <= 62
    /\ 94 <= bannerGradientTilt accentColor <= 135
    /\ 24 <= bannerSweepTilt accentColor <= 51.
Proof.
  intros title accentColor.
  unfold coverGradientTilt, coverSoftSweep, bannerGradientTilt, bannerSweepTilt.
  pose proof (Z.rem_bound_pos (hashString title) 40 (hashString_nonneg _) ltac:(lia)).
  pose proof (Z.rem_bound_pos (hashString (title ++ js "-sweep")) 35
                (hashString_nonneg _) ltac:(lia)).
  pose proof (Z.rem_bound_pos (hashString (accentColor ++ js "-banner")) 42
                (hashString_nonneg _) ltac:(lia)).
  pose proof (Z.rem_bound_pos (hashString (accentColor ++ js "-sweep")) 28
                (hashString_nonneg _) ltac:(lia)).
  lia.
Qed.

(** ** getLuminance *)

Lemma Rpower_unit (x y : R) : (0 < x <= 1)%R -> (0 <= y)%R -> (0 < Rpower x y <= 1)%R.
Proof.
  intros [Hpos Hle] Hy. unfold Rpower. split; [apply exp_pos|].
  rewrite <- exp_0.
  assert (Hln : (ln x <= 0)%R).
  { rewrite <- ln_1. destruct Hle as [Hlt| ->]; [|apply Rle_refl].
    left. now apply ln_increasing. }
  assert (Harg : (y * ln x <= 0)%R) by nra.
  destruct Harg as [Hlt|Heq]; [left; now apply exp_increasing|rewrite Heq; apply Rle_refl].
Qed.

Lemma wcagChannel_range (c8 : Z) : 0 <= c8 <= 255 -> (0 <= wcagChannel c8 <= 1)%R.
Proof.
  intros [Hlo Hhi]. apply IZR_le in Hlo, Hhi.
  unfold wcagChannel. cbv zeta.
  destruct (Rle_dec (IZR c8 / 255) 0.03928) as [Hsmall|Hbig].
  - split; lra.
  - assert (Hbase : (0 < (IZR c8 / 255 + 0.055) / 1.055 <= 1)%R).
    { split; lra. }
    destruct (Rpower_unit _ 2.4%R Hbase ltac:(lra)) as [Hp Hq]. lra.
Qed.

(** X12. The luminance [getLuminance] computes is a number in [0, 1] for
    every string: the WCAG luminance of a colour that parses, and 0.5 for one
    that does not. *)
Theorem getLuminance_range :
  forall hex : HexColor,
    (0 <= getLuminance hex <= 1)%R
    /\ (~ matchesHexPattern hex -> getLuminance hex = 0.5%R).
Proof.
  intros hex. split.
  - destruct (matchesHexPattern_dec hex) as [Hpat|Hpat].
    + destruct (hexToRgb_Some hex Hpat) as (r8 & g8 & b8 & Hr & Hg & Hb & Hrgb).
      unfold getLuminance. rewrite Hrgb. cbn [r g b]. cbv zeta.
      rewrite !toLinear_wcag.
      pose proof (wcagChannel_range r8 Hr). pose proof (wcagChannel_range g8 Hg).
      pose proof (wcagChannel_range b8 Hb). lra.
    + unfold getLuminance. rewrite (hexToRgb_None hex Hpat). lra.
  - intros Hpat. unfold getLuminance. now rewrite (hexToRgb_None hex Hpat).
Qed.

(** ** trim *)

Lemma dropWhile_cleanHead (s : jsstring) : cleanHead (dropWhile isWhiteSpace s).
Proof.
  destruct (dropWhile isWhiteSpace s) as [|c rest] eqn:Hdrop; [exact I|].
  simpl. eapply dropWhile_head, Hdrop.
Qed.

Lemma dropWhile_fix (s : jsstring) : cleanHead s -> dropWhile isWhiteSpace s = s.
Proof.
  destruct s as [|c s]; [reflexivity|]. simpl. now intros ->.
Qed.

Lemma dropWhile_keeps_last (l : jsstring) :
  cleanHead (List.rev l) -> cleanHead (List.rev (dropWhile isWhiteSpace l)).
Proof.
  induction l as [|c l IH]; [trivial|]. intros Hlast. cbn [dropWhile].
  destruct (isWhiteSpace c) eqn:Hc; [|exact Hlast].
  apply IH. cbn [List.rev] in Hlast.
  destruct (List.rev l) as [|d m]; [exact I|exact Hlast].
Qed.

(** A trimmed string neither starts nor ends with white space. *)
Lemma trim_clean (s : jsstring) : cleanHead (trim s) /\ cleanHead (List.rev (trim s)).
Proof.
  unfold trim. rewrite List.rev_involutive. split.
  - apply dropWhile_keeps_last. rewrite List.rev_involutive. apply dropWhile_cleanHead.
  - apply dropWhile_cleanHead.
Qed.

Lemma trim_fix (t : jsstring) : cleanHead t -> cleanHead (List.rev t) -> trim t = t.
Proof.
  intros Hhead Hlast. unfold trim.
  now rewrite (dropWhile_fix t Hhead), (dropWhile_fix _ Hlast), List.rev_involutive.
Qed.

Lemma trim_idempotent (s : jsstring) : trim (trim s) = trim s.
Proof. apply trim_fix; apply trim_clean. Qed.

Lemma dropWhile_app_spaces (pre s : jsstring) :
  forallb isWhiteSpace pre = true ->
  dropWhile isWhiteSpace (pre ++ s) = dropWhile isWhiteSpace s.
Proof.
  induction pre as [|c pre IH]; [reflexivity|]. simpl.
  intros [-> Hpre]%andb_prop. now apply IH.
Qed.

Lemma dropWhile_app_keep (s t : jsstring) :
  dropWhile isWhiteSpace s <> [] ->
  dropWhile isWhiteSpace (s ++ t) = dropWhile isWhiteSpace s ++ t.
Proof.
  induction s as [|c s IH]; [now intros []|]. simpl.
  destruct (isWhiteSpace c); [exact IH|reflexivity].
Qed.

(** White space around a string does not change what [trim] returns. *)
Lemma trim_padded (pre s post : jsstring) :
  forallb isWhiteSpace pre = true -> forallb isWhiteSpace post = true ->
  trim (pre ++ s ++ post) = trim s.
Proof.
  intros Hpre Hpost. unfold trim. rewrite dropWhile_app_spaces by assumption.
  f_equal.
  destruct (dropWhile isWhiteSpace s) as [|c rest] eqn:Hdrop.
  - apply dropWhile_nil in Hdrop.
    assert (Hall : forallb isWhiteSpace (s ++ post) = true)
      by (rewrite forallb_app, Hdrop, Hpost; reflexivity).
    apply dropWhile_nil in Hall. now rewrite Hall.
  - rewrite dropWhile_app_keep by (rewrite Hdrop; discriminate).
    rewrite Hdrop, List.rev_app_distr. apply dropWhile_app_spaces.
    rewrite forallb_forall in Hpost |- *. intros x Hx. apply Hpost. now apply in_rev.
Qed.

(** ** parseAccentWords *)

Lemma dropWhile_keeps (P : Z -> Prop) (s : jsstring) :
  Forall P s -> Forall P (dropWhile isWhiteSpace s).
Proof.
  induction 1 as [|c s Hc Hs IH]; [constructor|]. simpl.
  destruct (isWhiteSpace c); [exact IH|]. now constructor.
Qed.

Lemma trim_keeps (P : Z -> Prop) (s : jsstring) : Forall P s -> Forall P (trim s).
Proof.
  intros Hs. unfold trim. now apply Forall_rev, dropWhile_keeps, Forall_rev, dropWhile_keeps.
Qed.

Lemma Forall_filter_keeps {A} (P : A -> Prop) (f : A -> bool) (l : list A) :
  Forall P l -> Forall P (List.filter f l).
Proof.
  induction 1 as [|x l Hx _ IH]; [constructor|]. simpl.
  destruct (f x); [now constructor|exact IH].
Qed.

Lemma accentWords_filter (items : list jsstring) :
  Forall (fun w => w <> [] /\ trim w = w)
    (List.filter (fun item => 0 <? Z.of_nat (List.length item)) (List.map trim items)).
Proof.
  induction items as [|w items IH]; [constructor|]. cbn [List.map List.filter].
  destruct (trim w) as [|c t] eqn:Htrim; [exact IH|].
  change (0 <? Z.of_nat (List.length (c :: t))) with true. cbv iota.
  apply List.Forall_cons; [|exact IH].
  split; [discriminate|]. rewrite <- Htrim. apply trim_idempotent.
Qed.

Lemma parseAccentWords_words (override : option Override) :
  Forall (fun w => w <> [] /\ trim w = w) (parseAccentWords override).
Proof.
  destruct override as [[[|c s]|items]|]; cbn [parseAccentWords];
    try apply accentWords_filter; constructor.
Qed.

(** X13. Every accent word [parseAccentWords] returns is non-empty and
    trimmed, and parsing the returned list again changes nothing; the words
    of a string override hold no [|], comma or newline; a missing override,
    the empty string and the empty list give no words. *)
Theorem parseAccentWords_clean :
  forall override : option Override,
    Forall (fun w => w <> [] /\ trim w = w
                     /\ cleanHead w /\ cleanHead (List.rev w))
      (parseAccentWords override)
    /\ parseAccentWords (Some (Many (parseAccentWords override))) = parseAccentWords override
    /\ (forall s : jsstring,
           Forall (Forall (fun c => isWordSeparator c = false))
             (parseAccentWords (Some (Single s))))
    /\ parseAccentWords None = []
    /\ parseAccentWords (Some (Single [])) = []
    /\ parseAccentWords (Some (Many [])) = [].
Proof.
  intros override. pose proof (parseAccentWords_words override) as Hwords.
  split; [|split; [|split; [|repeat split] ] ].
  - eapply Forall_impl; [exact Hwords|]. intros w [Hne Htrim].
    repeat split; try assumption; rewrite <- Htrim; apply trim_clean.
  - cbn [parseAccentWords].
    induction Hwords as [|w ws [Hne Htrim] _ IH]; [reflexivity|].
    cbn [List.map List.filter]. rewrite Htrim.
    destruct w as [|c w]; [contradiction|].
    change (0 <? Z.of_nat (List.length (c :: w))) with true. cbv iota.
    now rewrite IH.
  - intros s. destruct s as [|c s]; [constructor|]. cbn [parseAccentWords].
    apply Forall_filter_keeps, Forall_forall. intros w Hw.
    apply list_elem_of_In, in_map_iff in Hw as (piece & <- & Hpiece).
    apply trim_keeps.
    pose proof (splitRunsFrom_clean isWordSeparator (c :: s) [] false ltac:(constructor))
      as Hclean.
    rewrite Forall_forall in Hclean. apply Hclean. now apply list_elem_of_In.
Qed.

(** ** getPrimaryWords and getInitials on any input *)

Lemma splitEachFrom_Forall (P : Z -> Prop) (sep : Z -> bool) (s cur : jsstring) :
  Forall P s -> Forall P cur -> Forall (Forall P) (splitEachFrom sep s cur).
Proof.
  intros Hs. revert cur. induction Hs as [|c s Hc _ IH]; intros cur Hcur; cbn [splitEachFrom].
  - apply List.Forall_cons; [now apply Forall_rev|apply List.Forall_nil].
  - destruct (sep c).
    + apply List.Forall_cons; [now apply Forall_rev|]. apply IH. apply List.Forall_nil.
    + apply IH. now apply List.Forall_cons.
Qed.

Lemma filter_nonEmpty_Forall (P : jsstring -> Prop) (l : list jsstring) :
  Forall P l -> Forall (fun w => w <> [] /\ P w) (List.filter nonEmpty l).
Proof.
  induction 1 as [|w l Hw _ IH]; [constructor|]. cbn [List.filter].
  destruct w as [|c w]; [exact IH|]. cbn [nonEmpty].
  apply List.Forall_cons; [|exact IH]. split; [discriminate|exact Hw].
Qed.

(** X14. [getPrimaryWords] always returns two strings (no entry is
    [undefined]) and the primary word is never empty.  When the words come
    from the title (no accent words given), neither holds white space. *)
Theorem getPrimaryWords_defined :
  forall (value : jsstring) (override : option Override),
    exists primary secondary : jsstring,
      getPrimaryWords value override = (Some primary, Some secondary)
      /\ primary <> []
      /\ (parseAccentWords override = [] ->
          Forall (fun c => isWhiteSpace c = false) primary
          /\ Forall (fun c => isWhiteSpace c = false) secondary).
Proof.
  intros value override. unfold getPrimaryWords.
  pose proof (parseAccentWords_words override) as Hparsed.
  destruct (parseAccentWords override) as [|w0 rest] eqn:Hovr.
  - change (0 <? Z.of_nat (List.length (@nil jsstring))) with false. cbv iota.
    rewrite nonEmpty_trim.
    destruct (forallb isWhiteSpace value) eqn:Hall; cbn [negb].
    + exists (js "TEN"), (js "Blog"). split; [reflexivity|]. split; [discriminate|].
      intros _. split; repeat (apply List.Forall_cons; [reflexivity|]); apply List.Forall_nil.
    + pose proof (splitWords_nonempty value (trim_nonempty value Hall)) as Hne.
      pose proof (splitWords_words (trim value)) as Hwords.
      destruct (splitWords (trim value)) as [|w [|w1 more]]; [contradiction| |].
      * change (Z.of_nat (List.length [w]) =? 1) with true. cbv iota.
        change ([w] !! 0%nat) with (Some w). cbn [from_option Datatypes.id].
        apply Forall_cons_iff in Hwords as [[Hw Hclean] _].
        pose proof (filter_nonEmpty_Forall _ _
                      (splitEachFrom_Forall _ isDash w [] Hclean ltac:(apply List.Forall_nil)))
          as Hparts.
        fold (splitEach isDash w) in Hparts.
        destruct (List.filter nonEmpty (splitEach isDash w)) as [|p0 [|p1 ps]].
        -- exists w, []. repeat split; try assumption. apply List.Forall_nil.
        -- exists w, []. repeat split; try assumption. apply List.Forall_nil.
        -- apply Forall_cons_iff in Hparts as [[Hp0 Hc0] Hparts].
           apply Forall_cons_iff in Hparts as [[Hp1 Hc1] _].
           exists p0, p1.
           destruct (Z.leb_spec 2 (Z.of_nat (List.length (p0 :: p1 :: ps)))) as [_|Hlt];
             [|simpl in Hlt; lia].
           repeat split; assumption.
      * apply Forall_cons_iff in Hwords as [[Hw Hclean] Hwords].
        apply Forall_cons_iff in Hwords as [[Hw1 Hclean1] _].
        exists w, w1.
        destruct (Z.eqb_spec (Z.of_nat (List.length (w :: w1 :: more))) 1) as [Hone|_];
          [simpl in Hone; lia|].
        repeat split; assumption.
  - apply Forall_cons_iff in Hparsed as [[Hw0 _] _].
    exists w0, (default [] (head rest)).
    split; [now destruct rest|]. split; [assumption|]. discriminate.
Qed.

(** X15. White space before and after a title does not change the words
    [getPrimaryWords] derives from it. *)
Theorem getPrimaryWords_padding :
  forall (pre value post : jsstring) (override : option Override),
    forallb isWhiteSpace pre = true ->
    forallb isWhiteSpace post = true ->
    getPrimaryWords (pre ++ value ++ post) override = getPrimaryWords value override
    /\ getPrimaryWords (trim value) override = getPrimaryWords value override.
Proof.
  intros pre value post override Hpre Hpost. unfold getPrimaryWords.
  now rewrite trim_padded, trim_idempotent.
Qed.

(** "  Self-Driving " *)
Lemma getPrimaryWords_padding_witness :
  getPrimaryWords (js "  Self-Driving ") None = (Some (js "Self"), Some (js "Driving")).
Proof.
  destruct (getPrimaryWords_padding (js "  ") (js "Self-Driving") (js " ") None
              eq_refl eq_refl) as [Hpad _].
  change (js "  " ++ js "Self-Driving" ++ js " ") with (js "  Self-Driving ") in Hpad.
  rewrite Hpad. vm_compute. reflexivity.
Defined.

Section GetInitialsRobust.
Variable upperBeyondLatin1 : jsstring -> jsstring.

(** X16. [getInitials] never fails: whenever it reads the second word there
    is one.  White space around the name does not change the initials. *)
Theorem getInitials_robust :
  forall (pre name post : jsstring),
    forallb isWhiteSpace pre = true ->
    forallb isWhiteSpace post = true ->
    (exists initials, getInitials upperBeyondLatin1 name = Some initials)
    /\ getInitials upperBeyondLatin1 (pre ++ name ++ post)
       = getInitials upperBeyondLatin1 name
    /\ getInitials upperBeyondLatin1 (trim name) = getInitials upperBeyondLatin1 name.
Proof.
  intros pre name post Hpre Hpost. split.
  - unfold getInitials. rewrite nonEmpty_trim.
    destruct (forallb isWhiteSpace name) eqn:Hall; cbn [negb]; [eauto|].
    pose proof (splitWords_nonempty name (trim_nonempty name Hall)) as Hne.
    destruct (splitWords (trim name)) as [|w [|w1 more]]; [contradiction| |].
    + change (Z.of_nat (List.length [w]) =? 1) with true. cbv iota.
      change ([w] !! 0%nat) with (Some w). cbn. eauto.
    + destruct (Z.eqb_spec (Z.of_nat (List.length (w :: w1 :: more))) 1) as [Hone|_];
        [simpl in Hone; lia|].
      change ((w :: w1 :: more) !! 0%nat) with (Some w).
      change ((w :: w1 :: more) !! 1%nat) with (Some w1). cbn. eauto.
  - unfold getInitials. now rewrite trim_padded, trim_idempotent.
Qed.
End GetInitialsRobust.

(** " Jane Doe " *)
Lemma getInitials_robust_witness :
  forallb isWhiteSpace (js " ") = true
  /\ (forall upperBeyondLatin1 : jsstring -> jsstring,
         getInitials upperBeyondLatin1 (js " Jane Doe ") = Some (js "JD")).
Proof.
  split; [reflexivity|]. intros upperBeyondLatin1.
  destruct (getInitials_robust upperBeyondLatin1 (js " ") (js "Jane Doe") (js " ")
              eq_refl eq_refl) as (_ & Hpad & _).
  change (js " " ++ js "Jane Doe" ++ js " ") with (js " Jane Doe ") in Hpad.
  rewrite Hpad. vm_compute. reflexivity.
Defined.

(** ** hexToRgba: the alpha it prints *)

Section HexToRgbaAlpha.
Variable fractionToString : Q -> jsstring.

Lemma numberToString_whole (x : Q) (n : Z) :
  (x == inject_Z n)%Q -> 0 <= n <= 255 ->
  numberToString fractionToString x = natToString10 n.
Proof.
  intros Hx Hn. unfold numberToString, isWhole, wholePart.
  assert (Hfloor : Qfloor x = n) by (rewrite Hx; apply Qfloor_Z).
  rewrite Hfloor.
  replace (Qeq_bool x (inject_Z n)) with true by (symmetry; now apply Qeq_bool_iff).
  replace (Qle_bool (Qabs x) (inject_Z (10 ^ 21 - 1))) with true.
  - cbn [andb]. destruct (Z.ltb_spec n 0); [lia|reflexivity].
  - symmetry. apply Qle_bool_iff. rewrite Hx.
    rewrite Qabs_pos by (change 0%Q with (inject_Z 0); rewrite <- Zle_Qle; lia).
    rewrite <- Zle_Qle. lia.
Qed.

(** X17. For a colour of the hex pattern, [hexToRgba] prints a decimal
    [rgba(r, g, b, a)] whose alpha saturates: every alpha of 1 or more is
    printed as 1, every alpha of 0 or less as 0. *)
Theorem hexToRgba_alpha_saturates :
  forall (color : HexColor) (alpha : Q),
    matchesHexPattern color ->
    exists r8 g8 b8 : Z,
      0 <= r8 <= 255 /\ 0 <= g8 <= 255 /\ 0 <= b8 <= 255
      /\ hexToRgb color = Some (mkRGB (inject_Z r8) (inject_Z g8) (inject_Z b8))
      /\ ((1 <= alpha)%Q ->
          hexToRgba fractionToString color alpha
          = js "rgba(" ++ natToString10 r8 ++ js ", " ++ natToString10 g8
              ++ js ", " ++ natToString10 b8 ++ js ", 1)")
      /\ ((alpha <= 0)%Q ->
          hexToRgba fractionToString color alpha
          = js "rgba(" ++ natToString10 r8 ++ js ", " ++ natToString10 g8
              ++ js ", " ++ natToString10 b8 ++ js ", 0)").
Proof.
  intros color alpha Hpat.
  destruct (hexToRgb_Some color Hpat) as (r8 & g8 & b8 & Hr & Hg & Hb & Hrgb).
  exists r8, g8, b8. repeat (split; [assumption|]).
  destruct (clamp_unit alpha) as (_ & Hin & Hlow & Hhigh).
  assert (Hshape : forall n : Z, 0 <= n <= 1 -> (clamp alpha 0 1 == inject_Z n)%Q ->
            hexToRgba fractionToString color alpha
            = js "rgba(" ++ natToString10 r8 ++ js ", " ++ natToString10 g8
                ++ js ", " ++ natToString10 b8 ++ js ", " ++ natToString10 n ++ js ")").
  { intros n Hn Hclamp. unfold hexToRgba. rewrite Hrgb. cbn [r g b]. cbv zeta.
    rewrite !numberToString_byte by assumption.
    now rewrite (numberToString_whole _ n Hclamp) by lia. }
  split.
  - intros Hbig. rewrite (Hshape 1); [reflexivity|lia|].
    destruct (Qlt_le_dec 1 alpha) as [Hlt|Hle]; [now apply Hhigh|].
    rewrite Hin by (split; [lra|assumption]). change (inject_Z 1) with 1%Q. lra.
  - intros Hsmall. rewrite (Hshape 0); [reflexivity|lia|].
    destruct (Qlt_le_dec alpha 0) as [Hlt|Hle]; [now apply Hlow|].
    rewrite Hin by (split; [assumption|lra]). change (inject_Z 0) with 0%Q. lra.
Qed.
End HexToRgbaAlpha.

(** "#0ea5e9" at alpha 7/2 and at alpha -1. *)
Lemma hexToRgba_alpha_saturates_witness :
  matchesHexPattern (js "#0ea5e9")
  /\ (forall fractionToString : Q -> jsstring,
         hexToRgba fractionToString (js "#0ea5e9") (7 # 2) = js "rgba(14, 165, 233, 1)"
         /\ hexToRgba fractionToString (js "#0ea5e9") (-1 # 1) = js "rgba(14, 165, 233, 0)").
Proof.
  assert (Hpat : matchesHexPattern (js "#0ea5e9")).
  { apply hexColorRegex_test_spec. vm_compute. reflexivity. }
  split; [exact Hpat|]. intros fractionToString.
  assert (Hrgb : hexToRgb (js "#0ea5e9") = Some (mkRGB 14 165 233)) by (vm_compute; reflexivity).
  split.
  - destruct (hexToRgba_alpha_saturates fractionToString (js "#0ea5e9") (7 # 2) Hpat)
      as (r8 & g8 & b8 & _ & _ & _ & Hparse & Hone & _).
    rewrite Hrgb in Hparse. unfold inject_Z in Hparse. injection Hparse as <- <- <-.
    rewrite Hone by discriminate. vm_compute. reflexivity.
  - destruct (hexToRgba_alpha_saturates fractionToString (js "#0ea5e9") (-1 # 1) Hpat)
      as (r8 & g8 & b8 & _ & _ & _ & Hparse & _ & Hzero).
    rewrite Hrgb in Hparse. unfold inject_Z in Hparse. injection Hparse as <- <- <-.
    rewrite Hzero by discriminate. vm_compute. reflexivity.
Defined.

(** ** The colours of the components *)

Lemma mixHexColors_channels (color mixWith : HexColor) (weight : Q) :
  matchesHexPattern color -> matchesHexPattern mixWith ->
  exists r1 g1 b1 r2 g2 b2 r3 g3 b3 : Z,
    hexToRgb color = Some (mkRGB (inject_Z r1) (inject_Z g1) (inject_Z b1))
    /\ hexToRgb mixWith = Some (mkRGB (inject_Z r2) (inject_Z g2) (inject_Z b2))
    /\ hexToRgb (mixHexColors color mixWith weight)
       = Some (mkRGB (inject_Z r3) (inject_Z g3) (inject_Z b3))
    /\ (0 <= r2 <= 255 /\ 0 <= g2 <= 255 /\ 0 <= b2 <= 255)
    /\ Z.min r1 r2 <= r3 <= Z.max r1 r2
    /\ Z.min g1 g2 <= g3 <= Z.max g1 g2
    /\ Z.min b1 b2 <= b3 <= Z.max b1 b2.
Proof.
  intros Hc Hm.
  destruct (hexToRgb_Some color Hc) as (r1 & g1 & b1 & Hr1 & Hg1 & Hb1 & Hbase).
  destruct (hexToRgb_Some mixWith Hm) as (r2 & g2 & b2 & Hr2 & Hg2 & Hb2 & Hmix).
  destruct (mix_ratio weight) as (Hrange & _).
  exists r1, g1, b1, r2, g2, b2. eexists _, _, _.
  split; [exact Hbase|]. split; [exact Hmix|].
  rewrite (mixHexColors_parsed _ _ weight _ _ Hbase Hmix).
  split; [apply rgbToHex_parses|]. cbn [r g b].
  split; [auto|].
  repeat split; apply mixedByte_between; assumption.
Qed.

Lemma white_valid : matchesHexPattern (js "#ffffff").
Proof. apply hexColorRegex_test_spec. vm_compute. reflexivity. Qed.

Lemma black_valid : matchesHexPattern (js "#000000").
Proof. apply hexColorRegex_test_spec. vm_compute. reflexivity. Qed.

Lemma mix_white_lighter (color : HexColor) (weight : Q) :
  matchesHexPattern color ->
  channelsLe color (mixHexColors color (js "#ffffff") weight).
Proof.
  intros Hc.
  destruct (mixHexColors_channels color (js "#ffffff") weight Hc white_valid)
    as (r1 & g1 & b1 & r2 & g2 & b2 & r3 & g3 & b3 & H1 & H2 & H3 & _ & Hr & Hg & Hb).
  assert (Hw : hexToRgb (js "#ffffff") = Some (mkRGB 255 255 255)) by (vm_compute; reflexivity).
  rewrite Hw in H2. unfold inject_Z in H2. injection H2 as <- <- <-.
  destruct (hexToRgb_Some color Hc) as (r1' & g1' & b1' & Hr1 & Hg1 & Hb1 & Hbase).
  rewrite Hbase in H1. unfold inject_Z in H1. injection H1 as -> -> ->.
  exists r1, g1, b1, r3, g3, b3. repeat split; try assumption; lia.
Qed.

Lemma mix_black_darker (color : HexColor) (weight : Q) :
  matchesHexPattern color ->
  channelsLe (mixHexColors color (js "#000000") weight) color.
Proof.
  intros Hc.
  destruct (mixHexColors_channels color (js "#000000") weight Hc black_valid)
    as (r1 & g1 & b1 & r2 & g2 & b2 & r3 & g3 & b3 & H1 & H2 & H3 & _ & Hr & Hg & Hb).
  assert (Hw : hexToRgb (js "#000000") = Some (mkRGB 0 0 0)) by (vm_compute; reflexivity).
  rewrite Hw in H2. unfold inject_Z in H2. injection H2 as <- <- <-.
  destruct (hexToRgb_Some color Hc) as (r1' & g1' & b1' & Hr1 & Hg1 & Hb1 & Hbase).
  rewrite Hbase in H1. unfold inject_Z in H1. injection H1 as -> -> ->.
  exists r3, g3, b3, r1, g1, b1. repeat split; try assumption; lia.
Qed.

Lemma mix_valid (color mixWith : HexColor) (weight : Q) :
  matchesHexPattern color -> matchesHexPattern (mixHexColors color mixWith weight).
Proof.
  intros Hc. destruct (matchesHexPattern_dec mixWith) as [Hm|Hm].
  - destruct (hexToRgb_Some color Hc) as (r1 & g1 & b1 & _ & _ & _ & Hbase).
    destruct (hexToRgb_Some mixWith Hm) as (r2 & g2 & b2 & _ & _ & _ & Hmix).
    rewrite (mixHexColors_parsed _ _ weight _ _ Hbase Hmix). apply rgbToHex_parses.
  - unfold mixHexColors. rewrite (hexToRgb_None mixWith Hm).
    now destruct (hexToRgb color).
Qed.

(** X18. For an accent colour of the hex pattern, every colour the cover
    art, the author badge and the banner derive from it is again of the hex
    pattern; the highlights, glows and the badge start are no darker than the
    accent colour in any channel, the deep tones and the badge end no
    lighter; the badge text is one of the two text colours. *)
Theorem component_colours :
  forall accentColor : HexColor,
    matchesHexPattern accentColor ->
    Forall matchesHexPattern
      [ CoverArtwork.highlight accentColor; CoverArtwork.glow accentColor;
        CoverArtwork.deep accentColor; CoverArtwork.ambient accentColor;
        CoverArtwork.lowlight accentColor;
        AuthorBadge.badgeStart accentColor; AuthorBadge.badgeEnd accentColor;
        ModernPaintingBanner.highlight accentColor; ModernPaintingBanner.glow accentColor;
        ModernPaintingBanner.deep accentColor; ModernPaintingBanner.ambient accentColor;
        ModernPaintingBanner.lowlight accentColor;
        ModernPaintingBanner.backgroundColor accentColor ]
    /\ channelsLe accentColor (CoverArtwork.highlight accentColor)
    /\ channelsLe accentColor (CoverArtwork.glow accentColor)
    /\ channelsLe (CoverArtwork.deep accentColor) accentColor
    /\ channelsLe accentColor (AuthorBadge.badgeStart accentColor)
    /\ channelsLe (AuthorBadge.badgeEnd accentColor) accentColor
    /\ channelsLe accentColor (ModernPaintingBanner.highlight accentColor)
    /\ channelsLe accentColor (ModernPaintingBanner.glow accentColor)
    /\ channelsLe (ModernPaintingBanner.deep accentColor) accentColor
    /\ (AuthorBadge.textColor accentColor = js "#0f172a"
        \/ AuthorBadge.textColor accentColor = js "#f8fafc").
Proof.
  intros accentColor Hc.
  split; [repeat (apply List.Forall_cons; [now apply mix_valid|]); apply List.Forall_nil|].
  repeat (split; [first [now apply mix_white_lighter | now apply mix_black_darker]|]).
  unfold AuthorBadge.textColor, getReadableTextColor.
  destruct (Rgt_dec _ _); auto.
Qed.

(** The palette orange, its cover highlight and its deep tone. *)
Lemma component_colours_witness :
  CoverArtwork.highlight (js "#f97316") = js "#fba468"
  /\ CoverArtwork.deep (js "#f97316") = js "#ae510f"
  /\ channelsLe (js "#f97316") (CoverArtwork.highlight (js "#f97316"))
  /\ channelsLe (CoverArtwork.deep (js "#f97316")) (js "#f97316").
Proof.
  split; [vm_compute; reflexivity|]. split; [vm_compute; reflexivity|].
  destruct (component_colours (js "#f97316")) as (_ & Hlight & _ & Hdeep & _).
  - apply hexColorRegex_test_spec. vm_compute. reflexivity.
  - split; assumption.
Defined.

(** ** The listing page *)

Lemma renderAccents_length (posts : list BlogFrontmatterMeta) (used : UsedColors) :
  List.length (renderAccents posts used).1 = List.length posts.
Proof.
  revert used. induction posts as [|q posts IH]; intros used; [reflexivity|].
  cbn [renderAccents].
  destruct (pickAccentColor q used) as [c used'].
  specialize (IH used'). destruct (renderAccents posts used') as [cs used''].
  cbn [fst] in *. cbn [List.length]. now rewrite IH.
Qed.

Lemma featuredIndex_lookup (sortedPosts : list Page) :
  match featuredIndex sortedPosts with
  | Some i =>
      exists p, sortedPosts !! i = Some p
                /\ (isFeatured p = true
                    \/ (i = 0%nat /\ Forall (fun q => isFeatured q = false) sortedPosts))
                /\ (forall j q, sortedPosts !! j = Some q -> (j < i)%nat -> isFeatured q = false)
  | None => sortedPosts = []
  end.
Proof.
  unfold featuredIndex.
  destruct (list_find (fun p => isFeatured p = true) sortedPosts) as [[i p]|] eqn:Hfind.
  - apply list_find_Some in Hfind as (Hi & Hp & Hbefore).
    exists p. split; [exact Hi|]. split; [now left|].
    intros j q Hj Hlt. specialize (Hbefore j q Hj Hlt). now destruct (isFeatured q).
  - apply list_find_None in Hfind.
    destruct sortedPosts as [|p0 rest]; [reflexivity|].
    exists p0. split; [reflexivity|]. split; [|intros j q _ Hlt; lia].
    right. split; [reflexivity|].
    eapply Forall_impl; [exact Hfind|]. intros q Hq. now apply not_true_is_false.
Qed.

(** X19. The page renders every post exactly once: the featured post first,
    then the others in their sorted order.  The featured post is the first
    one flagged [featured] (no post before it in the sorted order is
    flagged), or the first post when none is flagged; the standard posts are
    the sorted posts without that one position; and since the featured post
    is rendered on the empty set, its accent colour is the one
    [getAccentColor] gives at offset 0, whatever the other posts are. *)
Theorem page_render_order :
  forall sortedPosts : list Page,
    renderOrder sortedPosts ≡ₚ sortedPosts
    /\ List.length (pageAccents sortedPosts) = List.length sortedPosts
    /\ (featuredPost sortedPosts = None <-> sortedPosts = [])
    /\ (forall p,
           featuredPost sortedPosts = Some p ->
           (exists i : nat,
               sortedPosts !! i = Some p
               /\ standardPosts sortedPosts = delete i sortedPosts
               /\ (forall j q, sortedPosts !! j = Some q -> (j < i)%nat ->
                               isFeatured q = false)
               /\ (isFeatured p = true
                   \/ (i = 0%nat /\ Forall (fun q => isFeatured q = false) sortedPosts)))
           /\ renderOrder sortedPosts = p :: standardPosts sortedPosts
           /\ sublist (standardPosts sortedPosts) sortedPosts
           /\ pageAccents sortedPosts !! 0%nat
              = Some (getAccentColor (accentColor (data p)) (title (data p)) 0)).
Proof.
  intros sortedPosts.
  pose proof (featuredIndex_lookup sortedPosts) as Hidx.
  unfold pageAccents, renderOrder, featuredPost, standardPosts.
  destruct (featuredIndex sortedPosts) as [i|] eqn:Hfi.
  - destruct Hidx as (p & Hi & Hwhy & Hfirst). cbn [mbind option_bind]. rewrite Hi.
    change (option_list (Some p) ++ delete i sortedPosts) with (p :: delete i sortedPosts).
    assert (Hperm : p :: delete i sortedPosts ≡ₚ sortedPosts)
      by (symmetry; now apply delete_Permutation).
    split; [exact Hperm|]. split; [|split].
    + rewrite renderAccents_length, List.length_map.
      apply Permutation_length in Hperm. exact Hperm.
    + split; [discriminate|]. intros ->. discriminate Hi.
    + intros q [= <-]. split.
      * exists i. split; [exact Hi|]. split; [reflexivity|]. split; [exact Hfirst|].
        exact Hwhy.
      * split; [reflexivity|]. split; [apply sublist_delete|].
        cbn [List.map renderAccents].
        assert (Hempty : (pickAccentColor (data p) ∅).1
                         = getAccentColor (accentColor (data p)) (title (data p)) 0).
        { unfold pickAccentColor.
          destruct (truthy (accentColor (data p))) eqn:Htruthy; [reflexivity|].
          cbv zeta. rewrite probe_step. unfold probeGuard.
          rewrite bool_decide_eq_false_2 by apply not_elem_of_empty. reflexivity. }
        destruct (pickAccentColor (data p) ∅) as [c used]. cbn [fst] in Hempty.
        destruct (renderAccents (List.map data (delete i sortedPosts)) used) as [cs used'].
        subst c. reflexivity.
  - subst sortedPosts. cbn. repeat split; try reflexivity; try discriminate.
Qed.

(** ** getAccentColor and its position *)

(** X20. Without a valid explicit colour, [getAccentColor] walks the palette
    with period [paletteSize] on non-negative positions; a negative position
    that takes the index below zero gives [undefined], unless the index is a
    multiple of [paletteSize]. *)
Theorem getAccentColor_position :
  forall (key : jsstring) (position : Z),
    (0 <= position ->
     getAccentColor None key (position + paletteSize) = getAccentColor None key position)
    /\ (hashString key mod paletteSize + position < 0 ->
        (hashString key mod paletteSize + position) mod paletteSize <> 0 ->
        getAccentColor None key position = None)
    /\ (hashString key mod paletteSize + position < 0 ->
        (hashString key mod paletteSize + position) mod paletteSize = 0 ->
        getAccentColor None key position = accentPalette !! 0%nat).
Proof.
  intros key position.
  pose proof (hashString_nonneg key) as Hh.
  assert (Hbase : Z.rem (hashString key) paletteSize = hashString key mod paletteSize)
    by (apply Z.rem_mod_nonneg; [assumption|now rewrite paletteSize_eq]).
  split; [|split].
  - intros Hpos. unfold getAccentColor. cbn [truthy andb]. cbv zeta.
    rewrite !paletteIndex_mod by (rewrite ?paletteSize_eq; lia).
    rewrite Z.add_assoc.
    now rewrite <- (Z.mul_1_l paletteSize) at 2; rewrite Z.mod_add by (rewrite paletteSize_eq; lia).
  - intros Hneg Hrem. unfold getAccentColor. cbn [truthy andb]. cbv zeta.
    rewrite Hbase. unfold arrayGet.
    pose proof (Z.rem_nonpos (hashString key mod paletteSize + position) paletteSize
                  ltac:(rewrite paletteSize_eq; lia) ltac:(lia)) as Hle.
    assert (Hne : Z.rem (hashString key mod paletteSize + position) paletteSize <> 0).
    { intros Hzero. apply Hrem. apply Z.rem_mod_eq_0; [rewrite paletteSize_eq; lia|exact Hzero]. }
    destruct (Z.ltb_spec (Z.rem (hashString key mod paletteSize + position) paletteSize) 0);
      [reflexivity|lia].
  - intros Hneg Hrem. unfold getAccentColor. cbn [truthy andb]. cbv zeta.
    rewrite Hbase.
    apply Z.rem_mod_eq_0 in Hrem; [|rewrite paletteSize_eq; lia].
    now rewrite Hrem.
Qed.
